(** * The legacy-layout converter of the dashboard (layoutConverter.js)

    A shallow embedding of
    [superset/assets/javascripts/dashboard/v2/util/layoutConverter.js]
    and the properties of the tree it builds.

    Conventions of the embedding.
    - JavaScript numbers that hold integers (grid coordinates, sizes, the
      recursion level) are [Z], with exact arithmetic.  That is the
      arithmetic of the source as long as every number it computes is a
      safe integer (at most [Number.MAX_SAFE_INTEGER = 2^53 - 1] in
      absolute value): beyond, a sum is rounded and [x++] may leave [x]
      as it is, so that a scan no longer ends.  [safe_layout] bounds the
      items so that no number of a conversion leaves the safe integers,
      and the properties are stated for such layouts.  The id counter,
      which starts at 1 and only grows, is [N].  Widths of containers are
      [JSNumber], because [Math.max] of no argument is [-Infinity] and a
      missing field read as a number is [NaN].
    - The object [root] that maps ids to nodes is a [gmap string Node.t].
      A reference to a node object is the key under which the object is
      stored: every node is stored under its own id right where it is
      created, and [convert] stores the root node before it calls
      [doConvert], so [parent.children.push(x)] is an update of the
      registry at the parent's key.
    - The module-level counter of [generateId] and the registry are the
      state of a small state-and-exception monad [M].
    - [Array.prototype.sort] is a stable sort.
    - The two [while] loops and the recursion of [doConvert] run on a
      number of turns computed from their own bounds; Part II has their
      equations, which have no such number.
    - An array that only one piece of code holds is a list.  Where the
      source relies on a copy ([slice] before the in-place [sort] of
      [hasOverlap]), the arrays are also given as places of a heap.

    Part I has the definitions: the embedding of the source, then the
    trees and registry entries that describe its result, then the
    predicates of the properties.  Part II has the lemmas, the
    properties C1 to C10 and further properties of the converter, X1 to
    X13. *)

From stdpp Require Import base option list strings gmap fin_maps pretty sorting.
From Stdlib Require Import ZArith Lia.

Open Scope Z_scope.

(** * Part I: definitions *)

(** ** JavaScript numbers that may be [-Infinity] or [NaN] *)

Inductive JSNumber :=
| NaN
| NegInfinity
| Num (z : Z).

Global Instance JSNumber_eq_dec : EqDecision JSNumber.
Proof. solve_decision. Defined.

(** [a + b] on the numbers above; the sum of two integers is exact, as
    it is in the source while it is a safe integer ([+Infinity], which
    takes a sum above [Number.MAX_VALUE], is not among these numbers). *)
Definition JSadd (a b : JSNumber) : JSNumber :=
  match a, b with
  | NaN, _ | _, NaN => NaN
  | NegInfinity, _ | _, NegInfinity => NegInfinity
  | Num x, Num y => Num (x + y)
  end.

(** One step of [Math.max]. *)
Definition JSmax (a b : JSNumber) : JSNumber :=
  match a, b with
  | NaN, _ | _, NaN => NaN
  | NegInfinity, x | x, NegInfinity => x
  | Num x, Num y => Num (Z.max x y)
  end.

(** [Math.max.apply(null, args)]: [-Infinity] when there is no argument. *)
Definition Math_max (args : list JSNumber) : JSNumber :=
  foldl JSmax NegInfinity args.

(** [ToNumber] of a field that may be [undefined]. *)
Definition toNumber (v : option JSNumber) : JSNumber :=
  match v with
  | Some x => x
  | None => NaN
  end.

(** [Number.MAX_VALUE], the largest finite double, which is an integer. *)
Definition Number_MAX_VALUE : Z := 2 ^ 1024 - 2 ^ 971.

(** ** Data model *)

(** An item of the legacy grid. *)
Module Item.

Record t := mk {
  row : Z;
  col : Z;
  size_x : Z;
  size_y : Z;
  slice_id : string;
}.

End Item.

Global Instance Item_eq_dec : EqDecision Item.t.
Proof. solve_decision. Defined.

Inductive NodeType :=
| DASHBOARD_GRID_ROOT_TYPE
| DASHBOARD_ROW_TYPE
| DASHBOARD_COLUMN_TYPE
| DASHBOARD_CHART_TYPE.

Global Instance NodeType_eq_dec : EqDecision NodeType.
Proof. solve_decision. Defined.

(** The [meta] object of a node; a field that the object does not have is
    [None]. *)
Module Meta.

Record t := mk {
  rowStyle : option string;
  width : option JSNumber;
  height : option Z;
  sliceId : option string;
  row : option Z;
  col : option Z;
}.

Definition empty : t := mk None None None None None None.

Definition set_width (w : JSNumber) (m : t) : t :=
  mk (rowStyle m) (Some w) (height m) (sliceId m) (row m) (col m).

End Meta.

Global Instance Meta_eq_dec : EqDecision Meta.t.
Proof. solve_decision. Defined.

Module Node.

Record t := mk {
  version : string;
  type : NodeType;
  id : string;
  children : list string;
  meta : option Meta.t;
}.

(** [node.children.push(child)] *)
Definition push (child : string) (n : t) : t :=
  mk (version n) (type n) (id n) (children n ++ [child]) (meta n).

(** [node.meta.width = w] *)
Definition set_width (w : JSNumber) (n : t) : t :=
  mk (version n) (type n) (id n) (children n) (Meta.set_width w <$> meta n).

End Node.

Global Instance Node_eq_dec : EqDecision Node.t.
Proof. solve_decision. Defined.

Module Boundary.

Record t := mk {
  top : Z;
  bottom : Z;
  left : Z;
  right : Z;
}.

End Boundary.

(** ** Pure helpers *)

(** [getBoundary]: one pass over the layout with four running extrema.
    The sums [row + size_y] and [col + size_x] are those of the source
    for items within the safe integers ([safe_item]). *)
Definition getBoundary (layout : list Item.t) : Boundary.t :=
  foldl
    (fun (b : Boundary.t) (item : Item.t) =>
       let top :=
         if Item.row item <=? Boundary.top b then Item.row item
         else Boundary.top b in
       let left :=
         if Item.col item <=? Boundary.left b then Item.col item
         else Boundary.left b in
       let bottom :=
         if Boundary.bottom b <=? Item.row item + Item.size_y item
         then Item.row item + Item.size_y item
         else Boundary.bottom b in
       let right :=
         if Boundary.right b <=? Item.col item + Item.size_x item
         then Item.col item + Item.size_x item
         else Boundary.right b in
       Boundary.mk top bottom left right)
    (Boundary.mk Number_MAX_VALUE 0 Number_MAX_VALUE 1)
    layout.

Definition sortByRowId (item1 item2 : Item.t) : Z :=
  Item.row item1 - Item.row item2.

Definition sortByColId (item1 item2 : Item.t) : Z :=
  Item.col item1 - Item.col item2.

(** [Array.prototype.sort] with a comparator, as a stable insertion sort:
    an element moves behind the elements that the comparator puts strictly
    before it, and keeps its place among those it ties with. *)
Fixpoint sort_insert {A} (cmp : A → A → Z) (x : A) (l : list A) : list A :=
  match l with
  | [] => [x]
  | y :: l' => if cmp x y >? 0 then y :: sort_insert cmp x l' else x :: l
  end.

Definition Array_sort {A} (cmp : A → A → Z) (arr : list A) : list A :=
  foldr (sort_insert cmp) [] arr.

(** [arr.some((item, index, arr) => ...)] *)
Fixpoint Array_some_from {A} (f : A → Z → list A → bool)
    (arr : list A) (index : Z) (rest : list A) : bool :=
  match rest with
  | [] => false
  | item :: rest' =>
      if f item index arr then true
      else Array_some_from f arr (index + 1) rest'
  end.

Definition Array_some {A} (f : A → Z → list A → bool) (arr : list A) : bool :=
  Array_some_from f arr 0 arr.

(** The callback of [hasOverlap].  The read [arr[index + 1]] is guarded by
    the test on [index], so the branch for a missing element is not
    taken.  The sums are those of the source for items within the safe
    integers. *)
Definition overlapsNext (xAxis : bool)
    (item : Item.t) (index : Z) (arr : list Item.t) : bool :=
  if index =? Z.of_nat (length arr) - 1 then false
  else
    match arr !! Z.to_nat (index + 1) with
    | Some next =>
        if xAxis then Item.col item + Item.size_x item >? Item.col next
        else Item.row item + Item.size_y item >? Item.row next
    | None => false
    end.

(** [hasOverlap(layout, xAxis)] on the elements of [layout]: the sort
    works on a copy, [layout.slice()]. *)
Definition hasOverlap (layout : list Item.t) (xAxis : bool) : bool :=
  let copy := layout in
  let sorted := Array_sort (if xAxis then sortByColId else sortByRowId) copy in
  Array_some (overlapsNext xAxis) sorted.

(** *** Arrays by reference

    [sort] works in place, so what [hasOverlap] does to the array it is
    given depends on [slice] making a new array.  Here an array is a
    place in a heap of arrays, and a reference to it is its index. *)

Definition Heap : Type := list (list Item.t).

(** [arr.slice()]: a new array with the elements of [arr]. *)
Definition Array_slice_ref (arr : nat) (h : Heap) : option (nat * Heap) :=
  elems ← h !! arr;
  Some (length h, h ++ [elems]).

(** [arr.sort(cmp)]: sorts [arr] in place and returns [arr] itself. *)
Definition Array_sort_ref (cmp : Item.t → Item.t → Z) (arr : nat) (h : Heap)
    : option (nat * Heap) :=
  elems ← h !! arr;
  Some (arr, <[arr := Array_sort cmp elems]> h).

(** [arr.some(f)] *)
Definition Array_some_ref (f : Item.t → Z → list Item.t → bool) (arr : nat)
    (h : Heap) : option bool :=
  elems ← h !! arr;
  Some (Array_some f elems).

(** [hasOverlap(layout, xAxis)] on a reference to the array [layout]:
    the result and the heap after the call. *)
Definition hasOverlap_ref (layout : nat) (xAxis : bool) (h : Heap)
    : option (bool * Heap) :=
  '(copy, h1) ← Array_slice_ref layout h;
  '(sorted, h2) ←
    Array_sort_ref (if xAxis then sortByColId else sortByRowId) copy h1;
  b ← Array_some_ref (overlapsNext xAxis) sorted h2;
  Some (b, h2).

(** The callback given to [every] in both divider scans, with the two
    arrays it fills: an item that ends at or before the line goes to
    [lower], one that starts at or after it goes to [upper], and the first
    item across the line stops the iteration with [false]. *)
Fixpoint every_side (near far : Item.t → Z) (line : Z)
    (items lower upper : list Item.t) : bool * list Item.t * list Item.t :=
  match items with
  | [] => (true, lower, upper)
  | item :: rest =>
      if far item <=? line then
        every_side near far line rest (lower ++ [item]) upper
      else if near item >=? line then
        every_side near far line rest lower (upper ++ [item])
      else (false, lower, upper)
  end.

(** The far ends of an item, [row + size_y] and [col + size_x]: safe
    integers, and so the sums of the source, for the items of a
    [safe_layout]. *)
Definition rowFar (item : Item.t) : Z := Item.row item + Item.size_y item.

Definition colFar (item : Item.t) : Z := Item.col item + Item.size_x item.

(** The loop that finds the row dividers.  [fuel] bounds the number of
    iterations; [rowDividers] below gives it the number of lines left.
    The line goes up by one at each turn, which is what [currentRow++]
    does as long as the line is below 2^53; the boundary of items within
    the safe integers keeps it there. *)
Fixpoint rowDividers_loop (fuel : nat) (bottom currentRow : Z)
    (currentItems : list Item.t) (layers : list (list Item.t))
    : list (list Item.t) :=
  match fuel with
  | O => layers
  | S fuel' =>
      if bool_decide (currentItems ≠ []) && (currentRow <=? bottom) then
        let '(isRowDivider, lower, upper) :=
          every_side Item.row rowFar currentRow currentItems [] [] in
        if isRowDivider then
          rowDividers_loop fuel' bottom (currentRow + 1) upper
            (layers ++ [lower])
        else
          rowDividers_loop fuel' bottom (currentRow + 1) currentItems layers
      else layers
  end.

Definition rowDividers (bottom currentRow : Z)
    (currentItems : list Item.t) (layers : list (list Item.t))
    : list (list Item.t) :=
  rowDividers_loop (Z.to_nat (bottom - currentRow + 1)) bottom currentRow
    currentItems layers.

(** ** The state and the monad *)

Inductive Error :=
| TypeError.

Inductive Result (A : Type) :=
| Ok (a : A)
| Throw (e : Error).

Arguments Ok {A} a.

Arguments Throw {A} e.

Record State := mkState {
  componentId : N;
  root : gmap string Node.t;
}.

Definition M (A : Type) : Type := State → Result (A * State).

Global Instance M_ret : MRet M := λ A a s, Ok (a, s).

Global Instance M_bind : MBind M := λ A B f m s,
  match m s with
  | Ok (a, s') => f a s'
  | Throw e => Throw e
  end.

(** [const generateId = function() { let componentId = 1; return () =>
    (componentId++); }()] *)
Definition generateId : M N := λ s,
  Ok (componentId s, mkState (componentId s + 1) (root s)).

Definition getRowContainer : M Node.t :=
  n ← generateId;
  mret (Node.mk "v2" DASHBOARD_ROW_TYPE ("DASHBOARD_ROW_TYPE-" +:+ pretty n) []
          (Some (Meta.mk (Some "ROW_TRANSPARENT") None None None None None))).

Definition getColContainer : M Node.t :=
  n ← generateId;
  mret (Node.mk "v2" DASHBOARD_COLUMN_TYPE
          ("DASHBOARD_COLUMN_TYPE-" +:+ pretty n) [] (Some Meta.empty)).

(** [getChartHolder(item)].  [Math.floor(size_x / 4.0)] is the quotient
    of [Z], which rounds down, and [size_y * 2] is exact, for sizes
    within the safe integers. *)
Definition getChartHolder (item : Item.t) : M Node.t :=
  n ← generateId;
  mret (Node.mk "v2" DASHBOARD_CHART_TYPE
          ("DASHBOARD_CHART_TYPE-" +:+ pretty n) []
          (Some (Meta.mk None
                   (Some (Num (Z.max 1 (Item.size_x item / 4))))
                   (Some (Item.size_y item * 2))
                   (Some ("slice_" +:+ Item.slice_id item))
                   (Some (Item.row item))
                   (Some (Item.col item))))).

(** [root[node.id] = node] *)
Definition register (node : Node.t) : M unit := λ s,
  Ok ((), mkState (componentId s) (<[Node.id node := node]> (root s))).

(** [parent.children.push(child)], the parent given by its key. *)
Definition push_child (parent child : string) : M unit := λ s,
  Ok ((), mkState (componentId s) (alter (Node.push child) parent (root s))).

(** [node.children], read through the key of the node. *)
Definition get_children (node : string) : M (list string) := λ s,
  Ok (default [] (Node.children <$> root s !! node), s).

(** [root[child].meta.width]: reading [meta] of a missing node, or [width]
    of a missing [meta], throws. *)
Definition child_width (child : string) : M JSNumber := λ s,
  match root s !! child with
  | None => Throw TypeError
  | Some n =>
      match Node.meta n with
      | None => Throw TypeError
      | Some m => Ok (toNumber (Meta.width m), s)
      end
  end.

(** [node.meta.width = w] *)
Definition set_meta_width (node : string) (w : JSNumber) : M unit := λ s,
  Ok ((), mkState (componentId s) (alter (Node.set_width w) node (root s))).

Fixpoint forEach {A} (f : A → M unit) (l : list A) : M unit :=
  match l with
  | [] => mret ()
  | x :: l' => _ ← f x; forEach f l'
  end.

(** [arr.map(f)] with a callback that reads the state. *)
Fixpoint Array_mapM {A B} (f : A → M B) (l : list A) : M (list B) :=
  match l with
  | [] => mret []
  | x :: l' => y ← f x; ys ← Array_mapM f l'; mret (y :: ys)
  end.

(** [arr.reduce(f, init)] with a callback that reads the state. *)
Fixpoint Array_reduceM {A B} (f : B → A → M B) (l : list A) (init : B) : M B :=
  match l with
  | [] => mret init
  | x :: l' => acc ← f init x; Array_reduceM f l' acc
  end.

(** ** The converter *)

(** The three statements that create a chart holder for [item], store it
    in the registry and append it to [parent]; the source writes them out
    at each of its three uses. *)
Definition addChart (parent : string) (item : Item.t) : M unit :=
  chartHolder ← getChartHolder item;
  _ ← register chartHolder;
  push_child parent (Node.id chartHolder).

(** [colContainer.meta.width = Math.max.apply(null,
    colContainer.children.map(child => root[child].meta.width))] *)
Definition setColWidth (colContainer : string) : M unit :=
  children ← get_children colContainer;
  widths ← Array_mapM child_width children;
  set_meta_width colContainer (Math_max widths).

(** [rowContainer.meta.width = rowContainer.children.reduce(
    (preValue, child) => preValue + root[child].meta.width, 0)] *)
Definition setRowWidth (rowContainer : string) : M unit :=
  children ← get_children rowContainer;
  w ← Array_reduceM
        (fun preValue child => cw ← child_width child; mret (JSadd preValue cw))
        children (Num 0);
  set_meta_width rowContainer w.

Section body.

(** The function called at the recursive call. *)
Variable self : list Item.t → Z → string → M unit.

(** The loop that finds the column dividers of one layer and fills the
    row container as it goes; it counts its lines as the loop of the
    row dividers does. *)
Fixpoint colDividers_loop (fuel : nat) (level right currentCol : Z)
    (currentItems : list Item.t) (rowContainer : string) : M unit :=
  match fuel with
  | O => mret ()
  | S fuel' =>
      if bool_decide (currentItems ≠ []) && (currentCol <=? right) then
        let '(isColDivider, lower, upper) :=
          every_side Item.col colFar currentCol currentItems [] [] in
        if isColDivider then
          colContainer ← getColContainer;
          _ ← register colContainer;
          _ ← push_child rowContainer (Node.id colContainer);
          _ ← (if negb (hasOverlap lower false) then
                 forEach (addChart (Node.id colContainer))
                   (Array_sort sortByRowId lower)
               else self lower (level + 2) (Node.id colContainer));
          _ ← setColWidth (Node.id colContainer);
          colDividers_loop fuel' level right (currentCol + 1) upper
            rowContainer
        else
          colDividers_loop fuel' level right (currentCol + 1) currentItems
            rowContainer
      else mret ()
  end.

Definition colDividers (level right currentCol : Z)
    (currentItems : list Item.t) (rowContainer : string) : M unit :=
  colDividers_loop (Z.to_nat (right - currentCol + 1)) level right
    currentCol currentItems rowContainer.

(** The body of the callback of [layers.forEach]. *)
Definition convertLayer (level : Z) (b : Boundary.t) (parent : string)
    (layer : list Item.t) : M unit :=
  rowContainer ← getRowContainer;
  _ ← register rowContainer;
  _ ← push_child parent (Node.id rowContainer);
  _ ← (if (level >=? 2) || negb (hasOverlap layer true) then
         forEach (addChart (Node.id rowContainer))
           (Array_sort sortByColId layer)
       else
         colDividers level (Boundary.right b) (Boundary.left b + 1) layer
           (Node.id rowContainer));
  setRowWidth (Node.id rowContainer).

Definition doConvert_body (layout : list Item.t) (level : Z)
    (parent : string) : M unit :=
  match layout with
  | [] => mret ()
  | [item] => addChart parent item
  | _ =>
      let b := getBoundary layout in
      let layers :=
        rowDividers (Boundary.bottom b) (Boundary.top b + 1) layout [] in
      forEach (convertLayer level b parent) layers
  end.

End body.

(** The recursive call is made only while [level < 2], with [level + 2]:
    [2 - level] bounds the depth of the recursion. *)
Fixpoint doConvert_depth (depth : nat)
    : list Item.t → Z → string → M unit :=
  match depth with
  | O => fun _ _ _ => mret ()
  | S depth' => doConvert_body (doConvert_depth depth')
  end.

Definition doConvert (layout : list Item.t) (level : Z) (parent : string)
    : M unit :=
  doConvert_depth (S (Z.to_nat (2 - level))) layout level parent.

Definition DASHBOARD_ROOT_ID : string := "DASHBOARD_ROOT_ID".

(** The root node of [convert], with its children. *)
Definition root_node (children : list string) : Node.t :=
  Node.mk "v2" DASHBOARD_GRID_ROOT_TYPE DASHBOARD_ROOT_ID children None.

(** [convert], with the layout (the constant [dash6] in the source) and
    the value of the id counter at the call as arguments; it gives the
    registry that the source prints, and the counter after the call. *)
Definition convert (dash : list Item.t) (counter : N)
    : Result (gmap string Node.t * N) :=
  let root_ := root_node [] in
  let result : gmap string Node.t := <[DASHBOARD_ROOT_ID := root_]> ∅ in
  match
    doConvert dash 0 (Node.id root_) (mkState counter result)
  with
  | Ok (_, s) => Ok (root s, componentId s)
  | Throw e => Throw e
  end.

(** ** The tree that a conversion describes

    The nodes that one call of [doConvert] appends to its parent, without
    their ids: a chart holder for an item, a row or a column with the
    trees below it. *)

Local Unset Elimination Schemes.

Inductive Tree :=
| TChart (item : Item.t)
| TRow (ts : list Tree)
| TCol (ts : list Tree).

Local Set Elimination Schemes.

(** Structural induction that reaches the trees inside the lists. *)
Fixpoint Tree_forest_ind (P : Tree → Prop)
    (Hchart : ∀ item, P (TChart item))
    (Hrow : ∀ ts, Forall P ts → P (TRow ts))
    (Hcol : ∀ ts, Forall P ts → P (TCol ts))
    (t : Tree) : P t :=
  match t with
  | TChart item => Hchart item
  | TRow ts =>
      Hrow ts
        ((fix go (ts : list Tree) : Forall P ts :=
            match ts with
            | [] => List.Forall_nil P
            | t' :: ts' =>
                @List.Forall_cons _ P t' ts'
                  (Tree_forest_ind P Hchart Hrow Hcol t') (go ts')
            end) ts)
  | TCol ts =>
      Hcol ts
        ((fix go (ts : list Tree) : Forall P ts :=
            match ts with
            | [] => List.Forall_nil P
            | t' :: ts' =>
                @List.Forall_cons _ P t' ts'
                  (Tree_forest_ind P Hchart Hrow Hcol t') (go ts')
            end) ts)
  end.

(** Writing a tree into the registry under [parent], in the order in which
    the converter creates, stores, links, fills and sizes a node. *)
Fixpoint install (t : Tree) (parent : string) : M unit :=
  match t with
  | TChart item => addChart parent item
  | TRow ts =>
      rowContainer ← getRowContainer;
      _ ← register rowContainer;
      _ ← push_child parent (Node.id rowContainer);
      _ ← forEach (fun t' => install t' (Node.id rowContainer)) ts;
      setRowWidth (Node.id rowContainer)
  | TCol ts =>
      colContainer ← getColContainer;
      _ ← register colContainer;
      _ ← push_child parent (Node.id colContainer);
      _ ← forEach (fun t' => install t' (Node.id colContainer)) ts;
      setColWidth (Node.id colContainer)
  end.

Definition install_forest (ts : list Tree) (parent : string) : M unit :=
  forEach (fun t => install t parent) ts.

Section build.

Variable self : list Item.t → Z → list Tree.

(** The columns that [colDividers_loop] creates, in order. *)
Fixpoint colTrees_loop (fuel : nat) (level right currentCol : Z)
    (currentItems : list Item.t) : list Tree :=
  match fuel with
  | O => []
  | S fuel' =>
      if bool_decide (currentItems ≠ []) && (currentCol <=? right) then
        let '(isColDivider, lower, upper) :=
          every_side Item.col colFar currentCol currentItems [] [] in
        if isColDivider then
          TCol (if negb (hasOverlap lower false) then
                  TChart <$> Array_sort sortByRowId lower
                else self lower (level + 2))
          :: colTrees_loop fuel' level right (currentCol + 1) upper
        else colTrees_loop fuel' level right (currentCol + 1) currentItems
      else []
  end.

Definition colTrees (level right currentCol : Z)
    (currentItems : list Item.t) : list Tree :=
  colTrees_loop (Z.to_nat (right - currentCol + 1)) level right currentCol
    currentItems.

(** The row that [convertLayer] creates. *)
Definition layerTree (level : Z) (b : Boundary.t) (layer : list Item.t)
    : Tree :=
  TRow (if (level >=? 2) || negb (hasOverlap layer true) then
          TChart <$> Array_sort sortByColId layer
        else colTrees level (Boundary.right b) (Boundary.left b + 1) layer).

Definition build_body (layout : list Item.t) (level : Z) : list Tree :=
  match layout with
  | [] => []
  | [item] => [TChart item]
  | _ =>
      let b := getBoundary layout in
      layerTree level b
        <$> rowDividers (Boundary.bottom b) (Boundary.top b + 1) layout []
  end.

End build.

Fixpoint build_depth (depth : nat) : list Item.t → Z → list Tree :=
  match depth with
  | O => fun _ _ => []
  | S depth' => build_body (build_depth depth')
  end.

(** The forest that [doConvert layout level parent] appends to [parent]. *)
Definition build (layout : list Item.t) (level : Z) : list Tree :=
  build_depth (S (Z.to_nat (2 - level))) layout level.

(** ** Ids *)

Definition type_name (ty : NodeType) : string :=
  match ty with
  | DASHBOARD_GRID_ROOT_TYPE => "DASHBOARD_GRID_ROOT_TYPE"
  | DASHBOARD_ROW_TYPE => "DASHBOARD_ROW_TYPE"
  | DASHBOARD_COLUMN_TYPE => "DASHBOARD_COLUMN_TYPE"
  | DASHBOARD_CHART_TYPE => "DASHBOARD_CHART_TYPE"
  end.

(** The id that a constructor of type [ty] forms from the counter value [n]. *)
Definition genId (ty : NodeType) (n : N) : string :=
  type_name ty +:+ "-" +:+ pretty n.

(** ** The registry entries of a tree *)

Definition tree_type (t : Tree) : NodeType :=
  match t with
  | TChart _ => DASHBOARD_CHART_TYPE
  | TRow _ => DASHBOARD_ROW_TYPE
  | TCol _ => DASHBOARD_COLUMN_TYPE
  end.

(** The id of the root of [t] when the counter is [c] at its creation. *)
Definition tid (c : N) (t : Tree) : string := genId (tree_type t) c.

(** The number of nodes of a tree: the ids that its installation takes. *)
Fixpoint tsize (t : Tree) : N :=
  match t with
  | TChart _ => 1
  | TRow ts | TCol ts => 1 + foldr (fun t' acc => tsize t' + acc) 0 ts
  end%N.

Definition fsize (ts : list Tree) : N :=
  foldr (fun t acc => tsize t + acc)%N 0%N ts.

Definition chartWidth (item : Item.t) : Z := Z.max 1 (Item.size_x item / 4).

(** The width that the converter derives for the root of a tree. *)
Fixpoint twidth (t : Tree) : JSNumber :=
  match t with
  | TChart item => Num (chartWidth item)
  | TRow ts => foldl JSadd (Num 0) (twidth <$> ts)
  | TCol ts => Math_max (twidth <$> ts)
  end.

Fixpoint forest_ids (c : N) (ts : list Tree) : list string :=
  match ts with
  | [] => []
  | t :: ts' => tid c t :: forest_ids (c + tsize t) ts'
  end.

(** The node of the root of [t] once [t] is installed. *)
Definition tnode (c : N) (t : Tree) : Node.t :=
  match t with
  | TChart item =>
      Node.mk "v2" DASHBOARD_CHART_TYPE (tid c t) []
        (Some (Meta.mk None (Some (twidth t))
                 (Some (Item.size_y item * 2))
                 (Some ("slice_" +:+ Item.slice_id item))
                 (Some (Item.row item)) (Some (Item.col item))))
  | TRow ts =>
      Node.mk "v2" DASHBOARD_ROW_TYPE (tid c t) (forest_ids (c + 1) ts)
        (Some (Meta.mk (Some "ROW_TRANSPARENT") (Some (twidth t))
                 None None None None))
  | TCol ts =>
      Node.mk "v2" DASHBOARD_COLUMN_TYPE (tid c t) (forest_ids (c + 1) ts)
        (Some (Meta.mk None (Some (twidth t)) None None None None))
  end.

(** The entries of a tree, root first, then its subtrees from left to
    right: the order in which the ids are drawn. *)
Fixpoint entries (t : Tree) (c : N) : list (string * Node.t) :=
  (tid c t, tnode c t) ::
  match t with
  | TChart _ => []
  | TRow ts | TCol ts =>
      (fix go (ts : list Tree) (c : N) : list (string * Node.t) :=
         match ts with
         | [] => []
         | t' :: ts' => entries t' c ++ go ts' (c + tsize t')%N
         end) ts (c + 1)%N
  end.

Fixpoint forest_entries (ts : list Tree) (c : N) : list (string * Node.t) :=
  match ts with
  | [] => []
  | t :: ts' => entries t c ++ forest_entries ts' (c + tsize t)%N
  end.

Definition subtrees (t : Tree) : list Tree :=
  match t with
  | TChart _ => []
  | TRow ts | TCol ts => ts
  end.

(** A key that the counter has produced at a value in [lo, hi). *)
Definition id_in (lo hi : N) (k : string) : Prop :=
  ∃ ty n, k = genId ty n ∧ (lo ≤ n < hi)%N.

(** ** What an installation does to the registry *)

(** No key of the registry is an id that the counter is still to give. *)
Definition ids_unused (c : N) (reg : gmap string Node.t) : Prop :=
  ∀ ty n, (c ≤ n)%N → reg !! genId ty n = None.

Definition push_all (ids : list string) (n : Node.t) : Node.t :=
  Node.mk (Node.version n) (Node.type n) (Node.id n)
    (Node.children n ++ ids) (Node.meta n).

(** The node stored under [id] has the width [w]. *)
Definition has_width (reg : gmap string Node.t) (id : string) (w : JSNumber)
    : Prop :=
  ∃ n m, reg !! id = Some n ∧ Node.meta n = Some m ∧ Meta.width m = Some w.

Definition install_ok (t : Tree) : Prop :=
  ∀ parent c reg pn,
    ids_unused c reg → reg !! parent = Some pn →
    install t parent (mkState c reg)
    = Ok ((), mkState (c + tsize t)
                (<[parent := Node.push (tid c t) pn]>
                   (list_to_map (entries t c) ∪ reg))).

Definition install_forest_ok (ts : list Tree) : Prop :=
  ∀ parent c reg pn,
    ids_unused c reg → reg !! parent = Some pn →
    install_forest ts parent (mkState c reg)
    = Ok ((), mkState (c + fsize ts)
                (<[parent := push_all (forest_ids c ts) pn]>
                   (list_to_map (forest_entries ts c) ∪ reg))).

(** ** The divider scans *)

(** No item lies across [line]. *)
Definition is_divider (near far : Item.t → Z) (line : Z)
    (items : list Item.t) : Prop :=
  Forall (fun item => far item ≤ line ∨ line ≤ near item) items.

Global Instance is_divider_dec near far line items :
  Decision (is_divider near far line items).
Proof. unfold is_divider. apply _. Defined.

(** ** The boundary *)

Definition run_min (init : Z) (xs : list Z) : Z :=
  foldl (fun acc x => if x <=? acc then x else acc) init xs.

Definition run_max (init : Z) (xs : list Z) : Z :=
  foldl (fun acc x => if acc <=? x then x else acc) init xs.

(** ** Coverage of the forest *)

(** The items of the chart holders of a tree, from left to right. *)
Fixpoint leaves (t : Tree) : list Item.t :=
  match t with
  | TChart item => [item]
  | TRow ts | TCol ts => concat (leaves <$> ts)
  end.

Definition forest_leaves (ts : list Tree) : list Item.t :=
  concat (leaves <$> ts).

Definition positive_size (item : Item.t) : Prop :=
  1 ≤ Item.size_x item ∧ 1 ≤ Item.size_y item.

(** ** The registry of a conversion *)

(** The entries of the registry after the conversion of a forest that
    starts with the counter at [c]. *)
Definition registry_entries (c : N) (ts : list Tree)
    : list (string * Node.t) :=
  (DASHBOARD_ROOT_ID, root_node (forest_ids c ts)) :: forest_entries ts c.

(** Every entry is the root of a subtree, whose entries are all there. *)
Definition subtree_at (es : list (string * Node.t)) (k : string) (n : Node.t)
    : Prop :=
  ∃ t c, k = tid c t ∧ n = tnode c t ∧ ∀ e, e ∈ entries t c → e ∈ es.

(** The child references of a list of entries. *)
Definition child_refs (es : list (string * Node.t)) : list string :=
  concat ((fun e => Node.children e.2) <$> es).

(** ** Valid input *)

(** An item of a valid input: a position that is not negative and sizes
    that are positive; no JavaScript number is above [Number.MAX_VALUE].
    [safe_item] below has the bounds within which the arithmetic on the
    fields is exact. *)
Definition valid_item (item : Item.t) : Prop :=
  0 ≤ Item.row item ≤ Number_MAX_VALUE ∧
  0 ≤ Item.col item ≤ Number_MAX_VALUE ∧
  1 ≤ Item.size_x item ∧ 1 ≤ Item.size_y item.

Definition valid_layout (layout : list Item.t) : Prop :=
  Forall valid_item layout.

Global Instance valid_item_dec item : Decision (valid_item item).
Proof. unfold valid_item. apply _. Defined.

Global Instance valid_layout_dec layout : Decision (valid_layout layout).
Proof. unfold valid_layout. apply _. Defined.

(** ** Layouts within the safe integers *)

(** [Number.MAX_SAFE_INTEGER] *)
Definition Number_MAX_SAFE_INTEGER : Z := 2 ^ 53 - 1.

(** A safe integer: a JavaScript number holds it, and a sum or a
    difference of two numbers that is a safe integer is exact. *)
Definition safe_integer (z : Z) : Prop :=
  - Number_MAX_SAFE_INTEGER ≤ z ≤ Number_MAX_SAFE_INTEGER.

(** The numbers that the converter computes from an item are exact: the
    four fields and the two far ends [row + size_y] and [col + size_x]
    are safe integers, and [row] and [col] are at most 2^52 in absolute
    value, so that the difference that a comparator of [sort] takes
    between two items is at most 2^53 in absolute value.  The lines of
    the two scans, which go from one past the least near end to one past
    the greatest far end, are then at most 2^53 in absolute value too,
    and [x++] is exact up to there. *)
Definition safe_item (item : Item.t) : Prop :=
  - 2 ^ 52 ≤ Item.row item ≤ 2 ^ 52 ∧
  - 2 ^ 52 ≤ Item.col item ≤ 2 ^ 52 ∧
  safe_integer (Item.size_x item) ∧
  safe_integer (Item.size_y item) ∧
  safe_integer (Item.row item + Item.size_y item) ∧
  safe_integer (Item.col item + Item.size_x item).

(** The sum of the widths of the chart holders of all the items: no sum
    of widths that a conversion takes is above it. *)
Definition total_width (layout : list Item.t) : Z :=
  foldr Z.add 0 (chartWidth <$> layout).

(** A layout on which the arithmetic of the converter is exact. *)
Definition safe_layout (layout : list Item.t) : Prop :=
  Forall safe_item layout ∧ safe_integer (total_width layout).

Global Instance safe_integer_dec z : Decision (safe_integer z).
Proof. unfold safe_integer. apply _. Defined.

Global Instance safe_item_dec item : Decision (safe_item item).
Proof. unfold safe_item. apply _. Defined.

Global Instance safe_layout_dec layout : Decision (safe_layout layout).
Proof. unfold safe_layout. apply _. Defined.

(** The layout that the source converts. *)
Definition dash6 : list Item.t :=
  [Item.mk 8 1 16 9 "45"; Item.mk 0 17 16 17 "51"; Item.mk 0 33 16 17 "57";
   Item.mk 4 1 16 4 "293"; Item.mk 0 1 16 4 "294"].

(** ** Leaves of a registry *)

(** The content reference of a node, when the node is a chart holder. *)
Definition leaf_sliceId (n : Node.t) : option string :=
  if decide (Node.type n = DASHBOARD_CHART_TYPE)
  then Node.meta n ≫= Meta.sliceId
  else None.

(** The content references of the chart holders of a registry. *)
Definition leafSliceIds (reg : gmap string Node.t) : list string :=
  omap leaf_sliceId (map_to_list reg).*2.

(** [s] without the prefix [p], when it starts with [p]. *)
Fixpoint strip_prefix (p s : string) : option string :=
  match p, s with
  | EmptyString, _ => Some s
  | String a p', String b s' =>
      if decide (a = b) then strip_prefix p' s' else None
  | String _ _, EmptyString => None
  end.

(** The [slice_id] that a content reference ['slice_' + slice_id] names. *)
Definition sliceId_contentId (sliceId : string) : option string :=
  strip_prefix "slice_" sliceId.

Definition item_sliceId (item : Item.t) : string :=
  "slice_" +:+ Item.slice_id item.

Definition dash_two_rows : list Item.t :=
  [Item.mk 0 1 16 16 "7"; Item.mk 16 1 8 4 "8"; Item.mk 16 9 8 4 "9"].

(** ** Well-formedness of the registry *)

(** How often [x] stands in [l]. *)
Definition occurrences (x : string) (l : list string) : nat :=
  length (filter (fun y => y = x) l).

(** The properties of a well-formed registry. *)
Definition children_registered (reg : gmap string Node.t) : Prop :=
  ∀ id n child,
    reg !! id = Some n → child ∈ Node.children n → is_Some (reg !! child).

Definition single_parent (reg : gmap string Node.t) : Prop :=
  ∀ id,
    is_Some (reg !! id) → id ≠ DASHBOARD_ROOT_ID →
    ∃ pid pn,
      reg !! pid = Some pn ∧ occurrences id (Node.children pn) = 1%nat ∧
      ∀ qid qn, reg !! qid = Some qn → id ∈ Node.children qn → qid = pid.

Definition root_unreferenced (reg : gmap string Node.t) : Prop :=
  ∀ id n, reg !! id = Some n → DASHBOARD_ROOT_ID ∉ Node.children n.

(** Every node is stored under its own id. *)
Definition keys_are_ids (reg : gmap string Node.t) : Prop :=
  ∀ id n, reg !! id = Some n → Node.id n = id.

(** ** Width aggregation *)

(** The sum and the maximum of a list of widths; the maximum of no width
    is [-Infinity], as [Math.max] has it. *)
Definition sum_widths (ws : list JSNumber) : JSNumber :=
  foldr JSadd (Num 0) ws.

Definition max_widths (ws : list JSNumber) : JSNumber :=
  foldr JSmax NegInfinity ws.

Definition node_width (n : Node.t) : option JSNumber :=
  Node.meta n ≫= Meta.width.

(** [w] is the sum of the widths [ws]: the sum of the integers when all
    of them are integers, and [-Infinity] when one of them is [-Infinity]
    and none is [NaN]. *)
Definition is_sum_of (w : JSNumber) (ws : list JSNumber) : Prop :=
  (∃ zs, ws = Num <$> zs ∧ w = Num (foldr Z.add 0 zs))
  ∨ ((NegInfinity ∈ ws) ∧ (NaN ∉ ws) ∧ w = NegInfinity).

(** The order of the numbers: [-Infinity] is below every integer, and
    [NaN] is not compared. *)
Definition JSle (a b : JSNumber) : Prop :=
  match a, b with
  | NegInfinity, NegInfinity | NegInfinity, Num _ => True
  | Num x, Num y => x ≤ y
  | _, _ => False
  end.

(** [w] is the maximum of the widths [ws]: one of them that none of them
    exceeds, and [-Infinity] when there is none. *)
Definition is_max_of (w : JSNumber) (ws : list JSNumber) : Prop :=
  (ws = [] ∧ w = NegInfinity) ∨ ((w ∈ ws) ∧ Forall (fun x => JSle x w) ws).

(** The width of the node is in the relation [agg] with the widths of
    its children, taken in their order. *)
Definition width_aggregates (agg : JSNumber → list JSNumber → Prop)
    (reg : gmap string Node.t) (n : Node.t) : Prop :=
  ∃ w ws, node_width n = Some w ∧
          Forall2 (has_width reg) (Node.children n) ws ∧ agg w ws.

(** ** The boundary of a valid layout *)

Definition is_minimum (m : Z) (xs : list Z) : Prop :=
  m ∈ xs ∧ Forall (fun x => m ≤ x) xs.

Definition is_maximum (m : Z) (xs : list Z) : Prop :=
  m ∈ xs ∧ Forall (fun x => x ≤ m) xs.

(** ** The overlap test *)

(** The coordinate at which an item starts and the one at which it ends
    along the axis. *)
Definition near (xAxis : bool) (item : Item.t) : Z :=
  if xAxis then Item.col item else Item.row item.

Definition far (xAxis : bool) (item : Item.t) : Z :=
  if xAxis then Item.col item + Item.size_x item
  else Item.row item + Item.size_y item.

(** Some item of the list ends after its successor in the list starts. *)
Definition adjacent_overlap (xAxis : bool) (sorted : list Item.t) : Prop :=
  ∃ i item next,
    sorted !! i = Some item ∧ sorted !! S i = Some next ∧
    far xAxis item > near xAxis next.

Definition by_near (xAxis : bool) (a b : Item.t) : Prop :=
  near xAxis a ≤ near xAxis b.

Definition comparator (xAxis : bool) : Item.t → Item.t → Z :=
  if xAxis then sortByColId else sortByRowId.

(** ** Concrete conversions *)

Definition node_height (n : Node.t) : option Z :=
  Node.meta n ≫= Meta.height.

(** [n] is the chart holder of [item], with the given width and height. *)
Definition is_leaf_of (item : Item.t) (w h : Z) (n : Node.t) : Prop :=
  Node.type n = DASHBOARD_CHART_TYPE ∧ Node.children n = [] ∧
  Node.meta n
  = Some (Meta.mk None (Some (Num w)) (Some h) (Some (item_sliceId item))
            (Some (Item.row item)) (Some (Item.col item))).

Definition dash_single : list Item.t := [Item.mk 1 1 16 16 "240"].

(** The single-item case as the specification states it: the Root
    has one child, a Row, whose only child is the chart holder. *)
Definition single_item_under_row (c : N) : Prop :=
  ∃ reg c' row_id row leaf_id leaf,
    convert dash_single c = Ok (reg, c') ∧
    reg !! DASHBOARD_ROOT_ID = Some (root_node [row_id]) ∧
    reg !! row_id = Some row ∧ Node.type row = DASHBOARD_ROW_TYPE ∧
    Node.children row = [leaf_id] ∧
    reg !! leaf_id = Some leaf ∧ node_width leaf = Some (Num 4) ∧
    node_height leaf = Some 32.

(** ** No validation *)



(** ** Three columns *)

Definition three_columns (s1 s2 s3 : string) : list Item.t :=
  [Item.mk 0 1 16 16 s1; Item.mk 0 17 16 16 s2; Item.mk 0 33 16 16 s3].

(** ** The shape of a registry *)

(** A tree of nodes without ids: the type and the [meta] of a node and the
    shapes of its children, in order. *)
Local Unset Elimination Schemes.

Inductive Shape :=
| SNode (type : NodeType) (meta : option Meta.t) (children : list Shape).

Local Set Elimination Schemes.

(** The shape below the key [id], read from the registry; [fuel] bounds
    the depth. *)
Fixpoint shape_of (fuel : nat) (reg : gmap string Node.t) (id : string)
    : option Shape :=
  match fuel with
  | O => None
  | S fuel' =>
      n ← reg !! id;
      children ← mapM (shape_of fuel' reg) (Node.children n);
      Some (SNode (Node.type n) (Node.meta n) children)
  end.

Fixpoint tshape (t : Tree) : Shape :=
  SNode (tree_type t) (Node.meta (tnode 0 t))
    match t with
    | TChart _ => []
    | TRow ts | TCol ts => tshape <$> ts
    end.

(** The registry has the entries [es]. *)
Definition holds (reg : gmap string Node.t) (es : list (string * Node.t))
    : Prop :=
  ∀ k n, (k, n) ∈ es → reg !! k = Some n.

(** ** Empty containers *)

(** The unit row just above [line] is free: some item ends above it, some
    item starts at [line] or below, and no item covers it. *)
Definition row_gap (layout : list Item.t) (line : Z) : Prop :=
  Exists (fun item => rowFar item < line) layout ∧
  Exists (fun item => line ≤ Item.row item) layout ∧
  Forall (fun item => rowFar item < line ∨ line ≤ Item.row item) layout.

Global Instance row_gap_dec layout line : Decision (row_gap layout line).
Proof. unfold row_gap. apply _. Defined.

Definition is_empty_row (n : Node.t) : Prop :=
  Node.type n = DASHBOARD_ROW_TYPE ∧ Node.children n = [] ∧
  node_width n = Some (Num 0).

Definition is_empty_column (n : Node.t) : Prop :=
  Node.type n = DASHBOARD_COLUMN_TYPE ∧ Node.children n = [] ∧
  node_width n = Some NegInfinity.

Definition dash_gap : list Item.t :=
  [Item.mk 0 0 1 1 "1"; Item.mk 2 2 2 1 "2"; Item.mk 2 3 2 1 "3"].

(** ** Further properties of the boundary and of the row scan *)

(** The row layers that [doConvert] computes for a layout. *)
Definition rowLayers (layout : list Item.t) : list (list Item.t) :=
  rowDividers (Boundary.bottom (getBoundary layout))
    (Boundary.top (getBoundary layout) + 1) layout [].

(** Every item of an earlier layer ends at or above the row at which any
    item of a later layer starts. *)
Definition layers_separated (layers : list (list Item.t)) : Prop :=
  ∀ i j l1 l2 a b,
    (i < j)%nat → layers !! i = Some l1 → layers !! j = Some l2 →
    a ∈ l1 → b ∈ l2 → Item.row a + Item.size_y a ≤ Item.row b.

Definition dash_unsized : list Item.t :=
  [Item.mk 3 0 1 0 "1"; Item.mk 3 4 2 0 "2"].

(** ** The overlap test is exact *)

(** The extents of the two items along the axis do not overlap. *)
Definition disjoint_along (xAxis : bool) (a b : Item.t) : Prop :=
  far xAxis a ≤ near xAxis b ∨ far xAxis b ≤ near xAxis a.

(** No two items of the list, taken at two places of it, overlap along
    the axis. *)
Definition pairwise_disjoint (xAxis : bool) (l : list Item.t) : Prop :=
  ForallOrdPairs (disjoint_along xAxis) l.

(** Every item has a positive extent along the axis. *)
Definition positive_along (xAxis : bool) (l : list Item.t) : Prop :=
  Forall (fun item => near xAxis item < far xAxis item) l.

Definition dash_apart : list Item.t :=
  [Item.mk 0 17 16 16 "b"; Item.mk 0 1 16 16 "a"; Item.mk 0 33 4 16 "c"].

(** ** Leaves of any input *)

(** The [meta] that [getChartHolder] gives the chart holder of an item. *)
Definition chart_meta (item : Item.t) : Meta.t :=
  Meta.mk None (Some (Num (Z.max 1 (Item.size_x item / 4))))
    (Some (Item.size_y item * 2)) (Some ("slice_" +:+ Item.slice_id item))
    (Some (Item.row item)) (Some (Item.col item)).

(** The [meta] of a node, when the node is a chart holder. *)
Definition leaf_meta (n : Node.t) : option Meta.t :=
  if decide (Node.type n = DASHBOARD_CHART_TYPE) then Node.meta n else None.

Definition leafMetas (reg : gmap string Node.t) : list Meta.t :=
  omap leaf_meta (map_to_list reg).*2.

(** ** The ids of a conversion *)

(** The keys of the registry, the Root's apart, are the ids made from the
    counter values from [c] up to [c'], one node for each value, with the
    type of the node in the id. *)
Definition ids_allocated (reg : gmap string Node.t) (c c' : N) : Prop :=
  (∀ id n, reg !! id = Some n → id ≠ DASHBOARD_ROOT_ID →
           ∃ k, (c ≤ k < c')%N ∧ id = genId (Node.type n) k) ∧
  (∀ k, (c ≤ k < c')%N → ∃ ty, is_Some (reg !! genId ty k)) ∧
  (∀ k ty1 ty2, is_Some (reg !! genId ty1 k) → is_Some (reg !! genId ty2 k) →
                ty1 = ty2).

(** ** The form of the forest *)

(** A row of chart holders, sorted by column. *)
Definition leaf_row (t : Tree) : Prop :=
  ∃ items, t = TRow (TChart <$> Array_sort sortByColId items).

(** What a recursive call at level 2 or more appends to a column. *)
Definition flat_forest (ts : list Tree) : Prop :=
  ts = [] ∨ (∃ item, ts = [TChart item]) ∨ Forall leaf_row ts.

(** A column: chart holders sorted by row, or a flat forest. *)
Definition column_tree (t : Tree) : Prop :=
  (∃ items, t = TCol (TChart <$> Array_sort sortByRowId items))
  ∨ (∃ ts, t = TCol ts ∧ flat_forest ts).

(** A row of the top level: a row of chart holders, or a row of
    columns. *)
Definition row_tree (t : Tree) : Prop :=
  leaf_row t ∨ (∃ ts, t = TRow ts ∧ Forall column_tree ts).

(** What the top-level call appends to the Root. *)
Definition top_forest (ts : list Tree) : Prop :=
  ts = [] ∨ (∃ item, ts = [TChart item]) ∨ Forall row_tree ts.

(** [P] holds of a tree and of all the trees below it. *)
Fixpoint everywhere (P : Tree → Prop) (t : Tree) : Prop :=
  P t ∧
  match t with
  | TChart _ => True
  | TRow ts | TCol ts => foldr (fun t' acc => everywhere P t' ∧ acc) True ts
  end.

(** ** Nesting *)

Definition all_of_type (ty : NodeType) (ts : list Tree) : Prop :=
  Forall (fun t => tree_type t = ty) ts.

(** The nesting of a tree: what its subtrees are. *)
Definition tree_nested (t : Tree) : Prop :=
  match t with
  | TChart _ => True
  | TRow ts =>
      all_of_type DASHBOARD_CHART_TYPE ts ∨ all_of_type DASHBOARD_COLUMN_TYPE ts
  | TCol ts =>
      all_of_type DASHBOARD_CHART_TYPE ts
      ∨ Forall (fun r => tree_type r = DASHBOARD_ROW_TYPE
                         ∧ all_of_type DASHBOARD_CHART_TYPE (subtrees r)) ts
  end.

(** Every child of [n] is a node of the registry, of type [ty]. *)
Definition children_of_type (reg : gmap string Node.t) (ty : NodeType)
    (n : Node.t) : Prop :=
  Forall (fun ch => ∃ cn, reg !! ch = Some cn ∧ Node.type cn = ty)
    (Node.children n).

(** Every child of [n] is a Row that holds chart holders only. *)
Definition children_leaf_rows (reg : gmap string Node.t) (n : Node.t) : Prop :=
  Forall (fun ch => ∃ cn, reg !! ch = Some cn
                          ∧ Node.type cn = DASHBOARD_ROW_TYPE
                          ∧ children_of_type reg DASHBOARD_CHART_TYPE cn)
    (Node.children n).

(** The nesting of a node: the Root holds Rows, or one chart holder and
    nothing else; a Row holds chart holders, or Columns; a Column holds
    chart holders, or Rows of chart holders; a chart holder holds
    nothing. *)
Definition node_nested (reg : gmap string Node.t) (n : Node.t) : Prop :=
  match Node.type n with
  | DASHBOARD_GRID_ROOT_TYPE =>
      children_of_type reg DASHBOARD_ROW_TYPE n
      ∨ (length (Node.children n) = 1%nat
         ∧ children_of_type reg DASHBOARD_CHART_TYPE n)
  | DASHBOARD_ROW_TYPE =>
      children_of_type reg DASHBOARD_CHART_TYPE n
      ∨ children_of_type reg DASHBOARD_COLUMN_TYPE n
  | DASHBOARD_COLUMN_TYPE =>
      children_of_type reg DASHBOARD_CHART_TYPE n ∨ children_leaf_rows reg n
  | DASHBOARD_CHART_TYPE => Node.children n = []
  end.

(** ** The order of chart holders *)

Definition chart_col (t : Tree) : option Z :=
  match t with
  | TChart item => Some (Item.col item)
  | _ => None
  end.

Definition chart_row (t : Tree) : option Z :=
  match t with
  | TChart item => Some (Item.row item)
  | _ => None
  end.

Definition tree_in_order (t : Tree) : Prop :=
  match t with
  | TChart _ => True
  | TRow ts => Sorted Z.le (omap chart_col ts)
  | TCol ts => Sorted Z.le (omap chart_row ts)
  end.

(** The coordinate [coord] of the child [ch], when it is a chart holder. *)
Definition leaf_coord (coord : Meta.t → option Z)
    (reg : gmap string Node.t) (ch : string) : option Z :=
  n ← reg !! ch; m ← leaf_meta n; coord m.

(** The chart holders of a Row stand by ascending [col], those of a
    Column by ascending [row]. *)
Definition charts_in_order (reg : gmap string Node.t) (n : Node.t) : Prop :=
  match Node.type n with
  | DASHBOARD_ROW_TYPE =>
      Sorted Z.le (omap (leaf_coord Meta.col reg) (Node.children n))
  | DASHBOARD_COLUMN_TYPE =>
      Sorted Z.le (omap (leaf_coord Meta.row reg) (Node.children n))
  | _ => True
  end.

(** ** Where [-Infinity] comes from *)

(** A width that is an integer, [lo] at least. *)
Definition width_from (lo : Z) (w : JSNumber) : Prop :=
  ∃ z, w = Num z ∧ lo ≤ z.

Definition tree_width_form (t : Tree) : Prop :=
  match t with
  | TChart _ => True
  | TCol ts =>
      (ts = [] ∧ twidth t = NegInfinity) ∨ (ts ≠ [] ∧ width_from 0 (twidth t))
  | TRow ts =>
      ((TCol [] ∈ ts) ∧ twidth t = NegInfinity)
      ∨ ((TCol [] ∉ ts) ∧ width_from 0 (twidth t))
  end.

(** A child of [n] is a Column without children. *)
Definition has_empty_column (reg : gmap string Node.t) (n : Node.t) : Prop :=
  Exists (fun ch => ∃ cn, reg !! ch = Some cn
                          ∧ Node.type cn = DASHBOARD_COLUMN_TYPE
                          ∧ Node.children cn = [])
    (Node.children n).

(** The width of a Column is [-Infinity] when it has no children and an
    integer otherwise; the width of a Row is [-Infinity] when one of its
    children is a Column without children and an integer otherwise. *)
Definition width_form (reg : gmap string Node.t) (n : Node.t) : Prop :=
  match Node.type n with
  | DASHBOARD_COLUMN_TYPE =>
      (Node.children n = [] ∧ node_width n = Some NegInfinity)
      ∨ (Node.children n ≠ []
         ∧ ∃ w, node_width n = Some w ∧ width_from 0 w)
  | DASHBOARD_ROW_TYPE =>
      (has_empty_column reg n ∧ node_width n = Some NegInfinity)
      ∨ (¬ has_empty_column reg n
         ∧ ∃ w, node_width n = Some w ∧ width_from 0 w)
  | _ => True
  end.

(** ** Widths stay within the safe integers *)

(** A width that is [-Infinity] or an integer from 0 to [bound]. *)
Definition width_within (bound : Z) (w : JSNumber) : Prop :=
  w = NegInfinity ∨ ∃ z, w = Num z ∧ 0 ≤ z ≤ bound.

(** * Part II: lemmas and theorems *)

(** ** The converter writes the forest of [build] *)

Lemma bind_Ok {A B} (m : M A) (f : A → M B) s a s' :
  m s = Ok (a, s') → (m ≫= f) s = f a s'.
Proof. intros H. unfold mbind, M_bind. by rewrite H. Qed.

Lemma bind_ext {A B} (m m' : M A) (f f' : A → M B) s :
  m s = m' s → (∀ a s', f a s' = f' a s') → (m ≫= f) s = (m' ≫= f') s.
Proof.
  intros Hm Hf. unfold mbind, M_bind. rewrite Hm.
  destruct (m' s) as [[a s']|e]; auto.
Qed.

Lemma forEach_ext {A} (f g : A → M unit) l s :
  (∀ x s', f x s' = g x s') → forEach f l s = forEach g l s.
Proof.
  intros Hfg. revert s. induction l as [|x l IH]; intros s; simpl; [done|].
  apply bind_ext; auto.
Qed.

Lemma forEach_app {A} (f : A → M unit) l1 l2 s :
  forEach f (l1 ++ l2) s = (_ ← forEach f l1; forEach f l2) s.
Proof.
  revert s. induction l1 as [|x l1 IH]; intros s; simpl.
  - done.
  - unfold mbind, M_bind. destruct (f x s) as [[[] s']|e]; [|done].
    apply IH.
Qed.

Lemma forEach_fmap {A B} (g : A → B) (f : B → M unit) l s :
  forEach f (g <$> l) s = forEach (fun x => f (g x)) l s.
Proof.
  revert s. induction l as [|x l IH]; intros s; simpl; [done|].
  apply bind_ext; auto.
Qed.

Lemma bind_assoc {A B C} (m : M A) (f : A → M B) (g : B → M C) s :
  ((m ≫= f) ≫= g) s = (m ≫= (fun a => f a ≫= g)) s.
Proof.
  unfold mbind, M_bind. destruct (m s) as [[a s']|e]; done.
Qed.

Lemma colDividers_loop_install self selfT fuel level right currentCol
    currentItems rowContainer s :
  (∀ l lv p s', self l lv p s' = install_forest (selfT l lv) p s') →
  colDividers_loop self fuel level right currentCol currentItems
    rowContainer s
  = install_forest
      (colTrees_loop selfT fuel level right currentCol currentItems)
      rowContainer s.
Proof.
  intros Hself.
  revert currentCol currentItems s.
  induction fuel as [|fuel IH]; intros currentCol currentItems s; simpl.
  - done.
  - destruct (bool_decide (currentItems ≠ []) && (currentCol <=? right));
      [|done].
    destruct (every_side Item.col colFar currentCol currentItems [] [])
      as [[isColDivider lower] upper].
    destruct isColDivider; [|apply IH].
    unfold install_forest. simpl.
    rewrite bind_assoc.
    apply bind_ext; [done|]. intros colContainer s1.
    rewrite bind_assoc. apply bind_ext; [done|]. intros [] s2.
    rewrite bind_assoc. apply bind_ext; [done|]. intros [] s3.
    rewrite bind_assoc. apply bind_ext.
    { destruct (negb (hasOverlap lower false)).
      - by rewrite forEach_fmap.
      - apply Hself. }
    intros [] s4.
    apply bind_ext; [done|]. intros [] s5. apply IH.
Qed.

Lemma convertLayer_install self selfT level b parent layer s :
  (∀ l lv p s', self l lv p s' = install_forest (selfT l lv) p s') →
  convertLayer self level b parent layer s
  = install (layerTree selfT level b layer) parent s.
Proof.
  intros Hself. unfold convertLayer, layerTree. simpl.
  apply bind_ext; [done|]. intros rowContainer s1.
  apply bind_ext; [done|]. intros [] s2.
  apply bind_ext; [done|]. intros [] s3.
  apply bind_ext; [|done].
  destruct ((level >=? 2) || negb (hasOverlap layer true)).
  - by rewrite forEach_fmap.
  - apply colDividers_loop_install, Hself.
Qed.

Lemma doConvert_body_install self selfT layout level parent s :
  (∀ l lv p s', self l lv p s' = install_forest (selfT l lv) p s') →
  doConvert_body self layout level parent s
  = install_forest (build_body selfT layout level) parent s.
Proof.
  intros Hself. unfold doConvert_body, build_body, install_forest.
  destruct layout as [|item [|item' layout]].
  - done.
  - simpl. unfold mbind at 1, M_bind.
    destruct (addChart parent item s) as [[[] s']|e]; done.
  - rewrite forEach_fmap. apply forEach_ext. intros layer s'.
    by apply convertLayer_install.
Qed.

Lemma doConvert_depth_install depth layout level parent s :
  doConvert_depth depth layout level parent s
  = install_forest (build_depth depth layout level) parent s.
Proof.
  revert layout level parent s.
  induction depth as [|depth IH]; intros layout level parent s; simpl.
  - done.
  - by apply doConvert_body_install.
Qed.

(** [doConvert] is the installation of the forest of [build]. *)
Lemma doConvert_install layout level parent s :
  doConvert layout level parent s
  = install_forest (build layout level) parent s.
Proof. apply doConvert_depth_install. Qed.

(** ** Ids *)

Lemma genId_inj ty ty' n n' : genId ty n = genId ty' n' → ty = ty' ∧ n = n'.
Proof.
  unfold genId.
  destruct ty, ty'; simpl; intros H; try discriminate H;
    (split; [done|]); repeat (injection H as ? H); simplify_eq; 
    by apply (inj pretty).
Qed.

Lemma genId_not_root ty n : genId ty n ≠ DASHBOARD_ROOT_ID.
Proof. unfold genId, DASHBOARD_ROOT_ID. destruct ty; simpl; discriminate. Qed.

(** ** Keys of the entries of a tree *)

Lemma tsize_eq t : tsize t = (1 + fsize (subtrees t))%N.
Proof. by destruct t. Qed.

Lemma entries_eq t c :
  entries t c = (tid c t, tnode c t) :: forest_entries (subtrees t) (c + 1)%N.
Proof.
  destruct t as [item|ts|ts]; simpl; [done|..]; f_equal;
    generalize (c + 1)%N; induction ts as [|t ts IH]; intros c'; simpl;
    by rewrite ?IH.
Qed.

Lemma fsize_cons t ts : fsize (t :: ts) = (tsize t + fsize ts)%N.
Proof. done. Qed.

Lemma fsize_app ts1 ts2 : fsize (ts1 ++ ts2) = (fsize ts1 + fsize ts2)%N.
Proof.
  induction ts1 as [|t ts1 IH]; [done|].
  rewrite <- app_comm_cons, !fsize_cons, IH. lia.
Qed.

Lemma tsize_pos t : (1 ≤ tsize t)%N.
Proof. rewrite tsize_eq. lia. Qed.

Lemma id_in_weaken lo hi lo' hi' k :
  id_in lo hi k → (lo' ≤ lo)%N → (hi ≤ hi')%N → id_in lo' hi' k.
Proof. intros (ty & n & -> & ?) ??. exists ty, n. split; [done|lia]. Qed.

Lemma id_in_disjoint lo hi lo' hi' k :
  id_in lo hi k → id_in lo' hi' k → (hi ≤ lo')%N → False.
Proof.
  intros (ty & n & -> & ?) (ty' & n' & Heq & ?) ?.
  apply genId_inj in Heq as [_ ->]. lia.
Qed.

Lemma forest_entries_keys_from ts :
  Forall (fun t => ∀ c k, k ∈ (entries t c).*1 → id_in c (c + tsize t) k) ts →
  ∀ c k, k ∈ (forest_entries ts c).*1 → id_in c (c + fsize ts) k.
Proof.
  induction 1 as [|t ts Ht _ IH]; intros c k; cbn [forest_entries].
  - by intros ?%elem_of_nil.
  - rewrite fmap_app, elem_of_app, fsize_cons. intros [Hk|Hk].
    + eapply id_in_weaken; [by apply Ht|lia..].
    + eapply id_in_weaken; [by apply IH|lia..].
Qed.

Lemma entries_keys t : ∀ c k, k ∈ (entries t c).*1 → id_in c (c + tsize t) k.
Proof.
  induction t as [item|ts IH|ts IH] using Tree_forest_ind; intros c k;
    rewrite entries_eq, tsize_eq; cbn [subtrees fmap list_fmap fst];
    rewrite elem_of_cons.
  - intros [->|Hk]; [|by apply elem_of_nil in Hk].
    exists DASHBOARD_CHART_TYPE, c. split; [done|]. unfold fsize; simpl. lia.
  - intros [->|Hk].
    { exists DASHBOARD_ROW_TYPE, c. split; [done|lia]. }
    eapply id_in_weaken; [by apply forest_entries_keys_from|lia..].
  - intros [->|Hk].
    { exists DASHBOARD_COLUMN_TYPE, c. split; [done|lia]. }
    eapply id_in_weaken; [by apply forest_entries_keys_from|lia..].
Qed.

Lemma forest_entries_keys ts c k :
  k ∈ (forest_entries ts c).*1 → id_in c (c + fsize ts) k.
Proof.
  apply forest_entries_keys_from, Forall_forall. intros t _. apply entries_keys.
Qed.

Lemma forest_entries_NoDup_from ts :
  Forall (fun t => ∀ c, NoDup (entries t c).*1) ts →
  ∀ c, NoDup (forest_entries ts c).*1.
Proof.
  induction 1 as [|t ts Ht _ IH]; intros c; cbn [forest_entries].
  - constructor.
  - rewrite fmap_app. apply NoDup_app. split; [apply Ht|]. split; [|apply IH].
    intros k Hk Hk'. apply entries_keys in Hk. apply forest_entries_keys in Hk'.
    eapply id_in_disjoint; [exact Hk|exact Hk'|lia].
Qed.

Lemma entries_NoDup t : ∀ c, NoDup (entries t c).*1.
Proof.
  induction t as [item|ts IH|ts IH] using Tree_forest_ind; intros c;
    rewrite entries_eq; cbn [subtrees fmap list_fmap fst]; apply NoDup_cons.
  - split; [apply not_elem_of_nil|constructor].
  - split; [|by apply forest_entries_NoDup_from].
    intros Hk%forest_entries_keys.
    eapply (id_in_disjoint c (c + 1)); [|exact Hk|lia].
    exists DASHBOARD_ROW_TYPE, c. split; [done|lia].
  - split; [|by apply forest_entries_NoDup_from].
    intros Hk%forest_entries_keys.
    eapply (id_in_disjoint c (c + 1)); [|exact Hk|lia].
    exists DASHBOARD_COLUMN_TYPE, c. split; [done|lia].
Qed.

Lemma forest_entries_NoDup ts c : NoDup (forest_entries ts c).*1.
Proof.
  apply forest_entries_NoDup_from, Forall_forall. intros t _. apply entries_NoDup.
Qed.

(** ** What an installation does to the registry *)

Lemma ids_unused_id_in c reg lo hi k :
  ids_unused c reg → id_in lo hi k → (c ≤ lo)%N → reg !! k = None.
Proof. intros Hf (ty & n & -> & ?) ?. apply Hf. lia. Qed.

Lemma child_width_Ok c reg id w :
  has_width reg id w →
  child_width id (mkState c reg) = Ok (w, mkState c reg).
Proof.
  intros (n & m & Hn & Hm & Hw). unfold child_width. simpl.
  by rewrite Hn, Hm, Hw.
Qed.

Lemma Array_reduceM_widths c reg ids ws : ∀ init,
  Forall2 (has_width reg) ids ws →
  Array_reduceM
    (fun preValue child => cw ← child_width child; mret (JSadd preValue cw))
    ids init (mkState c reg)
  = Ok (foldl JSadd init ws, mkState c reg).
Proof.
  intros init H. revert init.
  induction H as [|id w ids ws Hw _ IH]; intros init; [done|].
  cbn [Array_reduceM]. rewrite bind_assoc.
  erewrite bind_Ok by (by apply child_width_Ok).
  erewrite bind_Ok by done. apply IH.
Qed.

Lemma Array_mapM_widths c reg ids ws :
  Forall2 (has_width reg) ids ws →
  Array_mapM child_width ids (mkState c reg) = Ok (ws, mkState c reg).
Proof.
  induction 1 as [|id w ids ws Hw _ IH]; [done|].
  cbn [Array_mapM].
  erewrite bind_Ok by (by apply child_width_Ok).
  by erewrite bind_Ok by exact IH.
Qed.

Lemma tnode_width c t :
  ∃ m, Node.meta (tnode c t) = Some m ∧ Meta.width m = Some (twidth t).
Proof. destruct t; simpl; eauto. Qed.

Lemma entries_head t c : (tid c t, tnode c t) ∈ entries t c.
Proof. rewrite entries_eq. apply list_elem_of_here. Qed.

Lemma forest_roots_width (reg : gmap string Node.t) ts : ∀ c,
  (∀ k v, (k, v) ∈ forest_entries ts c → reg !! k = Some v) →
  Forall2 (has_width reg) (forest_ids c ts) (twidth <$> ts).
Proof.
  induction ts as [|t ts IH]; intros c Hreg; cbn [forest_ids fmap list_fmap].
  - constructor.
  - constructor.
    + destruct (tnode_width c t) as (m & Hm & Hw).
      exists (tnode c t), m. split; [|done].
      apply Hreg. cbn [forest_entries]. apply elem_of_app. left.
      apply entries_head.
    + apply IH. intros k v Hkv. apply Hreg. cbn [forest_entries].
      apply elem_of_app. by right.
Qed.

Lemma lookup_entries_Some (l : list (string * Node.t)) k v :
  NoDup l.*1 → (k, v) ∈ l → (list_to_map l : gmap string Node.t) !! k = Some v.
Proof. intros. by apply elem_of_list_to_map_1. Qed.

Lemma lookup_entries_None (l : list (string * Node.t)) k :
  k ∉ l.*1 → (list_to_map l : gmap string Node.t) !! k = None.
Proof. intros. by apply not_elem_of_list_to_map_1. Qed.

Lemma push_all_nil n : push_all [] n = n.
Proof. destruct n. unfold push_all. simpl. by rewrite app_nil_r. Qed.

Lemma push_all_push id ids n :
  push_all ids (Node.push id n) = push_all (id :: ids) n.
Proof. destruct n. unfold push_all, Node.push. simpl. by rewrite <- app_assoc. Qed.

Lemma install_forest_ok_from ts : Forall install_ok ts → install_forest_ok ts.
Proof.
  induction 1 as [|t ts Ht _ IH]; intros parent c reg pn Hfresh Hp.
  - unfold install_forest. simpl. unfold mret, M_ret. do 2 f_equal.
    unfold fsize. simpl. rewrite N.add_0_r. f_equal.
    rewrite push_all_nil, (left_id_L ∅ (∪)). by rewrite insert_id.
  - unfold install_forest. cbn [forEach].
    unfold mbind at 1, M_bind. rewrite (Ht parent c reg pn Hfresh Hp).
    fold (install_forest ts parent).
    rewrite (IH parent _ _ (Node.push (tid c t) pn)).
    + rewrite fsize_cons, N.add_assoc. do 3 f_equal.
      cbn [forest_ids forest_entries]. rewrite push_all_push, list_to_map_app.
      apply map_eq. intros i. rewrite !lookup_insert.
      case_decide; [done|].
      rewrite !lookup_union, lookup_insert. case_decide; [done|].
      rewrite lookup_union.
      destruct (list_to_map (entries t c) !! i) as [v|] eqn:E1,
        (list_to_map (forest_entries ts (c + tsize t)) !! i) as [v'|] eqn:E2,
        (reg !! i) eqn:E3; try done.
      all: exfalso.
      all: apply elem_of_list_to_map_2, (list_elem_of_fmap_2 fst) in E1.
      all: apply elem_of_list_to_map_2, (list_elem_of_fmap_2 fst) in E2.
      all: apply entries_keys in E1; apply forest_entries_keys in E2.
      all: eapply id_in_disjoint; [exact E1|exact E2|lia].
    + intros ty n Hn. rewrite lookup_insert. case_decide as Heq.
      { subst parent. rewrite Hfresh in Hp; [done|lia]. }
      rewrite lookup_union, Hfresh by (pose proof (tsize_pos t); lia).
      rewrite lookup_entries_None; [done|].
      intros Hk%entries_keys. eapply (id_in_disjoint _ _ n (n + 1)); [exact Hk| |lia].
      exists ty, n. split; [done|lia].
    + by rewrite lookup_insert_eq.
Qed.

Lemma install_container_ok (ty : NodeType) (node0 : string → Node.t)
    (setWidth : string → M unit) (agg : list JSNumber → JSNumber) ts
    parent c reg pn final :
  let rid := genId ty c in
  Node.id (node0 rid) = rid →
  Node.children (node0 rid) = [] →
  (∀ c' reg' ws, 
     Forall2 (has_width reg') (default [] (Node.children <$> reg' !! rid)) ws →
     setWidth rid (mkState c' reg')
     = Ok ((), mkState c' (alter (Node.set_width (agg ws)) rid reg'))) →
  final = Node.set_width (agg (twidth <$> ts))
            (push_all (forest_ids (c + 1) ts) (node0 rid)) →
  install_forest_ok ts →
  ids_unused c reg → reg !! parent = Some pn →
  (_ ← register (node0 rid);
   _ ← push_child parent (Node.id (node0 rid));
   _ ← forEach (fun t' => install t' (Node.id (node0 rid))) ts;
   setWidth (Node.id (node0 rid))) (mkState (c + 1) reg)
  = Ok ((), mkState (c + 1 + fsize ts)
              (<[parent := Node.push rid pn]>
                 (<[rid := final]> 
                    (list_to_map (forest_entries ts (c + 1)) ∪ reg)))).
Proof.
  intros rid Hid Hch Hset -> Hts Hfresh Hp.
  assert (reg !! rid = None) as Hrid by (apply Hfresh; lia).
  assert (parent ≠ rid) as Hne by (intros ->; congruence).
  rewrite Hid.
  erewrite bind_Ok by reflexivity.
  erewrite bind_Ok by reflexivity.
  cbn [componentId root]. rewrite Hid.
  fold (install_forest ts rid).
  erewrite bind_Ok; cycle 1.
  { apply (Hts rid (c + 1)%N _ (node0 rid)).
    - intros ty' n Hn. rewrite lookup_alter_ne, lookup_insert_ne.
      + apply Hfresh. lia.
      + intros [_ ?]%genId_inj. lia.
      + intros ->. rewrite Hfresh in Hp; [done|lia].
    - by rewrite lookup_alter_ne, lookup_insert_eq. }
  erewrite Hset; cycle 1.
  { rewrite lookup_insert_eq. cbn [fmap option_fmap option_map default push_all Node.children].
    rewrite Hch. cbn [app].
    apply forest_roots_width. intros k v Hkv.
    assert (id_in (c + 1) (c + 1 + fsize ts) k) as Hk.
    { apply forest_entries_keys. by apply (list_elem_of_fmap_2 fst) in Hkv. }
    rewrite lookup_insert_ne.
    - apply lookup_union_Some_l, lookup_entries_Some; [|done].
      apply forest_entries_NoDup.
    - intros <-. eapply (id_in_disjoint c (c + 1)); [|exact Hk|lia].
      exists ty, c. split; [done|lia]. }
  do 3 f_equal.
  apply map_eq. intros i.
  rewrite lookup_alter, !lookup_insert.
  destruct (decide (rid = i)) as [<-|Hi].
  - rewrite decide_True, decide_False by done. done.
  - rewrite !lookup_union, lookup_alter. case_decide as Hpi; [|by rewrite lookup_insert_ne].
    subst i. rewrite lookup_insert_ne, Hp by done. simpl.
    rewrite lookup_entries_None; [done|].
    intros Hk%forest_entries_keys.
    rewrite (ids_unused_id_in _ _ _ _ _ Hfresh Hk) in Hp; [done|lia].
Qed.

Lemma setRowWidth_Ok rid c reg ws :
  Forall2 (has_width reg) (default [] (Node.children <$> reg !! rid)) ws →
  setRowWidth rid (mkState c reg)
  = Ok ((), mkState c (alter (Node.set_width (foldl JSadd (Num 0) ws)) rid reg)).
Proof.
  intros Hws. unfold setRowWidth.
  erewrite bind_Ok by reflexivity. cbn [root].
  erewrite bind_Ok by (by apply Array_reduceM_widths).
  done.
Qed.

Lemma setColWidth_Ok cid c reg ws :
  Forall2 (has_width reg) (default [] (Node.children <$> reg !! cid)) ws →
  setColWidth cid (mkState c reg)
  = Ok ((), mkState c (alter (Node.set_width (Math_max ws)) cid reg)).
Proof.
  intros Hws. unfold setColWidth.
  erewrite bind_Ok by reflexivity. cbn [root].
  erewrite bind_Ok by (by apply Array_mapM_widths).
  done.
Qed.

Lemma install_ok_all t : install_ok t.
Proof.
  induction t as [item|ts IH|ts IH] using Tree_forest_ind;
    intros parent c reg pn Hfresh Hp.
  - cbn [install]. unfold addChart.
    erewrite bind_Ok by reflexivity.
    erewrite bind_Ok by reflexivity. unfold push_child. cbn.
    change ("DASHBOARD_CHART_TYPE-" +:+ pretty c)
      with (genId DASHBOARD_CHART_TYPE c).
    change (tid c (TChart item)) with (genId DASHBOARD_CHART_TYPE c).
    assert (reg !! genId DASHBOARD_CHART_TYPE c = None) as Hrid
      by (apply Hfresh; lia).
    assert (parent ≠ genId DASHBOARD_CHART_TYPE c) as Hne
      by (intros ->; congruence).
    do 3 f_equal.
    apply map_eq. intros i. rewrite lookup_alter, !lookup_insert.
    case_decide as Hpi.
    + subst i. rewrite decide_False by done. by rewrite Hp.
    + by rewrite <- insert_union_l, (left_id_L ∅ (∪)), lookup_insert.
  - cbn [install].
    erewrite bind_Ok by reflexivity.
    pose proof (install_container_ok DASHBOARD_ROW_TYPE
      (fun rid => Node.mk "v2" DASHBOARD_ROW_TYPE rid []
         (Some (Meta.mk (Some "ROW_TRANSPARENT") None None None None None)))
      setRowWidth (foldl JSadd (Num 0)) ts parent c reg pn
      (tnode c (TRow ts))) as H.
    cbn zeta in H. cbn [componentId root].
    etrans; [apply H|]; try done.
    + intros. by apply setRowWidth_Ok.
    + by apply install_forest_ok_from.
    + rewrite tsize_eq, N.add_assoc, entries_eq. cbn [subtrees].
      by rewrite list_to_map_cons, <- insert_union_l.
  - cbn [install].
    erewrite bind_Ok by reflexivity.
    pose proof (install_container_ok DASHBOARD_COLUMN_TYPE
      (fun cid => Node.mk "v2" DASHBOARD_COLUMN_TYPE cid [] (Some Meta.empty))
      setColWidth Math_max ts parent c reg pn
      (tnode c (TCol ts))) as H.
    cbn zeta in H. cbn [componentId root].
    etrans; [apply H|]; try done.
    + intros. by apply setColWidth_Ok.
    + by apply install_forest_ok_from.
    + rewrite tsize_eq, N.add_assoc, entries_eq. cbn [subtrees].
      by rewrite list_to_map_cons, <- insert_union_l.
Qed.

(** ** The divider scans *)

Lemma every_side_divider near far line items : ∀ lower upper,
  is_divider near far line items →
  every_side near far line items lower upper
  = (true, lower ++ filter (fun item => far item ≤ line) items,
           upper ++ filter (fun item => ¬ far item ≤ line) items).
Proof.
  induction items as [|item items IH]; intros lower upper Hdiv.
  - by rewrite !filter_nil, !app_nil_r.
  - apply Forall_cons in Hdiv as [Hitem Hdiv]. cbn [every_side].
    destruct (Z.leb_spec (far item) line) as [Hle|Hgt].
    + rewrite IH by done.
      rewrite (filter_cons_True _ item) by done.
      rewrite (filter_cons_False _ item) by (intros Hn; by apply Hn).
      by rewrite <- app_assoc.
    + destruct (Z.geb_spec (near item) line) as [Hge|Hlt]; [|lia].
      rewrite IH by done.
      rewrite (filter_cons_False _ item) by lia.
      rewrite (filter_cons_True _ item) by lia.
      by rewrite <- app_assoc.
Qed.

Lemma every_side_no_divider near far line items : ∀ lower upper,
  ¬ is_divider near far line items →
  (every_side near far line items lower upper).1.1 = false.
Proof.
  induction items as [|item items IH]; intros lower upper Hdiv.
  - destruct Hdiv. constructor.
  - cbn [every_side].
    destruct (Z.leb_spec (far item) line) as [Hle|Hgt].
    + apply IH. intros H. apply Hdiv. constructor; [by left|done].
    + destruct (Z.geb_spec (near item) line) as [Hge|Hlt]; [|done].
      apply IH. intros H. apply Hdiv. constructor; [right; lia|done].
Qed.

(** One turn of a scan, as a function of the decision on the line. *)
Lemma every_side_cases near far line items :
  (is_divider near far line items ∧
   every_side near far line items [] []
   = (true, filter (fun item => far item ≤ line) items,
            filter (fun item => ¬ far item ≤ line) items))
  ∨ (¬ is_divider near far line items ∧
     ∃ lower upper,
       every_side near far line items [] [] = (false, lower, upper)).
Proof.
  destruct (decide (is_divider near far line items)) as [Hdiv|Hdiv].
  - left. split; [done|]. by rewrite every_side_divider.
  - right. split; [done|].
    pose proof (every_side_no_divider near far line items [] [] Hdiv) as H.
    destruct (every_side near far line items [] []) as [[b lower] upper].
    simpl in H. subst b. eauto.
Qed.

Lemma not_divider_far near far line items bound :
  ¬ is_divider near far line items →
  Forall (fun item => far item ≤ bound) items → line < bound.
Proof.
  intros Hdiv Hfar. destruct (decide (line < bound)) as [|Hge]; [done|].
  destruct Hdiv. eapply Forall_impl; [exact Hfar|]. intros item Hi. simpl in Hi. left. lia.
Qed.

Lemma Forall_filter_keep {A} (P Q : A → Prop) `{∀ x, Decision (P x)} l :
  Forall Q l → Forall Q (filter P l).
Proof.
  rewrite !Forall_forall. intros HQ x [_ Hx]%list_elem_of_filter. by apply HQ.
Qed.

Lemma rowDividers_loop_perm fuel bottom : ∀ currentRow currentItems layers,
  Forall (fun item => rowFar item ≤ bottom) currentItems →
  (currentItems ≠ [] → currentRow ≤ bottom) →
  bottom - currentRow + 1 ≤ Z.of_nat fuel →
  concat (rowDividers_loop fuel bottom currentRow currentItems layers)
  ≡ₚ concat layers ++ currentItems.
Proof.
  induction fuel as [|fuel IH]; intros cur items layers Hfar Hcur Hfuel;
    cbn [rowDividers_loop].
  - destruct items as [|item items]; [by rewrite app_nil_r|].
    specialize (Hcur ltac:(done)). lia.
  - destruct (decide (items = [])) as [->|Hne].
    { rewrite bool_decide_eq_false_2 by auto. by rewrite app_nil_r. }
    specialize (Hcur Hne).
    rewrite bool_decide_eq_true_2 by done.
    destruct (Z.leb_spec cur bottom) as [_|?]; [|lia]. cbn [andb].
    destruct (every_side_cases Item.row rowFar cur items)
      as [[Hdiv ->]|[Hdiv (lower & upper & ->)]].
    + rewrite IH.
      * rewrite concat_app. simpl. rewrite app_nil_r, <- app_assoc.
        by rewrite filter_app_complement.
      * by apply Forall_filter_keep.
      * intros Hup. destruct (filter _ items) as [|item up] eqn:E; [done|].
        assert (item ∈ filter (λ item, ¬ rowFar item ≤ cur) items) as Hin
          by (rewrite E; apply list_elem_of_here).
        apply list_elem_of_filter in Hin as [Hn Hin].
        rewrite Forall_forall in Hfar. specialize (Hfar _ Hin). lia.
      * lia.
    + apply IH; [done| |lia]. intros _.
      pose proof (not_divider_far _ _ _ _ _ Hdiv Hfar). lia.
Qed.

Lemma rowDividers_perm bottom currentRow layout :
  Forall (fun item => rowFar item ≤ bottom) layout →
  (layout ≠ [] → currentRow ≤ bottom) →
  concat (rowDividers bottom currentRow layout []) ≡ₚ layout.
Proof.
  intros. unfold rowDividers. rewrite rowDividers_loop_perm; [done..|lia].
Qed.

(** ** The boundary *)

Lemma run_min_spec xs : ∀ init,
  run_min init xs ≤ init ∧ Forall (fun x => run_min init xs ≤ x) xs
  ∧ (run_min init xs = init ∨ run_min init xs ∈ xs).
Proof.
  unfold run_min.
  induction xs as [|x xs IH]; intros init; cbn [foldl].
  - split; [lia|]. split; [constructor|by left].
  - destruct (IH (if x <=? init then x else init)) as (H1 & H2 & H3).
    destruct (Z.leb_spec x init).
    + split; [lia|]. split; [constructor; [lia|done]|].
      right. destruct H3 as [->|H3]; [left|by right].
    + split; [lia|]. split; [constructor; [lia|done]|].
      destruct H3 as [H3|H3]; [by left|right; by right].
Qed.

Lemma run_max_spec xs : ∀ init,
  init ≤ run_max init xs ∧ Forall (fun x => x ≤ run_max init xs) xs
  ∧ (run_max init xs = init ∨ run_max init xs ∈ xs).
Proof.
  unfold run_max.
  induction xs as [|x xs IH]; intros init; cbn [foldl].
  - split; [lia|]. split; [constructor|by left].
  - destruct (IH (if init <=? x then x else init)) as (H1 & H2 & H3).
    destruct (Z.leb_spec init x).
    + split; [lia|]. split; [constructor; [lia|done]|].
      right. destruct H3 as [->|H3]; [left|by right].
    + split; [lia|]. split; [constructor; [lia|done]|].
      destruct H3 as [H3|H3]; [by left|right; by right].
Qed.

Lemma getBoundary_eq layout :
  getBoundary layout
  = Boundary.mk (run_min Number_MAX_VALUE (Item.row <$> layout))
      (run_max 0 (rowFar <$> layout))
      (run_min Number_MAX_VALUE (Item.col <$> layout))
      (run_max 1 (colFar <$> layout)).
Proof.
  unfold getBoundary, run_min, run_max.
  generalize Number_MAX_VALUE at 1 3. generalize Number_MAX_VALUE.
  generalize 0 1.
  induction layout as [|item layout IH]; intros b r l t; [done|].
  cbn [foldl fmap list_fmap]. rewrite IH. done.
Qed.

(** The bounds that the scans rely on; they hold for every layout. *)
Lemma getBoundary_bounds layout :
  let b := getBoundary layout in
  Forall (fun item =>
            Boundary.top b ≤ Item.row item ∧ rowFar item ≤ Boundary.bottom b ∧
            Boundary.left b ≤ Item.col item ∧ colFar item ≤ Boundary.right b)
    layout.
Proof.
  rewrite getBoundary_eq. cbn.
  destruct (run_min_spec (Item.row <$> layout) Number_MAX_VALUE) as (_ & Ht & _).
  destruct (run_min_spec (Item.col <$> layout) Number_MAX_VALUE) as (_ & Hl & _).
  destruct (run_max_spec (rowFar <$> layout) 0) as (_ & Hb & _).
  destruct (run_max_spec (colFar <$> layout) 1) as (_ & Hr & _).
  rewrite Forall_fmap in Ht, Hl, Hb, Hr.
  rewrite Forall_forall in Ht, Hl, Hb, Hr. apply Forall_forall.
  intros item Hin. repeat split; [by apply Ht|by apply Hb|by apply Hl|by apply Hr].
Qed.

(** ** Sorting *)

Lemma sort_insert_perm {A} (cmp : A → A → Z) x l : sort_insert cmp x l ≡ₚ x :: l.
Proof.
  induction l as [|y l IH]; cbn [sort_insert]; [done|].
  destruct (cmp x y >? 0); [|done]. rewrite IH. apply Permutation_swap.
Qed.

Lemma Array_sort_perm {A} (cmp : A → A → Z) l : Array_sort cmp l ≡ₚ l.
Proof.
  unfold Array_sort. induction l as [|x l IH]; cbn [foldr]; [done|].
  by rewrite sort_insert_perm, IH.
Qed.

Lemma forest_leaves_charts items : forest_leaves (TChart <$> items) = items.
Proof.
  unfold forest_leaves. induction items as [|item items IH]; [done|].
  cbn. by f_equal.
Qed.

Lemma forest_leaves_cons t ts :
  forest_leaves (t :: ts) = leaves t ++ forest_leaves ts.
Proof. done. Qed.

Section coverage.

Variable self : list Item.t → Z → list Tree.

Variable level : Z.

Hypothesis self_covers :
  level < 2 →
  ∀ l, Forall positive_size l → forest_leaves (self l (level + 2)) ≡ₚ l.

Lemma colTrees_loop_leaves fuel right : ∀ currentCol currentItems,
  level < 2 →
  Forall positive_size currentItems →
  Forall (fun item => colFar item ≤ right) currentItems →
  (currentItems ≠ [] → currentCol ≤ right) →
  right - currentCol + 1 ≤ Z.of_nat fuel →
  forest_leaves (colTrees_loop self fuel level right currentCol currentItems)
  ≡ₚ currentItems.
Proof.
  intros cur items Hlevel. revert cur items.
  induction fuel as [|fuel IH]; intros cur items Hpos Hfar Hcur Hfuel;
    cbn [colTrees_loop].
  - destruct items as [|item items]; [done|].
    specialize (Hcur ltac:(done)). lia.
  - destruct (decide (items = [])) as [->|Hne].
    { by rewrite bool_decide_eq_false_2 by auto. }
    specialize (Hcur Hne).
    rewrite bool_decide_eq_true_2 by done.
    destruct (Z.leb_spec cur right) as [_|?]; [|lia]. cbn [andb].
    destruct (every_side_cases Item.col colFar cur items)
      as [[Hdiv ->]|[Hdiv (lower & upper & ->)]].
    + rewrite forest_leaves_cons, IH.
      * cbn [leaves]. fold (forest_leaves
          (if negb (hasOverlap (filter (λ item, colFar item ≤ cur) items) false)
           then TChart <$> Array_sort sortByRowId (filter (λ item, colFar item ≤ cur) items)
           else self (filter (λ item, colFar item ≤ cur) items) (level + 2))).
        rewrite <- (filter_app_complement (λ item, colFar item ≤ cur) items) at 5.
        apply Permutation_app; [|done].
        destruct (negb _).
        -- by rewrite forest_leaves_charts, Array_sort_perm.
        -- apply self_covers; [done|]. by apply Forall_filter_keep.
      * by apply Forall_filter_keep.
      * by apply Forall_filter_keep.
      * intros Hup. destruct (filter _ items) as [|item up] eqn:E; [done|].
        assert (item ∈ filter (λ item, ¬ colFar item ≤ cur) items) as Hin
          by (rewrite E; apply list_elem_of_here).
        apply list_elem_of_filter in Hin as [Hn Hin].
        rewrite Forall_forall in Hfar. specialize (Hfar _ Hin). lia.
      * lia.
    + apply IH; [done..| |lia]. intros _.
      pose proof (not_divider_far _ _ _ _ _ Hdiv Hfar). lia.
Qed.

Lemma layerTree_leaves b layer :
  Forall positive_size layer →
  Forall (fun item => colFar item ≤ Boundary.right b) layer →
  (layer ≠ [] → Boundary.left b + 1 ≤ Boundary.right b) →
  leaves (layerTree self level b layer) ≡ₚ layer.
Proof.
  intros Hpos Hfar Hne. unfold layerTree. cbn [leaves].
  match goal with |- concat (leaves <$> ?f) ≡ₚ _ => fold (forest_leaves f) end.
  destruct (Z.geb_spec level 2) as [|Hlevel]; cbn [orb].
  - by rewrite forest_leaves_charts, Array_sort_perm.
  - destruct (negb _).
    + by rewrite forest_leaves_charts, Array_sort_perm.
    + unfold colTrees. apply colTrees_loop_leaves; [done..|lia].
Qed.

Lemma build_body_leaves layout :
  Forall positive_size layout →
  forest_leaves (build_body self layout level) ≡ₚ layout.
Proof.
  intros Hpos. unfold build_body.
  destruct layout as [|item [|item' layout]]; [done..|].
  set (l := item :: item' :: layout) in *.
  pose proof (getBoundary_bounds l) as Hb. cbn zeta in Hb.
  set (b := getBoundary l) in *.
  assert (Boundary.top b + 1 ≤ Boundary.bottom b
          ∧ Boundary.left b + 1 ≤ Boundary.right b) as [Hrow Hcol].
  { apply Forall_cons in Hb as [(? & ? & ? & ?) _].
    apply Forall_cons in Hpos as [[? ?] _]. unfold rowFar, colFar in *. lia. }
  assert (concat (rowDividers (Boundary.bottom b) (Boundary.top b + 1) l [])
          ≡ₚ l) as Hlayers.
  { apply rowDividers_perm; [|done].
    eapply Forall_impl; [exact Hb|]. by intros ? (? & ? & ? & ?). }
  rewrite <- Hlayers at 2.
  assert (Forall (fun layer =>
                    Forall (λ item, positive_size item
                                    ∧ colFar item ≤ Boundary.right b) layer)
            (rowDividers (Boundary.bottom b) (Boundary.top b + 1) l [])) as Hin.
  { apply Forall_forall. intros layer Hlayer. apply Forall_forall.
    intros it Hit. rewrite Forall_forall in Hb. rewrite Forall_forall in Hpos.
    assert (it ∈ l) as Hl.
    { rewrite <- Hlayers. apply list_elem_of_In, in_concat.
      exists layer. by rewrite <- !list_elem_of_In. }
    split; [by apply Hpos|by apply (Hb it)]. }
  clear Hlayers.
  induction Hin as [|layer layers Hlayer _ IH]; [done|].
  cbn [fmap list_fmap concat]. rewrite forest_leaves_cons.
  apply Permutation_app; [|apply IH].
  apply layerTree_leaves; [| |done].
  - eapply Forall_impl; [exact Hlayer|]. by intros ? [? ?].
  - eapply Forall_impl; [exact Hlayer|]. by intros ? [? ?].
Qed.

End coverage.

(** ** The registry of a conversion *)


Lemma build_depth_leaves depth : ∀ layout level,
  (Z.to_nat (2 - level) < depth)%nat →
  Forall positive_size layout →
  forest_leaves (build_depth depth layout level) ≡ₚ layout.
Proof.
  induction depth as [|depth IH]; intros layout level Hd Hpos; [lia|].
  cbn [build_depth]. apply build_body_leaves; [|done].
  intros Hlevel l Hl. apply IH; [lia|done].
Qed.

Lemma build_leaves layout level :
  Forall positive_size layout → forest_leaves (build layout level) ≡ₚ layout.
Proof. intros. apply build_depth_leaves; [lia|done]. Qed.

Lemma install_forest_Ok ts : install_forest_ok ts.
Proof.
  apply install_forest_ok_from, Forall_forall. intros t _. apply install_ok_all.
Qed.

Lemma forest_entries_not_root ts c : DASHBOARD_ROOT_ID ∉ (forest_entries ts c).*1.
Proof.
  intros (ty & n & Heq & _)%forest_entries_keys.
  symmetry in Heq. by apply genId_not_root in Heq.
Qed.

Lemma registry_entries_NoDup c ts : NoDup (registry_entries c ts).*1.
Proof.
  unfold registry_entries. cbn [fmap list_fmap fst]. apply NoDup_cons.
  split; [apply forest_entries_not_root|apply forest_entries_NoDup].
Qed.

Lemma convert_eq dash c :
  convert dash c
  = Ok (list_to_map (registry_entries c (build dash 0)),
        (c + fsize (build dash 0))%N).
Proof.
  unfold convert. rewrite doConvert_install.
  rewrite (install_forest_Ok (build dash 0) DASHBOARD_ROOT_ID c _ (root_node [])).
  - cbn [root componentId]. do 2 f_equal.
    unfold registry_entries. rewrite list_to_map_cons.
    apply map_eq. intros i. rewrite !lookup_insert.
    case_decide; [done|].
    rewrite lookup_union, lookup_insert, decide_False, lookup_empty by done.
    by destruct (list_to_map _ !! i).
  - intros ty n _. rewrite lookup_insert_ne, lookup_empty; [done|].
    intros Heq. symmetry in Heq. by apply genId_not_root in Heq.
  - by rewrite lookup_insert_eq.
Qed.

Lemma lookup_registry c ts k n :
  (list_to_map (registry_entries c ts) : gmap string Node.t) !! k = Some n
  ↔ (k, n) ∈ registry_entries c ts.
Proof. symmetry. apply elem_of_list_to_map, registry_entries_NoDup. Qed.

Lemma forest_entries_subtree_from ts :
  Forall (fun t => ∀ c k n, (k, n) ∈ entries t c → subtree_at (entries t c) k n)
    ts →
  ∀ c k n, (k, n) ∈ forest_entries ts c → subtree_at (forest_entries ts c) k n.
Proof.
  induction 1 as [|t ts Ht _ IH]; intros c k n; cbn [forest_entries].
  - by intros ?%elem_of_nil.
  - intros [Hin|Hin]%elem_of_app.
    + destruct (Ht _ _ _ Hin) as (t' & c' & -> & -> & Hsub).
      exists t', c'. split; [done|]. split; [done|].
      intros e He. apply elem_of_app. left. by apply Hsub.
    + destruct (IH _ _ _ Hin) as (t' & c' & -> & -> & Hsub).
      exists t', c'. split; [done|]. split; [done|].
      intros e He. apply elem_of_app. right. by apply Hsub.
Qed.

Lemma entries_subtree t :
  ∀ c k n, (k, n) ∈ entries t c → subtree_at (entries t c) k n.
Proof.
  induction t as [item|ts IH|ts IH] using Tree_forest_ind; intros c k n;
    rewrite entries_eq; cbn [subtrees].
  - intros [[= -> ->]|Hin%elem_of_nil]%elem_of_cons; [|done].
    exists (TChart item), c. rewrite entries_eq. by cbn [subtrees].
  - intros [[= -> ->]|Hin]%elem_of_cons.
    { exists (TRow ts), c. rewrite entries_eq. by cbn [subtrees]. }
    destruct (forest_entries_subtree_from ts IH _ _ _ Hin)
      as (t' & c' & -> & -> & Hsub).
    exists t', c'. split; [done|]. split; [done|].
    intros e He. apply elem_of_cons. right. by apply Hsub.
  - intros [[= -> ->]|Hin]%elem_of_cons.
    { exists (TCol ts), c. rewrite entries_eq. by cbn [subtrees]. }
    destruct (forest_entries_subtree_from ts IH _ _ _ Hin)
      as (t' & c' & -> & -> & Hsub).
    exists t', c'. split; [done|]. split; [done|].
    intros e He. apply elem_of_cons. right. by apply Hsub.
Qed.

Lemma forest_entries_subtree ts c k n :
  (k, n) ∈ forest_entries ts c → subtree_at (forest_entries ts c) k n.
Proof.
  apply forest_entries_subtree_from, Forall_forall. intros t _.
  apply entries_subtree.
Qed.

(** A tree of the forest has its entries among those of the forest. *)
Lemma forest_entries_elem ts : ∀ c t,
  t ∈ ts → ∃ c', ∀ e, e ∈ entries t c' → e ∈ forest_entries ts c.
Proof.
  induction ts as [|t0 ts IH]; intros c t; [by intros ?%elem_of_nil|].
  cbn [forest_entries]. intros [->|Hin]%elem_of_cons.
  - exists c. intros e He. apply elem_of_app. by left.
  - destruct (IH (c + tsize t0)%N t Hin) as (c' & Hc').
    exists c'. intros e He. apply elem_of_app. right. by apply Hc'.
Qed.

Lemma child_refs_app es1 es2 :
  child_refs (es1 ++ es2) = child_refs es1 ++ child_refs es2.
Proof. unfold child_refs. by rewrite fmap_app, concat_app. Qed.

Lemma tnode_children c t :
  Node.children (tnode c t) = forest_ids (c + 1) (subtrees t).
Proof. by destruct t. Qed.

Lemma forest_child_refs_from ts :
  Forall (fun t => ∀ c, child_refs (entries t c)
                        ≡ₚ (forest_entries (subtrees t) (c + 1)).*1) ts →
  ∀ c, forest_ids c ts ++ child_refs (forest_entries ts c)
       ≡ₚ (forest_entries ts c).*1.
Proof.
  induction 1 as [|t ts Ht _ IH]; intros c; cbn [forest_entries forest_ids].
  - done.
  - rewrite child_refs_app, fmap_app, Ht. rewrite (entries_eq t).
    cbn [fmap list_fmap fst app]. constructor.
    rewrite <- IH.
    rewrite !app_assoc. apply Permutation_app; [|done].
    apply Permutation_app_comm.
Qed.

Lemma entries_child_refs t :
  ∀ c, child_refs (entries t c) ≡ₚ (forest_entries (subtrees t) (c + 1)).*1.
Proof.
  induction t as [item|ts IH|ts IH] using Tree_forest_ind; intros c;
    rewrite entries_eq; cbn [subtrees]; [done|..];
    unfold child_refs at 1; cbn [fmap list_fmap concat snd];
    rewrite tnode_children; cbn [subtrees];
    by apply forest_child_refs_from.
Qed.

(** All child references of the registry: every key but the root's, once. *)
Lemma registry_child_refs c ts :
  child_refs (registry_entries c ts) ≡ₚ (forest_entries ts c).*1.
Proof.
  unfold registry_entries, child_refs. cbn [fmap list_fmap concat snd root_node Node.children].
  apply forest_child_refs_from, Forall_forall. intros t _.
  apply entries_child_refs.
Qed.

(** ** Coverage *)

Lemma valid_layout_positive layout :
  valid_layout layout → Forall positive_size layout.
Proof.
  intros H. eapply Forall_impl; [exact H|].
  intros item (_ & _ & ? & ?). by split.
Qed.

Lemma sliceId_contentId_item item :
  sliceId_contentId (item_sliceId item) = Some (Item.slice_id item).
Proof. done. Qed.

Lemma forest_leaf_sliceIds_from ts :
  Forall (fun t => ∀ c, omap leaf_sliceId (entries t c).*2
                        = item_sliceId <$> leaves t) ts →
  ∀ c, omap leaf_sliceId (forest_entries ts c).*2
       = item_sliceId <$> forest_leaves ts.
Proof.
  induction 1 as [|t ts Ht _ IH]; intros c; cbn [forest_entries]; [done|].
  rewrite forest_leaves_cons, !fmap_app, omap_app, Ht, IH. done.
Qed.

Lemma entries_leaf_sliceIds t :
  ∀ c, omap leaf_sliceId (entries t c).*2 = item_sliceId <$> leaves t.
Proof.
  induction t as [item|ts IH|ts IH] using Tree_forest_ind; intros c;
    rewrite entries_eq; cbn [subtrees]; [done|..];
    cbn [fmap list_fmap snd omap list_omap leaves];
    by apply forest_leaf_sliceIds_from.
Qed.

Lemma registry_leaf_sliceIds c ts :
  leafSliceIds (list_to_map (registry_entries c ts))
  ≡ₚ item_sliceId <$> forest_leaves ts.
Proof.
  unfold leafSliceIds.
  rewrite map_to_list_to_map by apply registry_entries_NoDup.
  unfold registry_entries. cbn [fmap list_fmap snd omap list_omap].
  rewrite forest_leaf_sliceIds_from; [done|].
  apply Forall_forall. intros t _. apply entries_leaf_sliceIds.
Qed.

(** C1. Coverage: the conversion of a valid input within the safe
    integers returns a registry, and the content references ([sliceId])
    of its chart holders are, as a multiset, those of the input items,
    ['slice_' + slice_id] for each item: no item is lost and none is
    duplicated.  The [slice_id]s that the references name are then the
    [slice_id]s of the input, each as often as the input has it. *)
Theorem convert_coverage (layout : list Item.t) (c : N) :
  valid_layout layout → safe_layout layout →
  ∃ reg c',
    convert layout c = Ok (reg, c') ∧
    leafSliceIds reg ≡ₚ item_sliceId <$> layout ∧
    omap sliceId_contentId (leafSliceIds reg) ≡ₚ Item.slice_id <$> layout.
Proof.
  intros Hvalid _. eexists _, _. split; [apply convert_eq|].
  assert (leafSliceIds (list_to_map (registry_entries c (build layout 0)))
          ≡ₚ item_sliceId <$> layout) as Hleaves.
  { rewrite registry_leaf_sliceIds.
    by rewrite build_leaves by by apply valid_layout_positive. }
  split; [done|]. rewrite Hleaves.
  clear. induction layout as [|item layout IH]; [done|].
  cbn [fmap list_fmap omap list_omap]. rewrite sliceId_contentId_item.
  by constructor.
Qed.

Lemma convert_coverage_witness :
  valid_layout dash6 ∧ safe_layout dash6 ∧
  ∃ reg c',
    convert dash6 1 = Ok (reg, c') ∧
    leafSliceIds reg ≡ₚ item_sliceId <$> dash6 ∧
    omap sliceId_contentId (leafSliceIds reg) ≡ₚ Item.slice_id <$> dash6.
Proof.
  assert (valid_layout dash6) as Hvalid
    by (apply (bool_decide_unpack _); vm_compute; exact I).
  assert (safe_layout dash6) as Hsafe
    by (apply (bool_decide_unpack _); vm_compute; exact I).
  split; [exact Hvalid|]. split; [exact Hsafe|].
  exact (convert_coverage dash6 1 Hvalid Hsafe).
Defined.

(** ** Well-formedness of the registry *)

Lemma occurrences_NoDup x l : NoDup l → x ∈ l → occurrences x l = 1%nat.
Proof.
  unfold occurrences. induction 1 as [|y l Hy Hl IH].
  - by intros ?%elem_of_nil.
  - intros [->|Hx]%elem_of_cons.
    + rewrite filter_cons_True by done. cbn [length]. f_equal.
      destruct (filter (λ z, z = y) l) as [|z l'] eqn:E; [done|].
      assert (z ∈ filter (λ z, z = y) l) as [-> ?]%list_elem_of_filter
        by (rewrite E; apply list_elem_of_here).
      done.
    + rewrite filter_cons_False; [by apply IH|]. by intros ->.
Qed.

Lemma elem_of_concat {A} (x : A) (ls : list (list A)) :
  x ∈ concat ls ↔ ∃ l, l ∈ ls ∧ x ∈ l.
Proof.
  rewrite list_elem_of_In, in_concat. split.
  - intros (l & ? & ?). exists l. by rewrite !list_elem_of_In.
  - intros (l & ? & ?). exists l. by rewrite <- !list_elem_of_In.
Qed.

Lemma NoDup_concat_unique {A B} `{EqDecision B} (f : A → list B) (es : list A)
    a b x :
  NoDup (concat (f <$> es)) → a ∈ es → b ∈ es → x ∈ f a → x ∈ f b → a = b.
Proof.
  induction es as [|e es IH]; [by intros _ ?%elem_of_nil|].
  cbn [fmap list_fmap concat].
  intros (He & Hdisj & Hes)%NoDup_app Ha Hb Hxa Hxb.
  assert (∀ e', e' ∈ es → x ∈ f e' → x ∈ concat (f <$> es)) as Hin.
  { intros e' He' Hx. apply elem_of_concat. exists (f e').
    split; [|done]. by apply list_elem_of_fmap_2. }
  apply elem_of_cons in Ha as [->|Ha]; apply elem_of_cons in Hb as [->|Hb].
  - done.
  - destruct (Hdisj x); eauto.
  - destruct (Hdisj x); eauto.
  - by apply IH.
Qed.

Lemma NoDup_concat_elem {A} (ls : list (list A)) l :
  NoDup (concat ls) → l ∈ ls → NoDup l.
Proof.
  induction ls as [|l' ls IH]; [by intros _ ?%elem_of_nil|].
  cbn [concat]. intros (Hl' & _ & Hls)%NoDup_app [->|Hl]%elem_of_cons; auto.
Qed.

Lemma child_refs_elem es e x :
  e ∈ es → x ∈ Node.children e.2 → x ∈ child_refs es.
Proof.
  intros He Hx. apply elem_of_concat. exists (Node.children e.2).
  split; [|done]. by apply (list_elem_of_fmap_2 (λ e, Node.children e.2)).
Qed.

Lemma registry_subtree c ts k n :
  (k, n) ∈ registry_entries c ts →
  (k = DASHBOARD_ROOT_ID ∧ n = root_node (forest_ids c ts))
  ∨ subtree_at (registry_entries c ts) k n.
Proof.
  intros [[= -> ->]|Hin]%elem_of_cons; [by left|right].
  destruct (forest_entries_subtree _ _ _ _ Hin) as (t & c' & -> & -> & Hsub).
  exists t, c'. split; [done|]. split; [done|].
  intros e He. apply list_elem_of_further. by apply Hsub.
Qed.

Lemma registry_keys_are_ids c ts :
  keys_are_ids (list_to_map (registry_entries c ts)).
Proof.
  intros id n Hn%lookup_registry.
  apply registry_subtree in Hn as [[-> ->]|(t & c' & -> & -> & _)];
    [done|by destruct t].
Qed.

Lemma registry_children_registered c ts :
  children_registered (list_to_map (registry_entries c ts)).
Proof.
  intros id n child Hn%lookup_registry Hchild.
  pose proof (child_refs_elem _ (id, n) child Hn Hchild) as Href.
  rewrite registry_child_refs in Href.
  apply list_elem_of_fmap in Href as ([k v] & -> & Hkv).
  exists v. apply lookup_registry. by apply list_elem_of_further.
Qed.

Lemma registry_root_unreferenced c ts :
  root_unreferenced (list_to_map (registry_entries c ts)).
Proof.
  intros id n Hn%lookup_registry Hchild.
  pose proof (child_refs_elem _ (id, n) _ Hn Hchild) as Href.
  rewrite registry_child_refs in Href.
  by apply forest_entries_not_root in Href.
Qed.

Lemma registry_single_parent c ts :
  single_parent (list_to_map (registry_entries c ts)).
Proof.
  intros id [n Hn%lookup_registry] Hid.
  assert (NoDup (child_refs (registry_entries c ts))) as Hnodup.
  { rewrite registry_child_refs. apply forest_entries_NoDup. }
  assert (id ∈ child_refs (registry_entries c ts)) as Href.
  { rewrite registry_child_refs.
    apply elem_of_cons in Hn as [[= -> ->]|Hn]; [done|].
    by apply (list_elem_of_fmap_2 fst) in Hn. }
  apply elem_of_concat in Href as (l & Hl & Hidl).
  apply list_elem_of_fmap in Hl as ([pid pn] & -> & Hp).
  exists pid, pn. split; [by apply lookup_registry|]. split.
  - apply occurrences_NoDup; [|done].
    apply (NoDup_concat_elem _ _ Hnodup).
    by apply (list_elem_of_fmap_2 (λ e, Node.children e.2)) in Hp.
  - intros qid qn Hq%lookup_registry Hidq.
    by pose proof (NoDup_concat_unique _ _ (qid, qn) (pid, pn) id
                     Hnodup Hq Hp Hidq Hidl) as [= -> ->].
Qed.

(** C2. Tree well-formedness: the conversion of any input within the
    safe integers (so of every valid one there) returns a registry in
    which every id of a [children] list is a key, every key but the
    Root's stands in the [children] list of exactly one node and exactly
    once in it, and the Root's id ['DASHBOARD_ROOT_ID'] stands in no
    [children] list; the key of a node is its id. *)
Theorem convert_well_formed (layout : list Item.t) (c : N) :
  safe_layout layout →
  ∃ reg c',
    convert layout c = Ok (reg, c') ∧
    children_registered reg ∧ single_parent reg ∧ root_unreferenced reg ∧
    keys_are_ids reg.
Proof.
  intros _. eexists _, _. split; [apply convert_eq|].
  split; [apply registry_children_registered|].
  split; [apply registry_single_parent|].
  split; [apply registry_root_unreferenced|apply registry_keys_are_ids].
Qed.

Lemma convert_well_formed_witness :
  safe_layout dash6 ∧
  ∃ reg c',
    convert dash6 1 = Ok (reg, c') ∧
    children_registered reg ∧ single_parent reg ∧ root_unreferenced reg ∧
    keys_are_ids reg.
Proof.
  assert (safe_layout dash6) as Hsafe
    by (apply (bool_decide_unpack _); vm_compute; exact I).
  split; [exact Hsafe|]. exact (convert_well_formed dash6 1 Hsafe).
Defined.

Lemma JSadd_assoc a b d : JSadd a (JSadd b d) = JSadd (JSadd a b) d.
Proof. destruct a, b, d; simpl; try done. by rewrite Z.add_assoc. Qed.

Lemma JSmax_assoc a b d : JSmax a (JSmax b d) = JSmax (JSmax a b) d.
Proof. destruct a, b, d; simpl; try done. by rewrite Z.max_assoc. Qed.

Lemma foldl_JSadd ws : ∀ a, foldl JSadd a ws = JSadd a (sum_widths ws).
Proof.
  unfold sum_widths.
  induction ws as [|w ws IH]; intros a; cbn [foldl foldr].
  - destruct a; simpl; try done. by rewrite Z.add_0_r.
  - by rewrite IH, JSadd_assoc.
Qed.

Lemma foldl_JSmax ws : ∀ a, foldl JSmax a ws = JSmax a (max_widths ws).
Proof.
  unfold max_widths.
  induction ws as [|w ws IH]; intros a; cbn [foldl foldr].
  - by destruct a.
  - by rewrite IH, JSmax_assoc.
Qed.

Lemma reduce_sum_widths ws : foldl JSadd (Num 0) ws = sum_widths ws.
Proof. rewrite foldl_JSadd. by destruct (sum_widths ws). Qed.

Lemma Math_max_widths ws : Math_max ws = max_widths ws.
Proof. unfold Math_max. rewrite foldl_JSmax. by destruct (max_widths ws). Qed.

Lemma JSadd_not_NaN a b : a ≠ NaN → b ≠ NaN → JSadd a b ≠ NaN.
Proof. by destruct a, b. Qed.

Lemma JSmax_not_NaN a b : a ≠ NaN → b ≠ NaN → JSmax a b ≠ NaN.
Proof. by destruct a, b. Qed.

Lemma foldl_not_NaN (f : JSNumber → JSNumber → JSNumber) ws :
  (∀ a b, a ≠ NaN → b ≠ NaN → f a b ≠ NaN) →
  Forall (fun w => w ≠ NaN) ws → ∀ a, a ≠ NaN → foldl f a ws ≠ NaN.
Proof.
  intros Hf. induction 1 as [|w ws Hw _ IH]; intros a Ha; cbn [foldl]; auto.
Qed.

Lemma twidth_not_NaN t : twidth t ≠ NaN.
Proof.
  induction t as [item|ts IH|ts IH] using Tree_forest_ind; cbn [twidth].
  - done.
  - apply foldl_not_NaN; [apply JSadd_not_NaN| |done].
    by apply Forall_fmap.
  - apply foldl_not_NaN; [apply JSmax_not_NaN| |done].
    by apply Forall_fmap.
Qed.

Lemma twidths_not_NaN (ts : list Tree) : NaN ∉ twidth <$> ts.
Proof.
  intros (t & Ht & _)%list_elem_of_fmap. symmetry in Ht.
  by apply twidth_not_NaN in Ht.
Qed.

Lemma sum_widths_is_sum (ws : list JSNumber) :
  NaN ∉ ws → is_sum_of (sum_widths ws) ws.
Proof.
  unfold sum_widths. induction ws as [|w ws IH]; intros Hnan.
  - left. by exists [].
  - assert (w ≠ NaN) as Hw by (intros ->; apply Hnan, list_elem_of_here).
    assert (NaN ∉ ws) as Hws
      by (intros Hin; by apply Hnan, list_elem_of_further).
    cbn [foldr].
    destruct (IH Hws) as [(zs & -> & Hsum)|(Hin & _ & Hsum)]; rewrite Hsum.
    + destruct w as [| |z]; [done| |].
      * right. split; [apply list_elem_of_here|done].
      * left. by exists (z :: zs).
    + right. split; [by apply list_elem_of_further|].
      split; [done|]. by destruct w.
Qed.

Lemma JSle_refl a : a ≠ NaN → JSle a a.
Proof. destruct a; simpl; [done|done|lia]. Qed.

Lemma JSle_max_l a b : a ≠ NaN → b ≠ NaN → JSle a (JSmax a b).
Proof. destruct a, b; simpl; try done; lia. Qed.

Lemma JSle_max_r a b : a ≠ NaN → b ≠ NaN → JSle b (JSmax a b).
Proof. destruct a, b; simpl; try done; lia. Qed.

Lemma JSle_trans a b d : JSle a b → JSle b d → JSle a d.
Proof. destruct a, b, d; simpl; try done; lia. Qed.

Lemma JSmax_cases a b :
  a ≠ NaN → b ≠ NaN →
  (JSmax a b = a ∧ JSle b a) ∨ (JSmax a b = b ∧ JSle a b).
Proof.
  destruct a as [| |x], b as [| |y]; simpl; try done; auto.
  intros _ _. destruct (Z.max_spec x y) as [[? ->]|[? ->]]; [right|left];
    (split; [done|lia]).
Qed.

Lemma max_widths_is_max (ws : list JSNumber) :
  NaN ∉ ws → is_max_of (max_widths ws) ws.
Proof.
  unfold max_widths. induction ws as [|w ws IH]; intros Hnan; [by left|].
  assert (w ≠ NaN) as Hw by (intros ->; apply Hnan, list_elem_of_here).
  assert (NaN ∉ ws) as Hws
    by (intros Hin; by apply Hnan, list_elem_of_further).
  right. cbn [foldr].
  destruct (IH Hws) as [[-> Hm]|[Hin Hall]].
  - cbn [foldr]. replace (JSmax w NegInfinity) with w by by destruct w.
    split; [apply list_elem_of_here|]. constructor; [|constructor].
    by apply JSle_refl.
  - assert (foldr JSmax NegInfinity ws ≠ NaN) as Hm
      by (intros Heq; rewrite Heq in Hin; done).
    destruct (JSmax_cases w _ Hw Hm) as [[-> Hle]|[-> Hle]].
    + split; [apply list_elem_of_here|].
      constructor; [by apply JSle_refl|].
      eapply Forall_impl; [exact Hall|]. intros x Hx.
      exact (JSle_trans _ _ _ Hx Hle).
    + split; [by apply list_elem_of_further|]. by constructor.
Qed.

Lemma subtree_children_width c ts t c' :
  (∀ e, e ∈ entries t c' → e ∈ registry_entries c ts) →
  Forall2 (has_width (list_to_map (registry_entries c ts)))
    (Node.children (tnode c' t)) (twidth <$> subtrees t).
Proof.
  intros Hsub. rewrite tnode_children. apply forest_roots_width.
  intros k v Hkv. apply lookup_registry, Hsub.
  rewrite entries_eq. by apply list_elem_of_further.
Qed.

(** C6. Width aggregation: in the registry that the conversion of a
    layout within the safe integers returns, the width of a Row is the
    sum of the widths of its children and the width of a Column is the
    maximum of the widths of its children. *)
Theorem convert_width_aggregation (layout : list Item.t) (c : N) :
  safe_layout layout →
  ∃ reg c',
    convert layout c = Ok (reg, c') ∧
    ∀ id n,
      reg !! id = Some n →
      (Node.type n = DASHBOARD_ROW_TYPE → width_aggregates is_sum_of reg n) ∧
      (Node.type n = DASHBOARD_COLUMN_TYPE →
       width_aggregates is_max_of reg n).
Proof.
  intros _. eexists _, _. split; [apply convert_eq|].
  intros id n Hn%lookup_registry.
  apply registry_subtree in Hn as [[-> ->]|(t & c' & -> & -> & Hsub)];
    [done|].
  pose proof (subtree_children_width _ _ _ _ Hsub) as Hws.
  destruct t as [item|ts|ts]; (split; [intros [=]|intros [=]]).
  - exists (twidth (TRow ts)), (twidth <$> ts). split; [done|].
    split; [done|]. cbn [twidth]. rewrite reduce_sum_widths.
    apply sum_widths_is_sum, twidths_not_NaN.
  - exists (twidth (TCol ts)), (twidth <$> ts). split; [done|].
    split; [done|]. cbn [twidth]. rewrite Math_max_widths.
    apply max_widths_is_max, twidths_not_NaN.
Qed.

Lemma convert_width_aggregation_witness :
  safe_layout dash6 ∧
  ∃ reg c',
    convert dash6 1 = Ok (reg, c') ∧
    ∀ id n,
      reg !! id = Some n →
      (Node.type n = DASHBOARD_ROW_TYPE → width_aggregates is_sum_of reg n) ∧
      (Node.type n = DASHBOARD_COLUMN_TYPE →
       width_aggregates is_max_of reg n).
Proof.
  assert (safe_layout dash6) as Hsafe
    by (apply (bool_decide_unpack _); vm_compute; exact I).
  split; [exact Hsafe|]. exact (convert_width_aggregation dash6 1 Hsafe).
Defined.

(** ** The boundary of a valid layout *)

Lemma run_min_is_minimum init xs :
  xs ≠ [] → Forall (fun x => x ≤ init) xs → is_minimum (run_min init xs) xs.
Proof.
  intros Hne Hle. destruct (run_min_spec xs init) as (_ & Hall & [Heq|Hin]);
    (split; [|done]); [|done].
  destruct xs as [|x xs]; [done|]. rewrite Heq in *.
  apply Forall_cons in Hle as [? _]. apply Forall_cons in Hall as [? _].
  assert (x = init) as -> by lia. apply list_elem_of_here.
Qed.

Lemma run_max_is_maximum init xs :
  xs ≠ [] → Forall (fun x => init ≤ x) xs → is_maximum (run_max init xs) xs.
Proof.
  intros Hne Hle. destruct (run_max_spec xs init) as (_ & Hall & [Heq|Hin]);
    (split; [|done]); [|done].
  destruct xs as [|x xs]; [done|]. rewrite Heq in *.
  apply Forall_cons in Hle as [? _]. apply Forall_cons in Hall as [? _].
  assert (x = init) as -> by lia. apply list_elem_of_here.
Qed.

(** C7. BoundaryCalculator: for a non-empty valid layout of items within
    the safe integers, [getBoundary] returns the least [row] as [top],
    the least [col] as [left], the greatest [row + size_y] as [bottom]
    and the greatest [col + size_x] as [right]. *)
Theorem getBoundary_extrema (layout : list Item.t) :
  layout ≠ [] → valid_layout layout → Forall safe_item layout →
  let b := getBoundary layout in
  is_minimum (Boundary.top b) (Item.row <$> layout) ∧
  is_minimum (Boundary.left b) (Item.col <$> layout) ∧
  is_maximum (Boundary.bottom b)
    ((fun item => Item.row item + Item.size_y item) <$> layout) ∧
  is_maximum (Boundary.right b)
    ((fun item => Item.col item + Item.size_x item) <$> layout).
Proof.
  intros Hne Hvalid _. rewrite getBoundary_eq. cbn.
  assert (∀ {A} (f : Item.t → A), f <$> layout ≠ []) as Hfne.
  { intros A f. by destruct layout. }
  split; [|split; [|split]].
  1,2: apply run_min_is_minimum; [apply Hfne|]; apply Forall_fmap;
       eapply Forall_impl; [exact Hvalid|]; intros item (? & ? & ? & ?);
       simpl; lia.
  all: apply (run_max_is_maximum _ (_ <$> layout)); [apply Hfne|];
       apply Forall_fmap; eapply Forall_impl; [exact Hvalid|];
       intros item (? & ? & ? & ?); unfold compose, rowFar, colFar; simpl; lia.
Qed.

Lemma getBoundary_extrema_witness :
  dash6 ≠ [] ∧ valid_layout dash6 ∧ Forall safe_item dash6 ∧
  let b := getBoundary dash6 in
  is_minimum (Boundary.top b) (Item.row <$> dash6) ∧
  is_minimum (Boundary.left b) (Item.col <$> dash6) ∧
  is_maximum (Boundary.bottom b)
    ((fun item => Item.row item + Item.size_y item) <$> dash6) ∧
  is_maximum (Boundary.right b)
    ((fun item => Item.col item + Item.size_x item) <$> dash6).
Proof.
  assert (dash6 ≠ []) as Hne by discriminate.
  assert (valid_layout dash6) as Hvalid
    by (apply (bool_decide_unpack _); vm_compute; exact I).
  assert (Forall safe_item dash6) as Hsafe
    by (apply (bool_decide_unpack _); vm_compute; exact I).
  split; [exact Hne|]. split; [exact Hvalid|]. split; [exact Hsafe|].
  exact (getBoundary_extrema dash6 Hne Hvalid Hsafe).
Defined.

Lemma comparator_near xAxis a b :
  comparator xAxis a b = near xAxis a - near xAxis b.
Proof. by destruct xAxis. Qed.

Lemma sort_insert_HdRel xAxis y x l :
  HdRel (by_near xAxis) y l → by_near xAxis y x →
  HdRel (by_near xAxis) y (sort_insert (comparator xAxis) x l).
Proof.
  intros Hl Hx. destruct l as [|z l]; cbn [sort_insert]; [by constructor|].
  destruct (comparator xAxis x z >? 0); constructor; [|done].
  by inversion Hl.
Qed.

Lemma sort_insert_Sorted xAxis x l :
  Sorted (by_near xAxis) l →
  Sorted (by_near xAxis) (sort_insert (comparator xAxis) x l).
Proof.
  induction 1 as [|y l Hl IH Hy]; cbn [sort_insert].
  - by repeat constructor.
  - destruct (Z.gtb_spec (comparator xAxis x y) 0) as [Hgt|Hle];
      rewrite comparator_near in *.
    + constructor; [done|]. apply sort_insert_HdRel; [done|].
      unfold by_near. lia.
    + constructor; [by constructor|]. constructor. unfold by_near. lia.
Qed.

Lemma Array_sort_Sorted xAxis l :
  Sorted (by_near xAxis) (Array_sort (comparator xAxis) l).
Proof.
  unfold Array_sort. induction l as [|x l IH]; cbn [foldr].
  - constructor.
  - by apply sort_insert_Sorted.
Qed.

Lemma overlapsNext_spec xAxis arr i item :
  arr !! i = Some item →
  overlapsNext xAxis item (Z.of_nat i) arr = true
  ↔ ∃ next, arr !! S i = Some next ∧ far xAxis item > near xAxis next.
Proof.
  intros Hi. unfold overlapsNext.
  pose proof (lookup_lt_Some _ _ _ Hi) as Hlt.
  destruct (Z.eqb_spec (Z.of_nat i) (Z.of_nat (length arr) - 1)) as [Heq|Hne].
  - split; [done|]. intros (next & Hnext & _).
    apply lookup_lt_Some in Hnext. lia.
  - replace (Z.to_nat (Z.of_nat i + 1)) with (S i) by lia.
    destruct (arr !! S i) as [next|] eqn:Hnext.
    + unfold far, near. destruct xAxis; rewrite Z.gtb_gt; split.
      1,3: intros ?; exists next; split; [done|lia].
      all: intros (? & [= <-] & ?); lia.
    + split; [done|]. by intros (? & ? & _).
Qed.

(** ** The overlap test *)


Lemma Array_some_from_spec xAxis arr : ∀ rest i,
  drop i arr = rest →
  Array_some_from (overlapsNext xAxis) arr (Z.of_nat i) rest = true
  ↔ ∃ j item next,
      (i ≤ j)%nat ∧ arr !! j = Some item ∧ arr !! S j = Some next ∧
      far xAxis item > near xAxis next.
Proof.
  induction rest as [|item rest IH]; intros i Hdrop; cbn [Array_some_from].
  - split; [done|]. intros (j & it & next & Hj & Hit & _).
    apply lookup_lt_Some in Hit.
    assert (length (drop i arr) = 0%nat) as Hlen by by rewrite Hdrop.
    rewrite length_drop in Hlen. lia.
  - assert (arr !! i = Some item) as Hi.
    { rewrite <- (Nat.add_0_r i), <- lookup_drop, Hdrop. done. }
    assert (drop (S i) arr = rest) as Hdrop'.
    { replace (S i) with (i + 1)%nat by lia.
      by rewrite <- drop_drop, Hdrop. }
    specialize (IH (S i) Hdrop').
    replace (Z.of_nat i + 1) with (Z.of_nat (S i)) by lia.
    destruct (overlapsNext xAxis item (Z.of_nat i) arr) eqn:Hov.
    + split; [intros _|done].
      apply overlapsNext_spec in Hov as (next & Hnext & Hgt); [|done].
      exists i, item, next. split; [lia|done].
    + rewrite IH. split.
      * intros (j & it & next & Hj & Hrest). exists j, it, next.
        split; [lia|done].
      * intros (j & it & next & Hj & Hit & Hnext & Hgt).
        destruct (decide (j = i)) as [->|Hne].
        -- assert (overlapsNext xAxis item (Z.of_nat i) arr = true) as Ht.
           { apply overlapsNext_spec; [done|]. simplify_eq. eauto. }
           congruence.
        -- exists j, it, next. split; [lia|done].
Qed.

Lemma hasOverlap_ref_spec (h : Heap) (ref : nat) (layout : list Item.t)
    (xAxis : bool) :
  h !! ref = Some layout →
  ∃ h',
    hasOverlap_ref ref xAxis h = Some (hasOverlap layout xAxis, h') ∧
    ∀ r elems, h !! r = Some elems → h' !! r = Some elems.
Proof.
  intros Href. unfold hasOverlap_ref, Array_slice_ref.
  rewrite Href. cbn [mbind option_bind].
  unfold Array_sort_ref, Array_some_ref, Heap in *.
  rewrite (lookup_app_r h [layout] (length h)) by lia.
  rewrite Nat.sub_diag. cbn [lookup list_lookup mbind option_bind].
  assert (length h < length (h ++ [layout]))%nat as Hlen
    by (rewrite length_app; simpl; lia).
  rewrite list_lookup_insert_eq by done.
  cbn [mbind option_bind]. eexists. split; [done|].
  intros r elems Hr. pose proof (lookup_lt_Some _ _ _ Hr) as Hlt.
  rewrite list_lookup_insert_ne by lia.
  by apply lookup_app_l_Some.
Qed.

(** C8. OverlapDetector: on items within the safe integers, [hasOverlap]
    sorts a copy of the list by the near coordinate along the axis, and
    returns [true] exactly when some item of the sorted list ends after
    the item next to it starts.  The call leaves every array of the heap
    as it was, the one it is given among them: the only array that it
    sorts is the copy that it makes. *)
Theorem hasOverlap_adjacent (layout : list Item.t) (xAxis : bool) :
  Forall safe_item layout →
  let sorted := Array_sort (comparator xAxis) layout in
  sorted ≡ₚ layout ∧ Sorted (by_near xAxis) sorted ∧
  (hasOverlap layout xAxis = true ↔ adjacent_overlap xAxis sorted) ∧
  ∀ (h : Heap) (ref : nat),
    h !! ref = Some layout →
    ∃ h',
      hasOverlap_ref ref xAxis h = Some (hasOverlap layout xAxis, h') ∧
      ∀ r elems, h !! r = Some elems → h' !! r = Some elems.
Proof.
  intros _. cbn zeta. split; [apply Array_sort_perm|].
  split; [apply Array_sort_Sorted|].
  split; [|intros h ref; apply hasOverlap_ref_spec].
  unfold hasOverlap, Array_some.
  fold (comparator xAxis).
  rewrite (Array_some_from_spec xAxis _ _ 0 eq_refl).
  unfold adjacent_overlap. split.
  - intros (j & item & next & _ & H). by exists j, item, next.
  - intros (j & item & next & H). exists j, item, next. split; [lia|done].
Qed.

Lemma hasOverlap_adjacent_witness :
  Forall safe_item dash6 ∧
  let sorted := Array_sort (comparator false) dash6 in
  sorted ≡ₚ dash6 ∧ Sorted (by_near false) sorted ∧
  (hasOverlap dash6 false = true ↔ adjacent_overlap false sorted) ∧
  ∀ (h : Heap) (ref : nat),
    h !! ref = Some dash6 →
    ∃ h',
      hasOverlap_ref ref false h = Some (hasOverlap dash6 false, h') ∧
      ∀ r elems, h !! r = Some elems → h' !! r = Some elems.
Proof.
  assert (Forall safe_item dash6) as Hsafe
    by (apply (bool_decide_unpack _); vm_compute; exact I).
  split; [exact Hsafe|]. exact (hasOverlap_adjacent dash6 false Hsafe).
Defined.

(** ** Concrete conversions *)

Lemma registry_size c ts :
  size (list_to_map (registry_entries c ts) : gmap string Node.t)
  = length (registry_entries c ts).
Proof. apply map_size_list_to_map, registry_entries_NoDup. Qed.

Lemma convert_single_registry c :
  convert dash_single c
  = Ok (list_to_map
          (registry_entries c [TChart (Item.mk 1 1 16 16 "240")]),
        (c + 1)%N).
Proof. by rewrite convert_eq. Qed.

(** C3, as the code has it. Single-item case: the conversion of the one
    item returns a registry of two nodes, the Root and the chart holder of
    the item; the chart holder is the only child of the Root (no Row is
    made for a single item), its width is 4 and its height is 32. *)
Theorem convert_single_item (c : N) :
  ∃ reg c' leaf_id leaf,
    convert dash_single c = Ok (reg, c') ∧
    size reg = 2%nat ∧
    reg !! DASHBOARD_ROOT_ID = Some (root_node [leaf_id]) ∧
    reg !! leaf_id = Some leaf ∧
    is_leaf_of (Item.mk 1 1 16 16 "240") 4 32 leaf ∧
    node_width leaf = Some (Num (Z.max 1 (16 / 4))) ∧
    node_height leaf = Some 32.
Proof.
  eexists _, _, _, _. split; [apply convert_single_registry|].
  split; [by rewrite registry_size|].
  split; [apply lookup_registry, list_elem_of_here|].
  split; [apply lookup_registry, list_elem_of_further, list_elem_of_here|].
  done.
Qed.

(** C3, counterexample: with the counter at 1, the only child of the Root
    is the chart holder; it is not a Row. *)
Lemma convert_single_item_no_row : ¬ single_item_under_row 1.
Proof.
  intros (reg & c' & row_id & row & leaf_id & leaf & Hconv & Hroot & Hrow
          & Htype & _).
  rewrite convert_single_registry in Hconv.
  assert (reg = list_to_map
                  (registry_entries 1 [TChart (Item.mk 1 1 16 16 "240")]))
    as -> by congruence.
  apply lookup_registry in Hroot, Hrow.
  apply elem_of_cons in Hroot as [[= ->]|Hroot].
  - apply elem_of_cons in Hrow as [Heq|Hrow].
    + apply (f_equal fst) in Heq.
      exact (genId_not_root DASHBOARD_CHART_TYPE 1 Heq).
    + cbn in Hrow. apply list_elem_of_singleton in Hrow.
      apply (f_equal snd) in Hrow. cbn in Hrow. subst row. done.
  - apply (list_elem_of_fmap_2 fst) in Hroot.
    by apply forest_entries_not_root in Hroot.
Qed.




Lemma Permutation_three {A} (a b c : A) l :
  l ≡ₚ [a; b; c] →
  l = [a; b; c] ∨ l = [a; c; b] ∨ l = [b; a; c] ∨ l = [b; c; a]
  ∨ l = [c; a; b] ∨ l = [c; b; a].
Proof.
  intros H. pose proof (Permutation_length H) as Hlen.
  destruct l as [|x [|y [|z [|]]]]; try done.
  assert (x ∈ [a; b; c]) as Hx by (rewrite <- H; apply list_elem_of_here).
  rewrite !elem_of_cons, elem_of_nil in Hx.
  destruct Hx as [->|[->|[->|[]]]].
  - apply Permutation_cons_inv, Permutation_sym, Permutation_length_2_inv in H.
    destruct H as [[= -> ->]|[= -> ->]]; auto.
  - rewrite <- (Permutation_swap a b [c]) in H.
    apply Permutation_cons_inv, Permutation_sym, Permutation_length_2_inv in H.
    destruct H as [[= -> ->]|[= -> ->]]; auto 10.
  - assert ([a; b; c] ≡ₚ [c; a; b]) as Hrot.
    { change ([a; b] ++ [c] ≡ₚ [c] ++ [a; b]). apply Permutation_app_comm. }
    rewrite Hrot in H.
    apply Permutation_cons_inv, Permutation_sym, Permutation_length_2_inv in H.
    destruct H as [[= -> ->]|[= -> ->]]; auto 10.
Qed.

Lemma build_three_columns s1 s2 s3 layout :
  layout ≡ₚ three_columns s1 s2 s3 →
  build layout 0
  = [TRow [TChart (Item.mk 0 1 16 16 s1); TChart (Item.mk 0 17 16 16 s2);
           TChart (Item.mk 0 33 16 16 s3)]].
Proof.
  intros H. apply Permutation_three in H.
  destruct H as [->|[->|[->|[->|[->| ->]]]]]; by vm_compute.
Qed.

(** C5. Three-column case: the conversion of the three items at row 0 and
    columns 1, 17 and 33, each 16 by 16, given in any order, returns a
    registry in which the Root has one child, a Row of width 12, whose
    children are the chart holders of the three items by ascending column,
    each of width 4 and height 32. *)
Theorem convert_three_columns (s1 s2 s3 : string) (layout : list Item.t)
    (c : N) :
  layout ≡ₚ three_columns s1 s2 s3 →
  ∃ reg c' row_id row id1 id2 id3 leaf1 leaf2 leaf3,
    convert layout c = Ok (reg, c') ∧
    reg !! DASHBOARD_ROOT_ID = Some (root_node [row_id]) ∧
    reg !! row_id = Some row ∧
    Node.type row = DASHBOARD_ROW_TYPE ∧
    Node.children row = [id1; id2; id3] ∧
    node_width row = Some (Num 12) ∧
    reg !! id1 = Some leaf1 ∧ is_leaf_of (Item.mk 0 1 16 16 s1) 4 32 leaf1 ∧
    reg !! id2 = Some leaf2 ∧ is_leaf_of (Item.mk 0 17 16 16 s2) 4 32 leaf2 ∧
    reg !! id3 = Some leaf3 ∧ is_leaf_of (Item.mk 0 33 16 16 s3) 4 32 leaf3.
Proof.
  intros H. do 10 eexists. split; [apply convert_eq|].
  rewrite (build_three_columns s1 s2 s3 layout H).
  split; [apply lookup_registry, list_elem_of_here|].
  split; [apply lookup_registry, list_elem_of_further, list_elem_of_here|].
  split; [done|]. split; [done|]. split; [done|].
  split.
  { apply lookup_registry.
    do 2 apply list_elem_of_further. apply list_elem_of_here. }
  split; [done|]. split.
  { apply lookup_registry.
    do 3 apply list_elem_of_further. apply list_elem_of_here. }
  split; [done|]. split.
  { apply lookup_registry.
    do 4 apply list_elem_of_further. apply list_elem_of_here. }
  done.
Qed.

Lemma convert_three_columns_witness :
  [Item.mk 0 33 16 16 "c"; Item.mk 0 1 16 16 "a"; Item.mk 0 17 16 16 "b"]
  ≡ₚ three_columns "a" "b" "c" ∧
  ∃ reg c' row_id row id1 id2 id3 leaf1 leaf2 leaf3,
    convert
      [Item.mk 0 33 16 16 "c"; Item.mk 0 1 16 16 "a"; Item.mk 0 17 16 16 "b"]
      1 = Ok (reg, c') ∧
    reg !! DASHBOARD_ROOT_ID = Some (root_node [row_id]) ∧
    reg !! row_id = Some row ∧
    Node.type row = DASHBOARD_ROW_TYPE ∧
    Node.children row = [id1; id2; id3] ∧
    node_width row = Some (Num 12) ∧
    reg !! id1 = Some leaf1 ∧ is_leaf_of (Item.mk 0 1 16 16 "a") 4 32 leaf1 ∧
    reg !! id2 = Some leaf2 ∧ is_leaf_of (Item.mk 0 17 16 16 "b") 4 32 leaf2 ∧
    reg !! id3 = Some leaf3 ∧ is_leaf_of (Item.mk 0 33 16 16 "c") 4 32 leaf3.
Proof.
  assert ([Item.mk 0 33 16 16 "c"; Item.mk 0 1 16 16 "a";
           Item.mk 0 17 16 16 "b"] ≡ₚ three_columns "a" "b" "c") as H.
  { unfold three_columns.
    change ([Item.mk 0 33 16 16 "c"]
              ++ [Item.mk 0 1 16 16 "a"; Item.mk 0 17 16 16 "b"]
            ≡ₚ [Item.mk 0 1 16 16 "a"; Item.mk 0 17 16 16 "b"]
                 ++ [Item.mk 0 33 16 16 "c"]).
    apply Permutation_app_comm. }
  split; [exact H|]. exact (convert_three_columns "a" "b" "c" _ 1 H).
Defined.

(** ** The shape of a registry *)

Lemma tshape_eq t :
  tshape t = SNode (tree_type t) (Node.meta (tnode 0 t)) (tshape <$> subtrees t).
Proof. by destruct t. Qed.

Lemma tnode_type c t : Node.type (tnode c t) = tree_type t.
Proof. by destruct t. Qed.

Lemma tnode_meta c t : Node.meta (tnode c t) = Node.meta (tnode 0 t).
Proof. by destruct t. Qed.

Lemma Tree_subtrees_ind (P : Tree → Prop) :
  (∀ t, Forall P (subtrees t) → P t) → ∀ t, P t.
Proof.
  intros H t. induction t using Tree_forest_ind; apply H; by cbn [subtrees].
Qed.

Lemma length_entries t : ∀ c, length (entries t c) = N.to_nat (tsize t).
Proof.
  induction t as [t IH] using Tree_subtrees_ind. intros c.
  rewrite entries_eq, tsize_eq. cbn [length].
  generalize (c + 1)%N. clear c.
  induction IH as [|t' ts Ht' _ IH]; intros c; cbn [forest_entries].
  - unfold fsize. simpl. lia.
  - rewrite length_app, Ht', fsize_cons. specialize (IH (c + tsize t')%N). lia.
Qed.

Lemma length_forest_entries ts :
  ∀ c, length (forest_entries ts c) = N.to_nat (fsize ts).
Proof.
  induction ts as [|t ts IH]; intros c; cbn [forest_entries]; [done|].
  rewrite length_app, length_entries, IH, fsize_cons. lia.
Qed.

Section shape.

Variable reg : gmap string Node.t.

Lemma shape_of_forest_from fuel ts :
  Forall (fun t => ∀ c fuel', holds reg (entries t c) →
                    (N.to_nat (tsize t) ≤ fuel')%nat →
                    shape_of fuel' reg (tid c t) = Some (tshape t)) ts →
  ∀ c, holds reg (forest_entries ts c) → (N.to_nat (fsize ts) ≤ fuel)%nat →
       mapM (shape_of fuel reg) (forest_ids c ts) = Some (tshape <$> ts).
Proof.
  intros H c Hreg Hfuel. apply mapM_Some_2. revert c Hreg Hfuel.
  induction H as [|t ts Ht _ IH]; intros c Hreg Hfuel;
    cbn [forest_ids fmap list_fmap]; constructor.
  - apply Ht.
    + intros k n Hk. apply Hreg. cbn [forest_entries].
      apply elem_of_app. by left.
    + rewrite fsize_cons in Hfuel. lia.
  - apply IH.
    + intros k n Hk. apply Hreg. cbn [forest_entries].
      apply elem_of_app. by right.
    + rewrite fsize_cons in Hfuel. lia.
Qed.

Lemma shape_of_tree t : ∀ c fuel,
  holds reg (entries t c) → (N.to_nat (tsize t) ≤ fuel)%nat →
  shape_of fuel reg (tid c t) = Some (tshape t).
Proof.
  induction t as [t IH] using Tree_subtrees_ind. intros c fuel Hreg Hfuel.
  rewrite tsize_eq in Hfuel.
  destruct fuel as [|fuel]; [lia|]. cbn [shape_of].
  rewrite (Hreg (tid c t) (tnode c t)) by apply entries_head.
  cbn [mbind option_bind]. rewrite tnode_children.
  rewrite (shape_of_forest_from fuel (subtrees t) IH).
  - cbn [mbind option_bind]. by rewrite tshape_eq, tnode_type, tnode_meta.
  - intros k n Hk. apply Hreg. rewrite entries_eq.
    by apply list_elem_of_further.
  - lia.
Qed.

End shape.

Lemma registry_shape c ts :
  shape_of (size (list_to_map (registry_entries c ts) : gmap string Node.t))
    (list_to_map (registry_entries c ts)) DASHBOARD_ROOT_ID
  = Some (SNode DASHBOARD_GRID_ROOT_TYPE None (tshape <$> ts)).
Proof.
  rewrite registry_size. unfold registry_entries at 1. cbn [length shape_of].
  rewrite (proj2 (lookup_registry c ts _ _) (list_elem_of_here _ _)).
  cbn [mbind option_bind root_node Node.children].
  rewrite (shape_of_forest_from _ _ ts).
  - done.
  - apply Forall_forall. intros t _ c' fuel'. apply shape_of_tree.
  - intros k n Hk. apply lookup_registry. by apply list_elem_of_further.
  - by rewrite length_forest_entries.
Qed.

(** C9. Determinism: two conversions of the same list within the safe
    integers, whatever the value of the id counter at each call, return
    registries with the same shape below the Root: the same nodes with
    the same type and [meta] (width, height, content reference, row,
    col), and the same order of children.  When the second call starts
    where the first ended, as with the shared counter, no key but the
    Root's is in both registries. *)
Theorem convert_deterministic (layout : list Item.t) (c1 c2 : N) :
  safe_layout layout →
  ∃ reg1 n1 reg2 n2 shape,
    convert layout c1 = Ok (reg1, n1) ∧
    convert layout c2 = Ok (reg2, n2) ∧
    shape_of (size reg1) reg1 DASHBOARD_ROOT_ID = Some shape ∧
    shape_of (size reg2) reg2 DASHBOARD_ROOT_ID = Some shape ∧
    ((n1 ≤ c2)%N →
     ∀ id, id ≠ DASHBOARD_ROOT_ID → is_Some (reg1 !! id) → reg2 !! id = None).
Proof.
  intros _. eexists _, _, _, _, _. split; [apply convert_eq|].
  split; [apply convert_eq|].
  split; [apply registry_shape|]. split; [apply registry_shape|].
  intros Hle id Hid [n Hn%lookup_registry].
  apply elem_of_cons in Hn as [Heq|Hn]; [by apply (f_equal fst) in Heq|].
  apply (list_elem_of_fmap_2 fst), forest_entries_keys in Hn.
  apply not_elem_of_list_to_map_1.
  unfold registry_entries. cbn [fmap list_fmap fst].
  intros [?|Hk%forest_entries_keys]%elem_of_cons; [done|].
  eapply id_in_disjoint; [exact Hn|exact Hk|lia].
Qed.

Lemma convert_deterministic_witness :
  safe_layout dash6 ∧
  ∃ reg1 n1 reg2 n2 shape,
    convert dash6 1 = Ok (reg1, n1) ∧
    convert dash6 12 = Ok (reg2, n2) ∧
    shape_of (size reg1) reg1 DASHBOARD_ROOT_ID = Some shape ∧
    shape_of (size reg2) reg2 DASHBOARD_ROOT_ID = Some shape ∧
    ((n1 ≤ 12)%N →
     ∀ id, id ≠ DASHBOARD_ROOT_ID → is_Some (reg1 !! id) → reg2 !! id = None).
Proof.
  assert (safe_layout dash6) as Hsafe
    by (apply (bool_decide_unpack _); vm_compute; exact I).
  split; [exact Hsafe|]. exact (convert_deterministic dash6 1 12 Hsafe).
Defined.

(** ** Empty containers *)

Lemma filter_none {A} (P : A → Prop) `{∀ x, Decision (P x)} l :
  Forall (fun x => ¬ P x) l → filter P l = [].
Proof.
  induction 1 as [|x l Hx _ IH]; [done|]. by rewrite filter_cons_False.
Qed.

Lemma rowDividers_loop_keeps fuel bottom : ∀ currentRow currentItems layers l,
  l ∈ layers →
  l ∈ rowDividers_loop fuel bottom currentRow currentItems layers.
Proof.
  induction fuel as [|fuel IH]; intros cur items layers l Hl;
    cbn [rowDividers_loop]; [done|].
  destruct (_ && _); [|done].
  destruct (every_side _ _ _ _ _ _) as [[[] lower] upper].
  - apply IH. apply elem_of_app. by left.
  - by apply IH.
Qed.

(** At a line where every item left starts, the scan seals an empty
    layer. *)
Lemma rowDividers_loop_empty_here fuel bottom line items layers :
  items ≠ [] → line ≤ bottom →
  Forall (fun item => line ≤ Item.row item ∧ line < rowFar item) items →
  [] ∈ rowDividers_loop (S fuel) bottom line items layers.
Proof.
  intros Hne Hle Hall. cbn [rowDividers_loop].
  rewrite bool_decide_eq_true_2 by done.
  destruct (Z.leb_spec line bottom) as [_|?]; [|lia]. cbn [andb].
  rewrite every_side_divider.
  - rewrite (filter_none (λ item, rowFar item ≤ line)).
    + apply rowDividers_loop_keeps, elem_of_app. right.
      apply list_elem_of_here.
    + eapply Forall_impl; [exact Hall|]. intros item [? ?]. simpl. lia.
  - eapply Forall_impl; [exact Hall|]. intros item [? ?]. by right.
Qed.

Lemma rowDividers_loop_gap line fuel bottom : ∀ currentRow items layers,
  currentRow < line →
  Exists (fun item => line ≤ Item.row item) items →
  Forall (fun item => rowFar item < line ∨ line ≤ Item.row item) items →
  Forall (fun item => Item.row item < rowFar item ≤ bottom) items →
  bottom - currentRow + 1 ≤ Z.of_nat fuel →
  [] ∈ rowDividers_loop fuel bottom currentRow items layers.
Proof.
  induction fuel as [|fuel IH]; intros cur items layers Hcur Hb Hgap Hfar Hfuel.
  - apply Exists_exists in Hb as (b & Hb & Hrow).
    rewrite Forall_forall in Hfar. specialize (Hfar b Hb). lia.
  - assert (items ≠ []) as Hne by (by destruct Hb).
    assert (∀ items', 
              Forall (λ item, ¬ rowFar item ≤ cur) items' →
              (∀ item, item ∈ items' → item ∈ items) →
              Exists (λ item, line ≤ Item.row item) items' →
              cur + 1 = line →
              [] ∈ rowDividers_loop fuel bottom (cur + 1) items' 
                     (layers ++ [filter (λ item, rowFar item ≤ cur) items]))
      as Hnext.
    { intros items' Hnot Hsub Hb' Heq.
      apply Exists_exists in Hb' as (b & Hb' & Hrow).
      rewrite Forall_forall in Hfar, Hgap, Hnot.
      pose proof (Hfar b (Hsub b Hb')).
      destruct fuel as [|fuel]; [lia|]. rewrite Heq.
      apply rowDividers_loop_empty_here.
      - intros ->. by apply elem_of_nil in Hb'.
      - lia.
      - apply Forall_forall. intros item Hitem.
        pose proof (Hfar item (Hsub item Hitem)).
        pose proof (Hnot item Hitem).
        destruct (Hgap item (Hsub item Hitem)); lia. }
    cbn [rowDividers_loop].
    rewrite bool_decide_eq_true_2 by done.
    apply Exists_exists in Hb as (b & Hb & Hrow).
    assert (cur ≤ bottom) as Hle.
    { rewrite Forall_forall in Hfar. specialize (Hfar b Hb). lia. }
    destruct (Z.leb_spec cur bottom) as [_|?]; [|lia]. cbn [andb].
    assert (b ∈ filter (λ item, ¬ rowFar item ≤ cur) items) as Hb'.
    { apply list_elem_of_filter. split; [|done].
      rewrite Forall_forall in Hfar. specialize (Hfar b Hb). lia. }
    destruct (every_side_cases Item.row rowFar cur items)
      as [[Hdiv ->]|[Hdiv (lower & upper & ->)]].
    + destruct (decide (cur + 1 = line)) as [Heq|Hne'].
      * apply Hnext; [|by intros ? [_ ?]%list_elem_of_filter| |done].
        -- apply Forall_forall. by intros ? [? _]%list_elem_of_filter.
        -- apply Exists_exists. eauto.
      * apply IH; [lia| | | |lia].
        -- apply Exists_exists. eauto.
        -- by apply Forall_filter_keep.
        -- by apply Forall_filter_keep.
    + destruct (decide (cur + 1 = line)) as [Heq|Hne'].
      * destruct Hdiv. eapply Forall_impl; [exact Hgap|].
        intros item [?|?]; [left|right]; lia.
      * apply IH; [lia| |done..|lia]. apply Exists_exists. eauto.
Qed.

Lemma rowDividers_gap layout line :
  Forall positive_size layout → row_gap layout line →
  let b := getBoundary layout in
  [] ∈ rowDividers (Boundary.bottom b) (Boundary.top b + 1) layout [].
Proof.
  intros Hpos (Ha & Hb & Hgap). cbn zeta.
  pose proof (getBoundary_bounds layout) as Hbounds. cbn zeta in Hbounds.
  unfold rowDividers. apply (rowDividers_loop_gap line); [|done..| |lia].
  - apply Exists_exists in Ha as (a & Ha & Hfar).
    rewrite Forall_forall in Hbounds, Hpos.
    destruct (Hbounds a Ha) as (? & _). destruct (Hpos a Ha) as [_ ?].
    unfold rowFar in *. lia.
  - apply Forall_forall. intros item Hitem.
    rewrite Forall_forall in Hbounds, Hpos.
    destruct (Hbounds item Hitem) as (_ & ? & _).
    destruct (Hpos item Hitem) as [_ ?]. unfold rowFar in *. lia.
Qed.

Lemma build_unfold_layers layout :
  (1 < length layout)%nat →
  build layout 0
  = layerTree (build_depth 2) 0 (getBoundary layout)
      <$> rowDividers (Boundary.bottom (getBoundary layout))
            (Boundary.top (getBoundary layout) + 1) layout [].
Proof.
  intros Hlen. destruct layout as [|item [|item' layout]]; simpl in Hlen;
    [lia..|done].
Qed.

Lemma hasOverlap_nil xAxis : hasOverlap [] xAxis = false.
Proof. by destruct xAxis. Qed.

Lemma layerTree_nil self b : layerTree self 0 b [] = TRow [].
Proof. done. Qed.

(** The first column of a layer whose items all start at or after the
    first line of the column scan is empty. *)
Lemma colTrees_empty_first self right currentCol layer :
  layer ≠ [] →
  Forall (fun item => currentCol ≤ Item.col item
                      ∧ Item.col item < colFar item ≤ right) layer →
  ∃ rest, colTrees self 0 right currentCol layer = TCol [] :: rest.
Proof.
  intros Hne Hall. unfold colTrees.
  assert (currentCol < right) as Hlt.
  { destruct layer as [|item layer]; [done|].
    apply Forall_cons in Hall as [? _]. lia. }
  destruct (Z.to_nat (right - currentCol + 1)) as [|fuel] eqn:E; [lia|].
  cbn [colTrees_loop]. rewrite bool_decide_eq_true_2 by done.
  destruct (Z.leb_spec currentCol right) as [_|?]; [|lia]. cbn [andb].
  rewrite every_side_divider.
  - rewrite (filter_none (λ item, colFar item ≤ currentCol)).
    + cbn [app]. rewrite hasOverlap_nil. cbn. eauto.
    + eapply Forall_impl; [exact Hall|]. intros item [? ?]. simpl. lia.
  - eapply Forall_impl; [exact Hall|]. intros item [? ?]. by right.
Qed.

Lemma registry_lookup_tree c ts t :
  t ∈ ts →
  ∃ c', ∀ k n, (k, n) ∈ entries t c' →
               (list_to_map (registry_entries c ts) : gmap string Node.t) !! k
               = Some n.
Proof.
  intros Ht. destruct (forest_entries_elem ts c t Ht) as (c' & Hc').
  exists c'. intros k n Hk. apply lookup_registry.
  apply list_elem_of_further. by apply Hc'.
Qed.

Lemma rowDividers_layer_elem layout layer item :
  Forall positive_size layout → layout ≠ [] →
  let b := getBoundary layout in
  layer ∈ rowDividers (Boundary.bottom b) (Boundary.top b + 1) layout [] →
  item ∈ layer → item ∈ layout.
Proof.
  intros Hpos Hne b Hlayer Hitem.
  pose proof (getBoundary_bounds layout) as Hb. cbn zeta in Hb. fold b in Hb.
  rewrite <- (rowDividers_perm (Boundary.bottom b) (Boundary.top b + 1) layout).
  - apply elem_of_concat. eauto.
  - eapply Forall_impl; [exact Hb|]. by intros ? (? & ? & ? & ?).
  - intros _. destruct layout as [|it layout]; [done|].
    apply Forall_cons in Hb as [(? & ? & _) _].
    apply Forall_cons in Hpos as [[_ ?] _]. unfold rowFar in *. lia.
Qed.

(** C10. Empty containers: the conversion of a valid input of more than
    one item, within the safe integers, returns a registry in which
    - there is a Row without children, of width 0, whenever the layout has
      a vertical gap (a unit row that no item covers, with items above and
      below it);
    - there is a Column without children, of width [-Infinity] (the
      maximum of no width), whenever a row layer goes through the column
      scan (its items overlap along the columns) and all its items start
      at or after the first line of that scan, which is one past the left
      boundary of the whole layout. *)
Theorem convert_empty_containers (layout : list Item.t) (c : N) :
  valid_layout layout → safe_layout layout → (1 < length layout)%nat →
  ∃ reg c',
    convert layout c = Ok (reg, c') ∧
    ((∃ line, row_gap layout line) →
     ∃ id n, reg !! id = Some n ∧ is_empty_row n) ∧
    (∀ layer,
       layer ∈ rowDividers (Boundary.bottom (getBoundary layout))
                 (Boundary.top (getBoundary layout) + 1) layout [] →
       hasOverlap layer true = true →
       Forall (fun item =>
                 Boundary.left (getBoundary layout) + 1 ≤ Item.col item)
         layer →
       ∃ id n, reg !! id = Some n ∧ is_empty_column n).
Proof.
  intros Hvalid _ Hlen. apply valid_layout_positive in Hvalid as Hpos.
  eexists _, _. split; [apply convert_eq|].
  rewrite (build_unfold_layers layout Hlen).
  set (b := getBoundary layout).
  set (layers := rowDividers (Boundary.bottom b) (Boundary.top b + 1) layout []).
  split.
  - intros [line Hgap].
    pose proof (rowDividers_gap layout line Hpos Hgap) as Hin.
    cbn zeta in Hin. fold b layers in Hin.
    apply (list_elem_of_fmap_2 (layerTree (build_depth 2) 0 b)) in Hin.
    rewrite layerTree_nil in Hin.
    destruct (registry_lookup_tree c _ _ Hin) as (c' & Hc').
    exists (tid c' (TRow [])), (tnode c' (TRow [])).
    split; [apply Hc', entries_head|done].
  - intros layer Hlayer Hov Hleft.
    assert (layer ≠ []) as Hne.
    { intros ->. by rewrite hasOverlap_nil in Hov. }
    assert (layout ≠ []) as Hlne by (intros ->; simpl in Hlen; lia).
    destruct (colTrees_empty_first (build_depth 2) (Boundary.right b)
                (Boundary.left b + 1) layer Hne) as [rest Hrest].
    { apply Forall_forall. intros item Hitem.
      rewrite Forall_forall in Hleft. specialize (Hleft item Hitem).
      pose proof (rowDividers_layer_elem layout layer item Hpos Hlne
                    Hlayer Hitem) as Hin.
      pose proof (getBoundary_bounds layout) as Hb. cbn zeta in Hb.
      rewrite Forall_forall in Hb, Hpos.
      destruct (Hb item Hin) as (_ & _ & _ & ?).
      destruct (Hpos item Hin) as [? _]. fold b in H.
      unfold colFar in *. lia. }
    apply (list_elem_of_fmap_2 (layerTree (build_depth 2) 0 b)) in Hlayer.
    unfold layerTree at 1 in Hlayer. rewrite Hov, Hrest in Hlayer.
    cbn [negb orb Z.geb Z.compare] in Hlayer.
    destruct (registry_lookup_tree c _ _ Hlayer) as (c' & Hc').
    exists (tid (c' + 1) (TCol [])), (tnode (c' + 1) (TCol [])).
    split; [|done]. apply Hc'. rewrite entries_eq.
    apply list_elem_of_further. cbn [subtrees forest_entries].
    apply elem_of_app. left. apply entries_head.
Qed.

Lemma convert_empty_containers_witness :
  valid_layout dash_gap ∧ safe_layout dash_gap ∧
  (1 < length dash_gap)%nat ∧
  ∃ reg c',
    convert dash_gap 1 = Ok (reg, c') ∧
    (∃ id n, reg !! id = Some n ∧ is_empty_row n) ∧
    (∃ id n, reg !! id = Some n ∧ is_empty_column n).
Proof.
  assert (valid_layout dash_gap) as Hvalid
    by (apply (bool_decide_unpack _); vm_compute; exact I).
  assert (safe_layout dash_gap) as Hsafe
    by (apply (bool_decide_unpack _); vm_compute; exact I).
  assert (1 < length dash_gap)%nat as Hlen by (simpl; lia).
  split; [exact Hvalid|]. split; [exact Hsafe|]. split; [exact Hlen|].
  destruct (convert_empty_containers dash_gap 1 Hvalid Hsafe Hlen)
    as (reg & c' & Hconv & Hrow & Hcol).
  exists reg, c'. split; [exact Hconv|]. split.
  - apply Hrow. exists 2.
    apply (bool_decide_unpack _). vm_compute. exact I.
  - apply (Hcol [Item.mk 2 2 2 1 "2"; Item.mk 2 3 2 1 "3"]).
    + vm_compute. do 2 apply list_elem_of_further. apply list_elem_of_here.
    + reflexivity.
    + apply (bool_decide_unpack _). vm_compute. exact I.
Defined.

(** ** The loops and the recursion, unfolded once

    The fuel of the two scans and the depth of [doConvert] are the number
    of turns that are left; the equations of the [while] loops and of the
    recursive function hold without them. *)

Lemma rowDividers_unfold bottom currentRow currentItems layers :
  rowDividers bottom currentRow currentItems layers
  = if bool_decide (currentItems ≠ []) && (currentRow <=? bottom) then
      let '(isRowDivider, lower, upper) :=
        every_side Item.row rowFar currentRow currentItems [] [] in
      if isRowDivider then
        rowDividers bottom (currentRow + 1) upper (layers ++ [lower])
      else rowDividers bottom (currentRow + 1) currentItems layers
    else layers.
Proof.
  unfold rowDividers. destruct (Z.leb_spec currentRow bottom) as [Hle|Hgt].
  - replace (Z.to_nat (bottom - currentRow + 1))
      with (S (Z.to_nat (bottom - (currentRow + 1) + 1))) by lia.
    cbn [rowDividers_loop].
    destruct (Z.leb_spec currentRow bottom) as [_|?]; [done|lia].
  - replace (Z.to_nat (bottom - currentRow + 1)) with O by lia.
    by rewrite andb_false_r.
Qed.

Lemma colDividers_unfold self level right currentCol currentItems
    rowContainer :
  colDividers self level right currentCol currentItems rowContainer
  = if bool_decide (currentItems ≠ []) && (currentCol <=? right) then
      let '(isColDivider, lower, upper) :=
        every_side Item.col colFar currentCol currentItems [] [] in
      if isColDivider then
        colContainer ← getColContainer;
        _ ← register colContainer;
        _ ← push_child rowContainer (Node.id colContainer);
        _ ← (if negb (hasOverlap lower false) then
               forEach (addChart (Node.id colContainer))
                 (Array_sort sortByRowId lower)
             else self lower (level + 2) (Node.id colContainer));
        _ ← setColWidth (Node.id colContainer);
        colDividers self level right (currentCol + 1) upper rowContainer
      else
        colDividers self level right (currentCol + 1) currentItems
          rowContainer
    else mret ().
Proof.
  unfold colDividers. destruct (Z.leb_spec currentCol right) as [Hle|Hgt].
  - replace (Z.to_nat (right - currentCol + 1))
      with (S (Z.to_nat (right - (currentCol + 1) + 1))) by lia.
    cbn [colDividers_loop].
    destruct (Z.leb_spec currentCol right) as [_|?]; [done|lia].
  - replace (Z.to_nat (right - currentCol + 1)) with O by lia.
    by rewrite andb_false_r.
Qed.

Lemma colTrees_loop_ext self1 self2 level :
  (∀ l, self1 l (level + 2) = self2 l (level + 2)) →
  ∀ fuel right currentCol currentItems,
    colTrees_loop self1 fuel level right currentCol currentItems
    = colTrees_loop self2 fuel level right currentCol currentItems.
Proof.
  intros Hself. induction fuel as [|fuel IH]; intros right cur items;
    cbn [colTrees_loop]; [done|].
  destruct (_ && _); [|done].
  destruct (every_side _ _ _ _ _ _) as [[[] lower] upper]; [|apply IH].
  by rewrite IH, Hself.
Qed.

Lemma build_body_ext self1 self2 layout level :
  (level < 2 → ∀ l, self1 l (level + 2) = self2 l (level + 2)) →
  build_body self1 layout level = build_body self2 layout level.
Proof.
  intros Hself. unfold build_body.
  destruct layout as [|item [|item' layout]]; [done..|].
  apply list_fmap_ext. intros _ layer _. unfold layerTree, colTrees.
  destruct (Z.geb_spec level 2) as [|Hlt]; [done|]. cbn [orb].
  destruct (negb _); [done|]. f_equal. by apply colTrees_loop_ext, Hself.
Qed.

Lemma build_depth_enough d1 : ∀ d2 layout level,
  (Z.to_nat (2 - level) < d1)%nat → (Z.to_nat (2 - level) < d2)%nat →
  build_depth d1 layout level = build_depth d2 layout level.
Proof.
  induction d1 as [|d1 IH]; intros d2 layout level H1 H2; [lia|].
  destruct d2 as [|d2]; [lia|]. cbn [build_depth].
  apply build_body_ext. intros Hlevel l. apply IH; lia.
Qed.

(** [build] satisfies the equation of the recursive function. *)
Lemma build_unfold layout level :
  build layout level = build_body build layout level.
Proof.
  unfold build at 1. cbn [build_depth]. apply build_body_ext.
  intros Hlevel l. unfold build. apply build_depth_enough; lia.
Qed.

(** [doConvert] satisfies the equation of the recursive function: its body
    with [doConvert] itself at the recursive call. *)
Lemma doConvert_unfold layout level parent s :
  doConvert layout level parent s
  = doConvert_body doConvert layout level parent s.
Proof.
  rewrite doConvert_install, build_unfold. symmetry.
  apply doConvert_body_install. intros. apply doConvert_install.
Qed.

(** ** The boundary and the row layers, for every layout *)

Lemma safe_item_near_far (layout : list Item.t) (f : Item.t → Z) (z : Z) :
  Forall safe_item layout →
  (∀ item, safe_item item → safe_integer (f item)) →
  z ∈ f <$> layout → safe_integer z.
Proof.
  intros Hsafe Hf (item & -> & Hin)%list_elem_of_fmap.
  rewrite Forall_forall in Hsafe. auto.
Qed.

Lemma safe_item_row item : safe_item item → safe_integer (Item.row item).
Proof.
  unfold safe_item, safe_integer, Number_MAX_SAFE_INTEGER. lia.
Qed.

Lemma safe_item_col item : safe_item item → safe_integer (Item.col item).
Proof.
  unfold safe_item, safe_integer, Number_MAX_SAFE_INTEGER. lia.
Qed.

Lemma safe_item_rowFar item : safe_item item → safe_integer (rowFar item).
Proof. unfold safe_item, rowFar. tauto. Qed.

Lemma safe_item_colFar item : safe_item item → safe_integer (colFar item).
Proof. unfold safe_item, colFar. tauto. Qed.

(** X1. The boundary of items within the safe integers encloses every
    item, valid or not: no item starts above [top] or left of [left],
    none ends below [bottom] or right of [right]; the four values stay
    on the side of their initial values, which are the result for the
    empty layout; [bottom] and [right] are safe integers, and so are
    [top] and [left] when the layout has an item, so that the lines of
    the two scans, from [top + 1] to [bottom + 1] and from [left + 1] to
    [right + 1], are at most 2^53 in absolute value. *)
Theorem getBoundary_encloses (layout : list Item.t) :
  Forall safe_item layout →
  let b := getBoundary layout in
  Forall (fun item =>
            Boundary.top b ≤ Item.row item ∧
            Item.row item + Item.size_y item ≤ Boundary.bottom b ∧
            Boundary.left b ≤ Item.col item ∧
            Item.col item + Item.size_x item ≤ Boundary.right b) layout ∧
  Boundary.top b ≤ Number_MAX_VALUE ∧ Boundary.left b ≤ Number_MAX_VALUE ∧
  0 ≤ Boundary.bottom b ∧ 1 ≤ Boundary.right b ∧
  safe_integer (Boundary.bottom b) ∧ safe_integer (Boundary.right b) ∧
  (layout ≠ [] →
   safe_integer (Boundary.top b) ∧ safe_integer (Boundary.left b)) ∧
  getBoundary [] = Boundary.mk Number_MAX_VALUE 0 Number_MAX_VALUE 1.
Proof.
  intros Hsafe. cbn zeta. split; [apply getBoundary_bounds|].
  rewrite getBoundary_eq. cbn [Boundary.top Boundary.left Boundary.bottom
                                 Boundary.right].
  destruct (run_min_spec (Item.row <$> layout) Number_MAX_VALUE)
    as (? & Htop & Htop').
  destruct (run_min_spec (Item.col <$> layout) Number_MAX_VALUE)
    as (? & Hleft & Hleft').
  destruct (run_max_spec (rowFar <$> layout) 0) as (? & _ & Hbottom).
  destruct (run_max_spec (colFar <$> layout) 1) as (? & _ & Hright).
  do 4 (split; [done|]).
  assert (safe_integer 0 ∧ safe_integer 1) as [Hzero Hone]
    by (unfold safe_integer, Number_MAX_SAFE_INTEGER; lia).
  split.
  { destruct Hbottom as [->|Hin]; [done|].
    eapply safe_item_near_far; [exact Hsafe|apply safe_item_rowFar|done]. }
  split.
  { destruct Hright as [->|Hin]; [done|].
    eapply safe_item_near_far; [exact Hsafe|apply safe_item_colFar|done]. }
  split; [|done]. intros Hne.
  destruct layout as [|item layout]; [done|].
  apply Forall_cons in Hsafe as Hitem. destruct Hitem as [Hitem _].
  rewrite Forall_forall in Htop, Hleft.
  specialize (Htop (Item.row item)
                (list_elem_of_fmap_2 Item.row _ _ (list_elem_of_here _ _))).
  specialize (Hleft (Item.col item)
                (list_elem_of_fmap_2 Item.col _ _ (list_elem_of_here _ _))).
  pose proof (safe_item_row _ Hitem) as Hrow.
  pose proof (safe_item_col _ Hitem) as Hcol.
  assert (Number_MAX_SAFE_INTEGER < Number_MAX_VALUE) as Hmax
    by (unfold Number_MAX_SAFE_INTEGER, Number_MAX_VALUE; lia).
  split.
  - destruct Htop' as [Heq|Hin].
    + rewrite Heq in Htop. unfold safe_integer in Hrow. lia.
    + eapply safe_item_near_far; [exact Hsafe|apply safe_item_row|done].
  - destruct Hleft' as [Heq|Hin].
    + rewrite Heq in Hleft. unfold safe_integer in Hcol. lia.
    + eapply safe_item_near_far; [exact Hsafe|apply safe_item_col|done].
Qed.

Lemma getBoundary_encloses_witness :
  Forall safe_item dash6 ∧
  let b := getBoundary dash6 in
  Forall (fun item =>
            Boundary.top b ≤ Item.row item ∧
            Item.row item + Item.size_y item ≤ Boundary.bottom b ∧
            Boundary.left b ≤ Item.col item ∧
            Item.col item + Item.size_x item ≤ Boundary.right b) dash6 ∧
  Boundary.top b ≤ Number_MAX_VALUE ∧ Boundary.left b ≤ Number_MAX_VALUE ∧
  0 ≤ Boundary.bottom b ∧ 1 ≤ Boundary.right b ∧
  safe_integer (Boundary.bottom b) ∧ safe_integer (Boundary.right b) ∧
  (dash6 ≠ [] →
   safe_integer (Boundary.top b) ∧ safe_integer (Boundary.left b)) ∧
  getBoundary [] = Boundary.mk Number_MAX_VALUE 0 Number_MAX_VALUE 1.
Proof.
  assert (Forall safe_item dash6) as Hsafe
    by (apply (bool_decide_unpack _); vm_compute; exact I).
  split; [exact Hsafe|]. exact (getBoundary_encloses dash6 Hsafe).
Defined.

Lemma rowDividers_loop_separated fuel bottom :
  ∀ currentRow currentItems layers,
    layers_separated layers →
    (∀ l a b, l ∈ layers → a ∈ l → b ∈ currentItems → rowFar a ≤ Item.row b) →
    layers_separated
      (rowDividers_loop fuel bottom currentRow currentItems layers).
Proof.
  induction fuel as [|fuel IH]; intros cur items layers Hsep Hitems;
    cbn [rowDividers_loop]; [done|].
  destruct (_ && _); [|done].
  destruct (every_side_cases Item.row rowFar cur items)
    as [[Hdiv ->]|[Hdiv (lower & upper & ->)]]; [|apply IH; assumption].
  apply IH.
  - intros i j l1 l2 a b Hij Hi Hj Ha Hb.
    pose proof (lookup_lt_Some _ _ _ Hj) as Hlen.
    rewrite length_app in Hlen. cbn [length] in Hlen.
    destruct (decide (j < length layers)%nat) as [Hlt|Hge].
    + rewrite lookup_app_l in Hi, Hj by lia. by apply (Hsep i j l1 l2).
    + assert (j = length layers) as -> by lia.
      rewrite lookup_app_l in Hi by lia.
      rewrite lookup_app_r, Nat.sub_diag in Hj by lia. injection Hj as <-.
      apply list_elem_of_filter in Hb as [_ Hb].
      eapply Hitems; [|done..]. by eapply list_elem_of_lookup_2.
  - intros l a b [Hl|Hl]%elem_of_app Ha Hb.
    + apply list_elem_of_filter in Hb as [_ Hb]. by eapply Hitems.
    + apply list_elem_of_singleton in Hl as ->.
      apply list_elem_of_filter in Ha as [Ha Ha'].
      apply list_elem_of_filter in Hb as [Hb Hb'].
      unfold is_divider in Hdiv. rewrite Forall_forall in Hdiv.
      destruct (Hdiv b Hb'); lia.
Qed.

(** X3. The row layers of items within the safe integers, valid or not,
    are ordered and apart: an item of an earlier layer ends at or above
    the row at which any item of a later layer starts. *)
Theorem rowLayers_separated (layout : list Item.t) :
  Forall safe_item layout →
  layers_separated (rowLayers layout).
Proof.
  intros _. apply rowDividers_loop_separated.
  - intros i j l1 l2 a b _ Hi. by rewrite lookup_nil in Hi.
  - intros l a b Hl. by apply elem_of_nil in Hl.
Qed.

Lemma rowDividers_loop_sublist (layout : list Item.t) fuel bottom :
  ∀ currentRow currentItems layers,
    Forall (fun l => l `sublist_of` layout) layers →
    currentItems `sublist_of` layout →
    Forall (fun l => l `sublist_of` layout)
      (rowDividers_loop fuel bottom currentRow currentItems layers).
Proof.
  induction fuel as [|fuel IH]; intros cur items layers Hlayers Hitems;
    cbn [rowDividers_loop]; [done|].
  destruct (_ && _); [|done].
  destruct (every_side_cases Item.row rowFar cur items)
    as [[Hdiv ->]|[Hdiv (lower & upper & ->)]]; [|apply IH; assumption].
  apply IH.
  - apply Forall_app. split; [done|]. apply Forall_singleton.
    trans items; [apply sublist_filter|done].
  - trans items; [apply sublist_filter|done].
Qed.

Lemma rowLayers_separated_witness :
  Forall safe_item dash6 ∧ layers_separated (rowLayers dash6).
Proof.
  assert (Forall safe_item dash6) as Hsafe
    by (apply (bool_decide_unpack _); vm_compute; exact I).
  split; [exact Hsafe|]. exact (rowLayers_separated dash6 Hsafe).
Defined.

(** X4. The row layers of a layout whose items are within the safe
    integers and all have a positive [size_y] are a partition of the
    layout that keeps its order: put one after the other they are a
    permutation of the layout, and each layer is a subsequence of the
    layout. *)
Theorem rowLayers_partition (layout : list Item.t) :
  Forall safe_item layout →
  Forall (fun item => 1 ≤ Item.size_y item) layout →
  concat (rowLayers layout) ≡ₚ layout ∧
  Forall (fun layer => layer `sublist_of` layout) (rowLayers layout).
Proof.
  intros _ Hpos. unfold rowLayers. split.
  - pose proof (getBoundary_bounds layout) as Hb. cbn zeta in Hb.
    apply rowDividers_perm.
    + eapply Forall_impl; [exact Hb|]. by intros ? (? & ? & ? & ?).
    + intros Hne. destruct layout as [|item layout]; [done|].
      apply Forall_cons in Hb as [(? & ? & _) _].
      apply Forall_cons in Hpos as [? _]. unfold rowFar in *. lia.
  - by apply rowDividers_loop_sublist.
Qed.

Lemma rowLayers_partition_witness :
  Forall safe_item dash6 ∧
  Forall (fun item => 1 ≤ Item.size_y item) dash6 ∧
  concat (rowLayers dash6) ≡ₚ dash6 ∧
  Forall (fun layer => layer `sublist_of` dash6) (rowLayers dash6).
Proof.
  assert (Forall safe_item dash6) as Hsafe
    by (apply (bool_decide_unpack _); vm_compute; exact I).
  assert (Forall (fun item => 1 ≤ Item.size_y item) dash6) as H
    by (apply (bool_decide_unpack _); vm_compute; exact I).
  split; [exact Hsafe|]. split; [exact H|].
  exact (rowLayers_partition dash6 Hsafe H).
Defined.

(** ** The overlap test, exactly *)

Lemma ForallOrdPairs_Permutation {A} (R : A → A → Prop) l1 l2 :
  (∀ x y, R x y → R y x) → l1 ≡ₚ l2 →
  ForallOrdPairs R l1 → ForallOrdPairs R l2.
Proof.
  intros Hsym Hperm. induction Hperm as [|x l1 l2 Hperm IH|x y l|l1 l2 l3 _ IH1 _ IH2].
  - done.
  - intros H. inversion H as [|? ? Hx Hl]; subst. constructor; [|by apply IH].
    by rewrite <- Hperm.
  - intros H. inversion H as [|? ? Hy Hl]; subst.
    inversion Hl as [|? ? Hx Hl']; subst.
    apply Forall_cons in Hy as [Hyx Hy].
    constructor; [|by constructor]. constructor; [by apply Hsym|done].
  - auto.
Qed.

Lemma disjoint_along_sym xAxis a b :
  disjoint_along xAxis a b → disjoint_along xAxis b a.
Proof. unfold disjoint_along. tauto. Qed.

Lemma adjacent_overlap_cons xAxis a b l :
  adjacent_overlap xAxis (a :: b :: l)
  ↔ far xAxis a > near xAxis b ∨ adjacent_overlap xAxis (b :: l).
Proof.
  unfold adjacent_overlap. split.
  - intros ([|i] & item & next & Hi & Hn & Hgt).
    + left. by simplify_eq/=.
    + right. exists i, item, next. done.
  - intros [Hgt|(i & item & next & Hi & Hn & Hgt)].
    + by exists O, a, b.
    + by exists (S i), item, next.
Qed.

Lemma adjacent_overlap_short xAxis l :
  (length l ≤ 1)%nat → ¬ adjacent_overlap xAxis l.
Proof.
  intros Hlen (i & item & next & Hi & Hn & _).
  apply lookup_lt_Some in Hn. lia.
Qed.

Lemma sorted_disjoint_no_overlap xAxis l :
  StronglySorted (by_near xAxis) l →
  ¬ adjacent_overlap xAxis l → pairwise_disjoint xAxis l.
Proof.
  induction 1 as [|a l Hl IH Ha]; intros Hno; [constructor|].
  constructor.
  - destruct l as [|b l]; [constructor|].
    rewrite adjacent_overlap_cons in Hno.
    apply StronglySorted_inv in Hl as [_ Hb].
    apply Forall_cons in Ha as [Hab _]. unfold by_near in *.
    constructor.
    + left. lia.
    + eapply Forall_impl; [exact Hb|]. intros c Hc. simpl in Hc. left. lia.
  - apply IH. destruct l as [|b l].
    + apply adjacent_overlap_short. simpl. lia.
    + rewrite adjacent_overlap_cons in Hno. tauto.
Qed.

Lemma disjoint_sorted_no_overlap xAxis l :
  Sorted (by_near xAxis) l → positive_along xAxis l →
  pairwise_disjoint xAxis l → ¬ adjacent_overlap xAxis l.
Proof.
  induction 1 as [|a l Hl IH Ha]; intros Hpos Hdis.
  - apply adjacent_overlap_short. simpl. lia.
  - inversion Hdis as [|? ? Hal Hdl]; subst.
    apply Forall_cons in Hpos as [Hpa Hpl].
    destruct l as [|b l]; [apply adjacent_overlap_short; simpl; lia|].
    rewrite adjacent_overlap_cons. intros [Hgt|Hov]; [|by apply IH].
    apply Forall_cons in Hal as [[?|?] _]; [lia|].
    apply Forall_cons in Hpl as [? _]. inversion Ha; subst.
    unfold by_near in *. lia.
Qed.

Lemma by_near_trans xAxis : Transitive (by_near xAxis).
Proof. unfold by_near. intros a b c ??. lia. Qed.

Lemma hasOverlap_true_iff layout xAxis :
  hasOverlap layout xAxis = true
  ↔ adjacent_overlap xAxis (Array_sort (comparator xAxis) layout).
Proof.
  unfold hasOverlap, Array_some.
  fold (comparator xAxis).
  rewrite (Array_some_from_spec xAxis _ _ 0 eq_refl).
  unfold adjacent_overlap. split.
  - intros (j & item & next & _ & H). by exists j, item, next.
  - intros (j & item & next & H). exists j, item, next. split; [lia|done].
Qed.

(** Without overlap in the test, every two items are apart; with positive
    extents the converse holds. *)
Lemma hasOverlap_false_disjoint layout xAxis :
  hasOverlap layout xAxis = false → pairwise_disjoint xAxis layout.
Proof.
  intros Hno.
  apply (ForallOrdPairs_Permutation _ (Array_sort (comparator xAxis) layout));
    [apply disjoint_along_sym|apply Array_sort_perm|].
  apply sorted_disjoint_no_overlap.
  - apply Sorted_StronglySorted; [apply by_near_trans|apply Array_sort_Sorted].
  - rewrite <- hasOverlap_true_iff. by rewrite Hno.
Qed.

Lemma hasOverlap_false_iff layout xAxis :
  positive_along xAxis layout →
  hasOverlap layout xAxis = false ↔ pairwise_disjoint xAxis layout.
Proof.
  intros Hpos. split; [apply hasOverlap_false_disjoint|].
  intros Hdis. apply not_true_is_false. rewrite hasOverlap_true_iff.
  apply disjoint_sorted_no_overlap.
  - apply Array_sort_Sorted.
  - unfold positive_along. by rewrite Array_sort_perm.
  - apply (ForallOrdPairs_Permutation _ layout);
      [apply disjoint_along_sym|by rewrite Array_sort_perm|done].
Qed.

(** X2. The overlap test is exact on items of positive extent within
    the safe integers: although it compares only neighbours of the sorted
    copy, [hasOverlap] returns [false] exactly when no two items of the
    list overlap along the axis. *)
Theorem hasOverlap_exact (layout : list Item.t) (xAxis : bool) :
  Forall safe_item layout → positive_along xAxis layout →
  hasOverlap layout xAxis = false ↔ pairwise_disjoint xAxis layout.
Proof. intros _. apply hasOverlap_false_iff. Qed.

Lemma hasOverlap_exact_witness :
  Forall safe_item dash_apart ∧ positive_along true dash_apart ∧
  (hasOverlap dash_apart true = false ↔ pairwise_disjoint true dash_apart).
Proof.
  assert (Forall safe_item dash_apart) as Hsafe
    by (apply (bool_decide_unpack _); vm_compute; exact I).
  assert (positive_along true dash_apart) as H
    by (apply (bool_decide_unpack _); vm_compute; exact I).
  split; [exact Hsafe|]. split; [exact H|].
  exact (hasOverlap_exact dash_apart true Hsafe H).
Defined.

(** X5. The overlap test does not depend on the order of the array: two
    arrangements of the same items, of positive extent and within the
    safe integers, get the same answer. *)
Theorem hasOverlap_order_independent (l1 l2 : list Item.t) (xAxis : bool) :
  Forall safe_item l1 → positive_along xAxis l1 → l1 ≡ₚ l2 →
  hasOverlap l1 xAxis = hasOverlap l2 xAxis.
Proof.
  intros _ Hpos Hperm.
  assert (positive_along xAxis l2) as Hpos2
    by (unfold positive_along; by rewrite <- Hperm).
  pose proof (hasOverlap_false_iff l1 xAxis Hpos) as H1.
  pose proof (hasOverlap_false_iff l2 xAxis Hpos2) as H2.
  destruct (hasOverlap l1 xAxis) eqn:E1, (hasOverlap l2 xAxis) eqn:E2;
    try done.
  - assert (pairwise_disjoint xAxis l1) as Hd.
    { apply (ForallOrdPairs_Permutation _ l2);
        [apply disjoint_along_sym|done|by apply H2]. }
    apply H1 in Hd. done.
  - assert (pairwise_disjoint xAxis l2) as Hd.
    { apply (ForallOrdPairs_Permutation _ l1);
        [apply disjoint_along_sym|done|by apply H1]. }
    apply H2 in Hd. done.
Qed.

Lemma hasOverlap_order_independent_witness :
  Forall safe_item dash_apart ∧ positive_along true dash_apart ∧
  dash_apart ≡ₚ reverse dash_apart ∧
  hasOverlap dash_apart true = hasOverlap (reverse dash_apart) true.
Proof.
  assert (Forall safe_item dash_apart) as Hsafe
    by (apply (bool_decide_unpack _); vm_compute; exact I).
  assert (positive_along true dash_apart) as H
    by (apply (bool_decide_unpack _); vm_compute; exact I).
  assert (dash_apart ≡ₚ reverse dash_apart) as Hp
    by (symmetry; apply reverse_Permutation).
  split; [exact Hsafe|]. split; [exact H|]. split; [exact Hp|].
  exact (hasOverlap_order_independent dash_apart (reverse dash_apart) true
           Hsafe H Hp).
Defined.

(** ** Chart holders come from the input *)

Lemma rowDividers_loop_submseteq fuel bottom : ∀ currentRow currentItems layers,
  concat (rowDividers_loop fuel bottom currentRow currentItems layers)
  ⊆+ concat layers ++ currentItems.
Proof.
  induction fuel as [|fuel IH]; intros cur items layers;
    cbn [rowDividers_loop]; [by apply submseteq_inserts_r|].
  destruct (_ && _); [|by apply submseteq_inserts_r].
  destruct (every_side_cases Item.row rowFar cur items)
    as [[Hdiv ->]|[Hdiv (lower & upper & ->)]]; [|apply IH].
  etrans; [apply IH|]. apply Permutation_submseteq.
  rewrite concat_app. simpl. rewrite app_nil_r, <- app_assoc.
  by rewrite filter_app_complement.
Qed.

Section never_twice.

Variable self : list Item.t → Z → list Tree.

Hypothesis self_sub : ∀ l level, forest_leaves (self l level) ⊆+ l.

Lemma colTrees_loop_leaves_sub fuel level right :
  ∀ currentCol currentItems,
    forest_leaves
      (colTrees_loop self fuel level right currentCol currentItems)
    ⊆+ currentItems.
Proof.
  induction fuel as [|fuel IH]; intros cur items; cbn [colTrees_loop];
    [apply submseteq_nil_l|].
  destruct (_ && _); [|apply submseteq_nil_l].
  destruct (every_side_cases Item.col colFar cur items)
    as [[Hdiv ->]|[Hdiv (lower & upper & ->)]]; [|apply IH].
  rewrite forest_leaves_cons.
  rewrite <- (filter_app_complement (λ item, colFar item ≤ cur) items) at 5.
  apply submseteq_app; [|apply IH].
  cbn [leaves].
  match goal with |- concat (leaves <$> ?f) ⊆+ _ => fold (forest_leaves f) end.
  destruct (negb _).
  - by rewrite forest_leaves_charts, Array_sort_perm.
  - apply self_sub.
Qed.

Lemma layerTree_leaves_sub level b layer :
  leaves (layerTree self level b layer) ⊆+ layer.
Proof.
  unfold layerTree. cbn [leaves].
  match goal with |- concat (leaves <$> ?f) ⊆+ _ => fold (forest_leaves f) end.
  destruct (_ || _).
  - by rewrite forest_leaves_charts, Array_sort_perm.
  - apply colTrees_loop_leaves_sub.
Qed.

Lemma build_body_leaves_sub layout level :
  forest_leaves (build_body self layout level) ⊆+ layout.
Proof.
  unfold build_body. destruct layout as [|item [|item' layout]]; [done..|].
  set (l := item :: item' :: layout).
  set (b := getBoundary l).
  etrans; [|apply (rowDividers_loop_submseteq
                     (Z.to_nat (Boundary.bottom b - (Boundary.top b + 1) + 1))
                     (Boundary.bottom b) (Boundary.top b + 1) l [])].
  unfold rowDividers.
  induction (rowDividers_loop _ _ _ _ _) as [|layer layers IH]; [done|].
  cbn [fmap list_fmap concat]. rewrite forest_leaves_cons.
  apply submseteq_app; [apply layerTree_leaves_sub|apply IH].
Qed.

End never_twice.

Lemma build_depth_leaves_sub depth :
  ∀ layout level, forest_leaves (build_depth depth layout level) ⊆+ layout.
Proof.
  induction depth as [|depth IH]; intros layout level; cbn [build_depth].
  - apply submseteq_nil_l.
  - by apply build_body_leaves_sub.
Qed.

Lemma forest_leaf_metas_from ts :
  Forall (fun t => ∀ c, omap leaf_meta (entries t c).*2
                        = chart_meta <$> leaves t) ts →
  ∀ c, omap leaf_meta (forest_entries ts c).*2
       = chart_meta <$> forest_leaves ts.
Proof.
  induction 1 as [|t ts Ht _ IH]; intros c; cbn [forest_entries]; [done|].
  rewrite forest_leaves_cons, !fmap_app, omap_app, Ht, IH. done.
Qed.

Lemma entries_leaf_metas t :
  ∀ c, omap leaf_meta (entries t c).*2 = chart_meta <$> leaves t.
Proof.
  induction t as [item|ts IH|ts IH] using Tree_forest_ind; intros c;
    rewrite entries_eq; cbn [subtrees]; [done|..];
    cbn [fmap list_fmap snd omap list_omap leaves];
    by apply forest_leaf_metas_from.
Qed.

Lemma registry_leaf_metas c ts :
  leafMetas (list_to_map (registry_entries c ts))
  ≡ₚ chart_meta <$> forest_leaves ts.
Proof.
  unfold leafMetas.
  rewrite map_to_list_to_map by apply registry_entries_NoDup.
  unfold registry_entries. cbn [fmap list_fmap snd omap list_omap].
  rewrite forest_leaf_metas_from; [done|].
  apply Forall_forall. intros t _. apply entries_leaf_metas.
Qed.

(** X6. No item is converted twice and no chart holder is made up, for
    every input within the safe integers, valid or not: the [meta]
    objects of the chart holders of the registry (width, height, content
    reference, row and col) are, as a multiset, among those that
    [getChartHolder] derives from the input items, each item giving at
    most one; for a valid input they are all of them. *)
Theorem convert_leaves_from_input (layout : list Item.t) (c : N) :
  safe_layout layout →
  ∃ reg c',
    convert layout c = Ok (reg, c') ∧
    leafMetas reg ⊆+ chart_meta <$> layout ∧
    (valid_layout layout → leafMetas reg ≡ₚ chart_meta <$> layout).
Proof.
  intros _. eexists _, _. split; [apply convert_eq|]. split.
  - rewrite registry_leaf_metas. apply fmap_submseteq, build_depth_leaves_sub.
  - intros Hvalid. rewrite registry_leaf_metas.
    by rewrite build_leaves by by apply valid_layout_positive.
Qed.

Lemma convert_leaves_from_input_witness :
  safe_layout dash6 ∧
  ∃ reg c',
    convert dash6 1 = Ok (reg, c') ∧
    leafMetas reg ⊆+ chart_meta <$> dash6 ∧
    (valid_layout dash6 → leafMetas reg ≡ₚ chart_meta <$> dash6).
Proof.
  assert (safe_layout dash6) as Hsafe
    by (apply (bool_decide_unpack _); vm_compute; exact I).
  split; [exact Hsafe|]. exact (convert_leaves_from_input dash6 1 Hsafe).
Defined.

(** ** Items without height *)

Lemma rowLayers_nil layout :
  Boundary.bottom (getBoundary layout) ≤ Boundary.top (getBoundary layout) →
  rowLayers layout = [].
Proof.
  intros Hle. unfold rowLayers, rowDividers.
  replace (Z.to_nat _) with O by lia. done.
Qed.

(** X7. Silent loss: when the boundary of a layout of two or more items
    within the safe integers has its bottom at or above its top (items
    without height on one row, for one), the row scan does not run: the
    conversion raises no error, creates no node and returns a registry
    that holds the Root alone, without children; every item is
    dropped. *)
Theorem convert_drops_flat_layout (layout : list Item.t) (c : N) :
  safe_layout layout → (1 < length layout)%nat →
  Boundary.bottom (getBoundary layout) ≤ Boundary.top (getBoundary layout) →
  convert layout c = Ok ({[DASHBOARD_ROOT_ID := root_node []]}, c).
Proof.
  intros _ Hlen Hle. rewrite convert_eq, (build_unfold_layers layout Hlen).
  fold (rowLayers layout). rewrite (rowLayers_nil layout Hle).
  cbn. unfold fsize. cbn. by rewrite N.add_0_r, insert_empty.
Qed.

Lemma convert_drops_flat_layout_witness :
  safe_layout dash_unsized ∧ (1 < length dash_unsized)%nat ∧
  Boundary.bottom (getBoundary dash_unsized)
  ≤ Boundary.top (getBoundary dash_unsized) ∧
  convert dash_unsized 1 = Ok ({[DASHBOARD_ROOT_ID := root_node []]}, 1%N).
Proof.
  assert (safe_layout dash_unsized) as Hsafe
    by (apply (bool_decide_unpack _); vm_compute; exact I).
  assert (1 < length dash_unsized)%nat as Hlen by (simpl; lia).
  assert (Boundary.bottom (getBoundary dash_unsized)
          ≤ Boundary.top (getBoundary dash_unsized)) as Hle
    by (vm_compute; discriminate).
  split; [exact Hsafe|]. split; [exact Hlen|]. split; [exact Hle|].
  exact (convert_drops_flat_layout dash_unsized 1 Hsafe Hlen Hle).
Defined.

(** ** Ids, widths and the frame of doConvert *)

Lemma forest_entries_number_from ts :
  Forall (fun t => ∀ c k, (c ≤ k < c + tsize t)%N →
                     ∃ ty, genId ty k ∈ (entries t c).*1) ts →
  ∀ c k, (c ≤ k < c + fsize ts)%N →
         ∃ ty, genId ty k ∈ (forest_entries ts c).*1.
Proof.
  induction 1 as [|t ts Ht _ IH]; intros c k Hk.
  - unfold fsize in Hk. simpl in Hk. lia.
  - rewrite fsize_cons in Hk. cbn [forest_entries].
    destruct (decide (k < c + tsize t)%N) as [Hlt|Hge].
    + destruct (Ht c k ltac:(lia)) as [ty Hty]. exists ty.
      rewrite fmap_app. apply elem_of_app. by left.
    + destruct (IH (c + tsize t)%N k ltac:(lia)) as [ty Hty]. exists ty.
      rewrite fmap_app. apply elem_of_app. by right.
Qed.

Lemma entries_number t :
  ∀ c k, (c ≤ k < c + tsize t)%N → ∃ ty, genId ty k ∈ (entries t c).*1.
Proof.
  induction t as [t IH] using Tree_subtrees_ind. intros c k Hk.
  rewrite entries_eq. rewrite tsize_eq in Hk. cbn [fmap list_fmap fst].
  destruct (decide (k = c)) as [->|Hne].
  - exists (tree_type t). apply list_elem_of_here.
  - destruct (forest_entries_number_from _ IH (c + 1)%N k ltac:(lia))
      as [ty Hty].
    exists ty. by apply list_elem_of_further.
Qed.

Lemma forest_entries_number ts c k :
  (c ≤ k < c + fsize ts)%N → ∃ ty, genId ty k ∈ (forest_entries ts c).*1.
Proof.
  apply forest_entries_number_from, Forall_forall. intros t _.
  apply entries_number.
Qed.

Lemma forest_entries_one_type_from ts :
  Forall (fun t => ∀ c k ty1 ty2,
                     genId ty1 k ∈ (entries t c).*1 →
                     genId ty2 k ∈ (entries t c).*1 → ty1 = ty2) ts →
  ∀ c k ty1 ty2,
    genId ty1 k ∈ (forest_entries ts c).*1 →
    genId ty2 k ∈ (forest_entries ts c).*1 → ty1 = ty2.
Proof.
  induction 1 as [|t ts Ht _ IH]; intros c k ty1 ty2; cbn [forest_entries].
  - by intros ?%elem_of_nil.
  - rewrite fmap_app, !elem_of_app. intros [H1|H1] [H2|H2].
    + by eapply Ht.
    + apply entries_keys in H1. apply forest_entries_keys in H2.
      destruct H1 as (? & n1 & [_ <-]%genId_inj & ?).
      destruct H2 as (? & n2 & [_ <-]%genId_inj & ?). lia.
    + apply entries_keys in H2. apply forest_entries_keys in H1.
      destruct H1 as (? & n1 & [_ <-]%genId_inj & ?).
      destruct H2 as (? & n2 & [_ <-]%genId_inj & ?). lia.
    + by eapply IH.
Qed.

Lemma entries_one_type t :
  ∀ c k ty1 ty2,
    genId ty1 k ∈ (entries t c).*1 → genId ty2 k ∈ (entries t c).*1 →
    ty1 = ty2.
Proof.
  induction t as [t IH] using Tree_subtrees_ind. intros c k ty1 ty2.
  rewrite entries_eq. cbn [fmap list_fmap fst]. rewrite !elem_of_cons.
  intros [H1|H1] [H2|H2].
  - apply genId_inj in H1 as [-> _]. by apply genId_inj in H2 as [-> _].
  - apply genId_inj in H1 as [_ ->]. apply forest_entries_keys in H2.
    destruct H2 as (? & n2 & [_ <-]%genId_inj & ?). lia.
  - apply genId_inj in H2 as [_ ->]. apply forest_entries_keys in H1.
    destruct H1 as (? & n1 & [_ <-]%genId_inj & ?). lia.
  - by eapply (forest_entries_one_type_from _ IH).
Qed.

Lemma forest_entries_one_type ts c k ty1 ty2 :
  genId ty1 k ∈ (forest_entries ts c).*1 →
  genId ty2 k ∈ (forest_entries ts c).*1 → ty1 = ty2.
Proof.
  apply forest_entries_one_type_from, Forall_forall. intros t _.
  apply entries_one_type.
Qed.

Lemma registry_key_elem c ts k :
  k ≠ DASHBOARD_ROOT_ID →
  is_Some ((list_to_map (registry_entries c ts) : gmap string Node.t) !! k)
  ↔ k ∈ (forest_entries ts c).*1.
Proof.
  intros Hk. split.
  - intros [n Hn%lookup_registry].
    apply elem_of_cons in Hn as [Heq|Hn]; [by apply (f_equal fst) in Heq|].
    by apply (list_elem_of_fmap_2 fst) in Hn.
  - intros ([k' n] & -> & Hn)%list_elem_of_fmap. exists n.
    apply lookup_registry. by apply list_elem_of_further.
Qed.

(** X8. Id allocation: the conversion of a layout within the safe
    integers that starts with the counter at [c] ends with it at
    [c' ≥ c]; the registry holds the Root and [c' - c] other nodes, whose
    keys are the ids ['<TYPE>-k'] for the values [k] of the counter from
    [c] up to [c'], each value on one node and with the type of that
    node. *)
Theorem convert_ids_allocated (layout : list Item.t) (c : N) :
  safe_layout layout →
  ∃ reg c',
    convert layout c = Ok (reg, c') ∧ (c ≤ c')%N ∧
    size reg = S (N.to_nat (c' - c)) ∧ ids_allocated reg c c'.
Proof.
  intros _. eexists _, _. split; [apply convert_eq|]. split; [lia|]. split.
  { rewrite registry_size. unfold registry_entries. cbn [length].
    rewrite length_forest_entries. f_equal. lia. }
  split; [|split].
  - intros id n Hn%lookup_registry Hid.
    apply elem_of_cons in Hn as [Heq|Hn]; [by apply (f_equal fst) in Heq|].
    pose proof Hn as Hk. apply (list_elem_of_fmap_2 fst) in Hk.
    apply forest_entries_keys in Hk as (ty & k & Hkey & Hrange).
    cbn [fst] in Hkey. exists k. split; [done|].
    apply forest_entries_subtree in Hn as (t & c' & Hid' & -> & _).
    rewrite tnode_type. rewrite Hid' in Hkey. unfold tid in Hkey.
    by apply genId_inj in Hkey as [<- <-].
  - intros k Hk.
    destruct (forest_entries_number (build layout 0) c k Hk) as [ty Hty].
    exists ty. apply registry_key_elem; [apply genId_not_root|done].
  - intros k ty1 ty2 H1 H2.
    apply registry_key_elem in H1, H2; try apply genId_not_root.
    by eapply forest_entries_one_type.
Qed.

Lemma convert_ids_allocated_witness :
  safe_layout dash6 ∧
  ∃ reg c',
    convert dash6 1 = Ok (reg, c') ∧ (1 ≤ c')%N ∧
    size reg = S (N.to_nat (c' - 1)) ∧ ids_allocated reg 1 c'.
Proof.
  assert (safe_layout dash6) as Hsafe
    by (apply (bool_decide_unpack _); vm_compute; exact I).
  split; [exact Hsafe|]. exact (convert_ids_allocated dash6 1 Hsafe).
Defined.

(** ** [doConvert] on a registry that has nodes already *)

Lemma ids_unused_root c :
  ids_unused c {[DASHBOARD_ROOT_ID := root_node []]}.
Proof.
  intros ty n _. apply lookup_singleton_ne.
  intros Heq. symmetry in Heq. by apply genId_not_root in Heq.
Qed.

Lemma keys_are_ids_root :
  keys_are_ids {[DASHBOARD_ROOT_ID := root_node []]}.
Proof. by intros id n [<- <-]%lookup_singleton_Some. Qed.

(** X10. Frame: let the registry hold every node under the id of the
    node (so that no node is held under two keys; the nodes are records
    here, each with a [children] array of its own, as are the nodes that
    the converter makes), let none of its keys be an id that the counter
    is still to give, and let [parent] be in it.  Then [doConvert], on a layout within the safe integers and at a
    level that is not negative, returns without error; it appends ids to
    the [children] of [parent] and changes nothing else of it, it leaves
    every other node of the registry as it was, and afterwards the
    registry again holds every node under its id and has no key that the
    counter is still to give. *)
Theorem doConvert_frame (layout : list Item.t) (level : Z) (parent : string)
    (c : N) (reg : gmap string Node.t) (pn : Node.t) :
  safe_layout layout → 0 ≤ level →
  keys_are_ids reg → ids_unused c reg → reg !! parent = Some pn →
  ∃ c' reg' new_ids,
    doConvert layout level parent (mkState c reg) = Ok ((), mkState c' reg') ∧
    (c ≤ c')%N ∧
    reg' !! parent = Some (push_all new_ids pn) ∧
    (∀ k v, k ≠ parent → reg !! k = Some v → reg' !! k = Some v) ∧
    keys_are_ids reg' ∧ ids_unused c' reg'.
Proof.
  intros _ _ Hkeys Hfresh Hp. eexists _, _, _. split.
  { rewrite doConvert_install. by apply install_forest_Ok. }
  split; [lia|]. split; [by rewrite lookup_insert_eq|]. split; [|split].
  - intros k v Hk Hv. rewrite lookup_insert_ne by done.
    apply lookup_union_Some_raw. right. split; [|done].
    apply not_elem_of_list_to_map_1. intros Hin%forest_entries_keys.
    rewrite (ids_unused_id_in _ _ _ _ _ Hfresh Hin) in Hv; [done|lia].
  - intros id n Hn.
    destruct (decide (id = parent)) as [->|Hne].
    + rewrite lookup_insert_eq in Hn. injection Hn as <-.
      cbn [push_all Node.id]. by apply Hkeys.
    + rewrite lookup_insert_ne in Hn by done.
      apply lookup_union_Some_raw in Hn as [Hn|[_ Hn]]; [|by apply Hkeys].
      apply elem_of_list_to_map_2, forest_entries_subtree in Hn
        as (t & c' & -> & -> & _).
      by destruct t.
  - intros ty n Hn. rewrite lookup_insert_ne.
    + apply lookup_union_None. split; [|apply Hfresh; lia].
      apply not_elem_of_list_to_map_1. intros Hin%forest_entries_keys.
      eapply (id_in_disjoint _ _ n (n + 1)); [exact Hin| |lia].
      exists ty, n. split; [done|lia].
    + intros ->. rewrite Hfresh in Hp; [done|lia].
Qed.

Lemma doConvert_frame_witness :
  safe_layout dash6 ∧ 0 ≤ 0 ∧
  keys_are_ids {[DASHBOARD_ROOT_ID := root_node []]} ∧
  ids_unused 1 {[DASHBOARD_ROOT_ID := root_node []]} ∧
  ({[DASHBOARD_ROOT_ID := root_node []]} : gmap string Node.t)
    !! DASHBOARD_ROOT_ID = Some (root_node []) ∧
  ∃ c' reg' new_ids,
    doConvert dash6 0 DASHBOARD_ROOT_ID
      (mkState 1 {[DASHBOARD_ROOT_ID := root_node []]})
    = Ok ((), mkState c' reg') ∧
    (1 ≤ c')%N ∧
    reg' !! DASHBOARD_ROOT_ID = Some (push_all new_ids (root_node [])) ∧
    (∀ k v, k ≠ DASHBOARD_ROOT_ID →
            ({[DASHBOARD_ROOT_ID := root_node []]} : gmap string Node.t) !! k
            = Some v → reg' !! k = Some v) ∧
    keys_are_ids reg' ∧ ids_unused c' reg'.
Proof.
  assert (safe_layout dash6) as Hsafe
    by (apply (bool_decide_unpack _); vm_compute; exact I).
  assert (0 ≤ 0) as Hlevel by lia.
  assert (({[DASHBOARD_ROOT_ID := root_node []]} : gmap string Node.t)
            !! DASHBOARD_ROOT_ID = Some (root_node [])) as Hp by reflexivity.
  split; [exact Hsafe|]. split; [exact Hlevel|].
  split; [apply keys_are_ids_root|].
  split; [apply ids_unused_root|]. split; [exact Hp|].
  exact (doConvert_frame dash6 0 DASHBOARD_ROOT_ID 1 _ _ Hsafe Hlevel
           keys_are_ids_root (ids_unused_root 1) Hp).
Defined.

(** ** The form of the forest *)

Lemma everywhere_eq P t :
  everywhere P t ↔ P t ∧ Forall (everywhere P) (subtrees t).
Proof.
  assert (∀ ts, foldr (fun t' acc => everywhere P t' ∧ acc) True ts
                ↔ Forall (everywhere P) ts) as Hfold.
  { induction ts as [|t' ts IH]; cbn [foldr].
    - split; [constructor|done].
    - rewrite IH, Forall_cons. done. }
  destruct t as [item|ts|ts]; cbn [everywhere subtrees]; rewrite ?Hfold.
  - split; [intros [? _]; split; [done|constructor]|by intros [? _]].
  - done.
  - done.
Qed.

Lemma build_body_flat self layout level :
  2 ≤ level → flat_forest (build_body self layout level).
Proof.
  intros Hlevel. unfold build_body.
  destruct layout as [|item [|item' layout]].
  - by left.
  - right. left. eauto.
  - right. right. apply Forall_fmap, Forall_forall. intros layer _.
    unfold layerTree. cbn. destruct (Z.geb_spec level 2) as [_|?]; [|lia].
    cbn [orb]. by exists layer.
Qed.

Lemma build_depth_flat depth layout level :
  2 ≤ level → flat_forest (build_depth depth layout level).
Proof.
  intros Hlevel. destruct depth as [|depth]; cbn [build_depth].
  - by left.
  - by apply build_body_flat.
Qed.

Lemma colTrees_loop_columns self fuel level right :
  (∀ l, flat_forest (self l (level + 2))) →
  ∀ currentCol currentItems,
    Forall column_tree
      (colTrees_loop self fuel level right currentCol currentItems).
Proof.
  intros Hself. induction fuel as [|fuel IH]; intros cur items;
    cbn [colTrees_loop]; [constructor|].
  destruct (_ && _); [|constructor].
  destruct (every_side _ _ _ _ _ _) as [[[] lower] upper]; [|apply IH].
  constructor; [|apply IH].
  destruct (negb _).
  - left. by exists lower.
  - right. eexists. split; [done|apply Hself].
Qed.

Lemma build_top layout : top_forest (build layout 0).
Proof.
  destruct layout as [|item [|item' layout]].
  - by left.
  - right. left. by exists item.
  - right. right. rewrite build_unfold_layers by (simpl; lia).
    apply Forall_fmap, Forall_forall. intros layer _.
    unfold layerTree. change (0 >=? 2) with false. cbn [orb compose].
    destruct (negb (hasOverlap layer true)).
    + left. by exists layer.
    + right. eexists. split; [done|].
      apply colTrees_loop_columns. intros l. by apply build_depth_flat.
Qed.

(** From the form of the forest to a property of every tree. *)
Section form.

Variable P : Tree → Prop.

Hypothesis P_chart : ∀ item, P (TChart item).

Hypothesis P_leaf_row :
  ∀ items, P (TRow (TChart <$> Array_sort sortByColId items)).

Hypothesis P_leaf_col :
  ∀ items, P (TCol (TChart <$> Array_sort sortByRowId items)).

Hypothesis P_col : ∀ ts, flat_forest ts → P (TCol ts).

Hypothesis P_row : ∀ ts, Forall column_tree ts → P (TRow ts).

Lemma charts_everywhere items : Forall (everywhere P) (TChart <$> items).
Proof.
  apply Forall_fmap, Forall_forall. intros item _.
  apply everywhere_eq. split; [apply P_chart|constructor].
Qed.

Lemma leaf_row_everywhere t : leaf_row t → everywhere P t.
Proof.
  intros [items ->]. apply everywhere_eq.
  split; [apply P_leaf_row|apply charts_everywhere].
Qed.

Lemma flat_forest_everywhere ts : flat_forest ts → Forall (everywhere P) ts.
Proof.
  intros [->|[[item ->]|Hrows]].
  - constructor.
  - apply (charts_everywhere [item]).
  - eapply Forall_impl; [exact Hrows|]. apply leaf_row_everywhere.
Qed.

Lemma column_tree_everywhere t : column_tree t → everywhere P t.
Proof.
  intros [[items ->]|(ts & -> & Hts)]; apply everywhere_eq.
  - split; [apply P_leaf_col|apply charts_everywhere].
  - split; [by apply P_col|by apply flat_forest_everywhere].
Qed.

Lemma row_tree_everywhere t : row_tree t → everywhere P t.
Proof.
  intros [Hleaf|(ts & -> & Hts)]; [by apply leaf_row_everywhere|].
  apply everywhere_eq. split; [by apply P_row|].
  eapply Forall_impl; [exact Hts|]. apply column_tree_everywhere.
Qed.

Lemma top_forest_everywhere ts : top_forest ts → Forall (everywhere P) ts.
Proof.
  intros [->|[[item ->]|Hrows]].
  - constructor.
  - apply (charts_everywhere [item]).
  - eapply Forall_impl; [exact Hrows|]. apply row_tree_everywhere.
Qed.

End form.

(** From a property of every tree to the nodes of the registry. *)
Lemma forest_entries_everywhere_from P ts :
  Forall (fun t => everywhere P t → ∀ c k n,
            (k, n) ∈ entries t c →
            ∃ t' c', P t' ∧ k = tid c' t' ∧ n = tnode c' t'
                     ∧ ∀ e, e ∈ entries t' c' → e ∈ entries t c) ts →
  Forall (everywhere P) ts →
  ∀ c k n,
    (k, n) ∈ forest_entries ts c →
    ∃ t' c', P t' ∧ k = tid c' t' ∧ n = tnode c' t'
             ∧ ∀ e, e ∈ entries t' c' → e ∈ forest_entries ts c.
Proof.
  induction 1 as [|t ts Ht _ IH]; intros Hall c k n; cbn [forest_entries].
  - by intros ?%elem_of_nil.
  - apply Forall_cons in Hall as [HPt Hall].
    intros [Hin|Hin]%elem_of_app.
    + destruct (Ht HPt _ _ _ Hin) as (t' & c' & ? & -> & -> & Hsub).
      exists t', c'. repeat split; [done|].
      intros e He. apply elem_of_app. left. by apply Hsub.
    + destruct (IH Hall _ _ _ Hin) as (t' & c' & ? & -> & -> & Hsub).
      exists t', c'. repeat split; [done|].
      intros e He. apply elem_of_app. right. by apply Hsub.
Qed.

Lemma entries_everywhere P t :
  everywhere P t → ∀ c k n,
    (k, n) ∈ entries t c →
    ∃ t' c', P t' ∧ k = tid c' t' ∧ n = tnode c' t'
             ∧ ∀ e, e ∈ entries t' c' → e ∈ entries t c.
Proof.
  induction t as [t IH] using Tree_subtrees_ind. intros Hall c k n.
  apply everywhere_eq in Hall as [HPt Hall].
  rewrite entries_eq. intros [Heq|Hin]%elem_of_cons.
  - injection Heq as -> ->. exists t, c. rewrite entries_eq. done.
  - destruct (forest_entries_everywhere_from P _ IH Hall _ _ _ Hin)
      as (t' & c' & ? & -> & -> & Hsub).
    exists t', c'. repeat split; [done|].
    intros e He. apply list_elem_of_further. by apply Hsub.
Qed.

Lemma registry_everywhere P c ts k n :
  Forall (everywhere P) ts →
  (list_to_map (registry_entries c ts) : gmap string Node.t) !! k = Some n →
  k ≠ DASHBOARD_ROOT_ID →
  ∃ t c', P t ∧ k = tid c' t ∧ n = tnode c' t
          ∧ holds (list_to_map (registry_entries c ts)) (entries t c').
Proof.
  intros Hall Hn%lookup_registry Hk.
  apply elem_of_cons in Hn as [Heq|Hin]; [by apply (f_equal fst) in Heq|].
  destruct (forest_entries_everywhere_from P ts
              ltac:(apply Forall_forall; intros t _; apply entries_everywhere)
              Hall _ _ _ Hin) as (t & c' & ? & -> & -> & Hsub).
  exists t, c'. repeat split; [done|].
  intros k n Hkn. apply lookup_registry, list_elem_of_further. by apply Hsub.
Qed.

(** The children of an installed tree are its subtrees, installed. *)
Lemma forest_ids_holds reg ts : ∀ c,
  holds reg (forest_entries ts c) →
  Forall2 (fun id t => ∃ c', id = tid c' t ∧ holds reg (entries t c'))
    (forest_ids c ts) ts.
Proof.
  induction ts as [|t ts IH]; intros c Hreg; cbn [forest_ids]; constructor.
  - exists c. split; [done|]. intros k n Hk. apply Hreg.
    cbn [forest_entries]. apply elem_of_app. by left.
  - apply IH. intros k n Hk. apply Hreg.
    cbn [forest_entries]. apply elem_of_app. by right.
Qed.

Lemma children_holds reg t c :
  holds reg (entries t c) →
  Forall2 (fun id t' => ∃ c', id = tid c' t' ∧ holds reg (entries t' c'))
    (Node.children (tnode c t)) (subtrees t).
Proof.
  intros Hreg. rewrite tnode_children. apply forest_ids_holds.
  intros k n Hk. apply Hreg. rewrite entries_eq. by apply list_elem_of_further.
Qed.

Lemma root_children_holds c ts :
  Forall2 (fun id t => ∃ c', id = tid c' t
             ∧ holds (list_to_map (registry_entries c ts)) (entries t c'))
    (forest_ids c ts) ts.
Proof.
  apply forest_ids_holds. intros k n Hk.
  apply lookup_registry. by apply list_elem_of_further.
Qed.

Lemma holds_root reg t c : holds reg (entries t c) → reg !! tid c t = Some (tnode c t).
Proof. intros Hreg. apply Hreg, entries_head. Qed.

(** ** Nesting and order *)

Lemma all_of_type_charts items :
  all_of_type DASHBOARD_CHART_TYPE (TChart <$> items).
Proof. apply Forall_fmap, Forall_forall. by intros item _. Qed.

Lemma leaf_row_type t :
  leaf_row t →
  tree_type t = DASHBOARD_ROW_TYPE
  ∧ all_of_type DASHBOARD_CHART_TYPE (subtrees t).
Proof. intros [items ->]. split; [done|apply all_of_type_charts]. Qed.

Lemma column_tree_type t : column_tree t → tree_type t = DASHBOARD_COLUMN_TYPE.
Proof. by intros [[items ->]|(ts & -> & _)]. Qed.

Lemma row_tree_type t : row_tree t → tree_type t = DASHBOARD_ROW_TYPE.
Proof. by intros [[items ->]|(ts & -> & _)]. Qed.

Lemma build_nested layout : Forall (everywhere tree_nested) (build layout 0).
Proof.
  apply top_forest_everywhere; [| | | | |apply build_top]; cbn [tree_nested].
  - done.
  - intros items. left. apply all_of_type_charts.
  - intros items. left. apply all_of_type_charts.
  - intros ts [->|[[item ->]|Hrows]].
    + left. constructor.
    + left. apply (all_of_type_charts [item]).
    + right. eapply Forall_impl; [exact Hrows|]. apply leaf_row_type.
  - intros ts Hcols. right. eapply Forall_impl; [exact Hcols|].
    apply column_tree_type.
Qed.

Lemma ids_of_type reg ty ids ts :
  Forall2 (fun id t => ∃ c', id = tid c' t ∧ holds reg (entries t c')) ids ts →
  all_of_type ty ts →
  Forall (fun ch => ∃ cn, reg !! ch = Some cn ∧ Node.type cn = ty) ids.
Proof.
  intros H2 Hty. eapply Forall2_Forall_l; [exact H2|].
  eapply Forall_impl; [exact Hty|]. intros t Ht id (c' & -> & Hreg).
  exists (tnode c' t). split; [by apply holds_root|by rewrite tnode_type].
Qed.

Lemma subtree_children_of_type reg ty t c :
  holds reg (entries t c) → all_of_type ty (subtrees t) →
  children_of_type reg ty (tnode c t).
Proof.
  intros Hreg Hty. eapply ids_of_type; [by apply children_holds|done].
Qed.

(** X11. Nesting: in the registry of the conversion of a layout within
    the safe integers, the Root holds Rows, or one chart holder and
    nothing else (then the layout has that one item); a Row holds chart
    holders only or Columns only, a Column holds chart holders only or
    Rows that hold chart holders only, and a chart holder has no
    children; so no node lies deeper than a chart holder in a Row in a
    Column in a Row under the Root. *)
Theorem convert_nesting (layout : list Item.t) (c : N) :
  safe_layout layout →
  ∃ reg c',
    convert layout c = Ok (reg, c') ∧
    (∀ id n, reg !! id = Some n → node_nested reg n) ∧
    (∀ root, reg !! DASHBOARD_ROOT_ID = Some root →
             length (Node.children root) = 1%nat →
             children_of_type reg DASHBOARD_CHART_TYPE root →
             length layout = 1%nat).
Proof.
  intros _. eexists _, _. split; [apply convert_eq|]. split.
  - intros id n Hn.
    destruct (decide (id = DASHBOARD_ROOT_ID)) as [->|Hid].
    + apply lookup_registry in Hn.
      apply elem_of_cons in Hn as [Heq|Hn];
        [|apply (list_elem_of_fmap_2 fst) in Hn;
          by apply forest_entries_not_root in Hn].
      apply (f_equal snd) in Heq. cbn [snd] in Heq. subst n.
      unfold node_nested, children_of_type.
      cbn [root_node Node.type Node.children].
      pose proof (root_children_holds c (build layout 0)) as Hkids.
      destruct (build_top layout) as [Hf|[[item Hf]|Hrows]].
      * left. rewrite Hf. constructor.
      * right. split; [by rewrite Hf|].
        eapply ids_of_type; [exact Hkids|]. rewrite Hf.
        apply (all_of_type_charts [item]).
      * left. eapply ids_of_type; [exact Hkids|].
        eapply Forall_impl; [exact Hrows|]. apply row_tree_type.
    + destruct (registry_everywhere tree_nested c _ id n (build_nested layout)
                  Hn Hid) as (t & c' & Ht & -> & -> & Hreg).
      unfold node_nested. rewrite tnode_type.
      destruct t as [item|ts|ts]; cbn [tree_type tree_nested] in *.
      * done.
      * destruct Ht as [Ht|Ht]; [left|right];
          by apply subtree_children_of_type.
      * destruct Ht as [Ht|Ht]; [left; by apply subtree_children_of_type|].
        right. unfold children_leaf_rows.
        eapply Forall2_Forall_l; [by apply children_holds|].
        cbn [subtrees]. eapply Forall_impl; [exact Ht|].
        intros r [Hr Hcharts] ch (cr & -> & Hreg').
        exists (tnode cr r). split; [by apply holds_root|].
        split; [by rewrite tnode_type|].
        by apply subtree_children_of_type.
  - intros root Hroot Hone Hcharts.
    apply lookup_registry in Hroot.
    apply elem_of_cons in Hroot as [Heq|Hn];
      [|apply (list_elem_of_fmap_2 fst) in Hn;
        by apply forest_entries_not_root in Hn].
    apply (f_equal snd) in Heq. cbn [snd] in Heq. subst root.
    unfold children_of_type in Hcharts.
    cbn [root_node Node.children] in Hone, Hcharts.
    pose proof (root_children_holds c (build layout 0)) as Hkids.
    destruct layout as [|item [|item' layout]]; [|done|].
    + by rewrite build_unfold in Hone.
    + exfalso.
      rewrite (build_unfold_layers (item :: item' :: layout)) in Hone, Hcharts, Hkids
        by (simpl; lia).
      destruct (rowDividers _ _ _ _) as [|layer layers]; [done|].
      rewrite fmap_cons in Hkids, Hcharts.
      cbn [forest_ids] in Hcharts, Hkids.
      apply Forall2_cons_1 in Hkids as [(c' & Hid & Hreg) _].
      apply Forall_cons in Hcharts as [(cn & Hcn & Hty) _].
      rewrite Hid, (holds_root _ _ _ Hreg) in Hcn.
      apply (inj Some) in Hcn. subst cn. done.
Qed.

Lemma convert_nesting_witness :
  safe_layout dash6 ∧
  ∃ reg c',
    convert dash6 1 = Ok (reg, c') ∧
    (∀ id n, reg !! id = Some n → node_nested reg n) ∧
    (∀ root, reg !! DASHBOARD_ROOT_ID = Some root →
             length (Node.children root) = 1%nat →
             children_of_type reg DASHBOARD_CHART_TYPE root →
             length dash6 = 1%nat).
Proof.
  assert (safe_layout dash6) as Hsafe
    by (apply (bool_decide_unpack _); vm_compute; exact I).
  split; [exact Hsafe|]. exact (convert_nesting dash6 1 Hsafe).
Defined.

Lemma omap_charts {A} (f : Tree → option A) (g : Item.t → A)
    (items : list Item.t) :
  (∀ item, f (TChart item) = Some (g item)) →
  omap f (TChart <$> items) = g <$> items.
Proof.
  intros Hf. induction items as [|item items IH]; [done|].
  cbn [fmap list_fmap omap list_omap]. rewrite Hf. by f_equal.
Qed.

Lemma omap_none {A B} (f : A → option B) (l : list A) :
  Forall (fun x => f x = None) l → omap f l = [].
Proof.
  induction 1 as [|x l Hx _ IH]; [done|]. cbn [omap list_omap].
  by rewrite Hx.
Qed.

Lemma Array_sort_cols items :
  Sorted Z.le (Item.col <$> Array_sort sortByColId items).
Proof.
  apply (Sorted_fmap _ (by_near true)); [done|].
  apply (Array_sort_Sorted true).
Qed.

Lemma Array_sort_rows items :
  Sorted Z.le (Item.row <$> Array_sort sortByRowId items).
Proof.
  apply (Sorted_fmap _ (by_near false)); [done|].
  apply (Array_sort_Sorted false).
Qed.

Lemma build_in_order layout : Forall (everywhere tree_in_order) (build layout 0).
Proof.
  apply top_forest_everywhere; [| | | | |apply build_top]; cbn [tree_in_order].
  - done.
  - intros items. rewrite (omap_charts _ Item.col) by done.
    apply Array_sort_cols.
  - intros items. rewrite (omap_charts _ Item.row) by done.
    apply Array_sort_rows.
  - intros ts [->|[[item ->]|Hrows]].
    + constructor.
    + repeat constructor.
    + rewrite omap_none; [constructor|].
      eapply Forall_impl; [exact Hrows|]. by intros t [items ->].
  - intros ts Hcols. rewrite omap_none; [constructor|].
    eapply Forall_impl; [exact Hcols|].
    by intros t [[items ->]|(ts' & -> & _)].
Qed.

Lemma omap_Forall2 {A B C} (f : A → option C) (g : B → option C)
    (l : list A) (k : list B) :
  Forall2 (fun x y => f x = g y) l k → omap f l = omap g k.
Proof.
  induction 1 as [|x y l k Hxy _ IH]; [done|]. cbn [omap list_omap].
  by rewrite Hxy, IH.
Qed.

Lemma children_coords reg coord (tcoord : Tree → option Z) t c :
  (∀ c' t', leaf_meta (tnode c' t') ≫= coord = tcoord t') →
  holds reg (entries t c) →
  omap (leaf_coord coord reg) (Node.children (tnode c t))
  = omap tcoord (subtrees t).
Proof.
  intros Hcoord Hreg. apply omap_Forall2.
  eapply Forall2_impl; [by apply children_holds|].
  intros id t' (c' & -> & Hreg'). unfold leaf_coord.
  rewrite (holds_root _ _ _ Hreg'). cbn [mbind option_bind]. apply Hcoord.
Qed.

(** X12. Order of children: in the registry of the conversion of a
    layout within the safe integers, the chart holders among the children
    of a Row stand by ascending [col], and those among the children of a
    Column by ascending [row]. *)
Theorem convert_charts_in_order (layout : list Item.t) (c : N) :
  safe_layout layout →
  ∃ reg c',
    convert layout c = Ok (reg, c') ∧
    ∀ id n, reg !! id = Some n → charts_in_order reg n.
Proof.
  intros _. eexists _, _. split; [apply convert_eq|]. intros id n Hn.
  destruct (decide (id = DASHBOARD_ROOT_ID)) as [->|Hid].
  - apply lookup_registry in Hn.
    apply elem_of_cons in Hn as [Heq|Hn];
      [|apply (list_elem_of_fmap_2 fst) in Hn;
        by apply forest_entries_not_root in Hn].
    apply (f_equal snd) in Heq. cbn [snd] in Heq. by subst n.
  - destruct (registry_everywhere tree_in_order c _ id n
                (build_in_order layout) Hn Hid)
      as (t & c' & Ht & -> & -> & Hreg).
    unfold charts_in_order. rewrite tnode_type.
    destruct t as [item|ts|ts]; cbn [tree_type tree_in_order] in *.
    + done.
    + rewrite (children_coords _ _ chart_col); [done| |done].
      by intros c1 [].
    + rewrite (children_coords _ _ chart_row); [done| |done].
      by intros c1 [].
Qed.

Lemma convert_charts_in_order_witness :
  safe_layout dash6 ∧
  ∃ reg c',
    convert dash6 1 = Ok (reg, c') ∧
    ∀ id n, reg !! id = Some n → charts_in_order reg n.
Proof.
  assert (safe_layout dash6) as Hsafe
    by (apply (bool_decide_unpack _); vm_compute; exact I).
  split; [exact Hsafe|]. exact (convert_charts_in_order dash6 1 Hsafe).
Defined.

(** ** Infinite widths *)

Lemma sum_widths_from (ws : list JSNumber) :
  Forall (width_from 0) ws → width_from 0 (sum_widths ws).
Proof.
  induction 1 as [|w ws (z & -> & Hz) _ (s & IH & Hs)].
  - by exists 0.
  - unfold sum_widths in *. cbn [foldr]. rewrite IH.
    exists (z + s). split; [done|lia].
Qed.

Lemma max_widths_from (ws : list JSNumber) :
  Forall (width_from 0) ws → ws ≠ [] → width_from 0 (max_widths ws).
Proof.
  induction 1 as [|w ws (z & -> & Hz) Hws IH]; [done|]. intros _.
  unfold max_widths in *. cbn [foldr].
  destruct ws as [|w' ws].
  - by exists z.
  - destruct IH as (s & -> & Hs); [done|].
    exists (Z.max z s). split; [done|lia].
Qed.

Lemma sum_widths_infinite (ws : list JSNumber) :
  Forall (fun w => w = NegInfinity ∨ width_from 0 w) ws →
  ((NegInfinity ∈ ws) ∧ sum_widths ws = NegInfinity)
  ∨ ((NegInfinity ∉ ws) ∧ width_from 0 (sum_widths ws)).
Proof.
  induction 1 as [|w ws Hw _ IH].
  - right. split; [by intros ?%elem_of_nil|by exists 0].
  - unfold sum_widths in *. cbn [foldr].
    destruct Hw as [->|(z & -> & Hz)].
    + left. split; [apply list_elem_of_here|].
      destruct IH as [[_ ->]|[_ (s & -> & _)]]; done.
    + destruct IH as [[Hin ->]|[Hin (s & -> & Hs)]].
      * left. split; [by apply list_elem_of_further|done].
      * right. split.
        -- intros [?|?]%elem_of_cons; done.
        -- exists (z + s). split; [done|lia].
Qed.

Lemma chart_widths_from (items : list Item.t) :
  Forall (width_from 0) (twidth <$> (TChart <$> items)).
Proof.
  apply Forall_fmap, Forall_fmap, Forall_forall. intros item _.
  exists (chartWidth item). split; [done|]. unfold chartWidth. lia.
Qed.

Lemma chart_not_column (items : list Item.t) : TCol [] ∉ TChart <$> items.
Proof. by intros (item & ? & _)%list_elem_of_fmap. Qed.

Lemma leaf_row_width t : leaf_row t → width_from 0 (twidth t).
Proof.
  intros [items ->]. cbn [twidth]. rewrite reduce_sum_widths.
  apply sum_widths_from, chart_widths_from.
Qed.

Lemma flat_forest_widths ts :
  flat_forest ts → Forall (width_from 0) (twidth <$> ts).
Proof.
  intros [->|[[item ->]|Hrows]].
  - constructor.
  - apply (chart_widths_from [item]).
  - apply Forall_fmap. eapply Forall_impl; [exact Hrows|].
    apply leaf_row_width.
Qed.

Lemma column_widths_form ts :
  Forall (width_from 0) (twidth <$> ts) → tree_width_form (TCol ts).
Proof.
  intros Hws. cbn [tree_width_form twidth]. rewrite Math_max_widths.
  destruct ts as [|t ts]; [by left|]. right. split; [done|].
  by apply max_widths_from.
Qed.

Lemma column_tree_width t :
  column_tree t →
  (t = TCol [] ∧ twidth t = NegInfinity)
  ∨ (t ≠ TCol [] ∧ width_from 0 (twidth t)).
Proof.
  intros Hcol.
  assert (∃ ts, t = TCol ts ∧ Forall (width_from 0) (twidth <$> ts))
    as (ts & -> & Hws).
  { destruct Hcol as [[items ->]|(ts & -> & Hts)].
    - eexists. split; [done|apply chart_widths_from].
    - eexists. split; [done|by apply flat_forest_widths]. }
  destruct (column_widths_form ts Hws) as [[-> Hw]|[Hne Hw]].
  - by left.
  - right. split; [|done]. by intros [= ->].
Qed.

Lemma build_width_form layout :
  Forall (everywhere tree_width_form) (build layout 0).
Proof.
  apply top_forest_everywhere; [| | | | |apply build_top].
  - done.
  - intros items. right. split; [apply chart_not_column|].
    apply leaf_row_width. by eexists.
  - intros items. apply column_widths_form, chart_widths_from.
  - intros ts Hts. by apply column_widths_form, flat_forest_widths.
  - intros ts Hcols. cbn [tree_width_form twidth].
    rewrite reduce_sum_widths.
    assert (Forall (fun w => w = NegInfinity ∨ width_from 0 w)
              (twidth <$> ts)) as Hws.
    { apply Forall_fmap. eapply Forall_impl; [exact Hcols|].
      intros t [[_ ?]|[_ ?]]%column_tree_width; [by left|by right]. }
    destruct (sum_widths_infinite _ Hws) as [[Hin Hw]|[Hin Hw]].
    + left. split; [|done].
      apply list_elem_of_fmap in Hin as (t & Ht & Hin).
      rewrite Forall_forall in Hcols.
      destruct (column_tree_width t (Hcols t Hin)) as [[-> _]|[_ (z & Hz & _)]];
        [done|congruence].
    + right. split; [|done]. intros Hin'. apply Hin.
      by apply (list_elem_of_fmap_2 twidth) in Hin'.
Qed.

Lemma forest_ids_nil c ts : forest_ids c ts = [] → ts = [].
Proof. by destruct ts. Qed.

Lemma empty_column_child reg ids ts :
  Forall2 (fun id t => ∃ c', id = tid c' t ∧ holds reg (entries t c')) ids ts →
  Exists (fun ch => ∃ cn, reg !! ch = Some cn
                          ∧ Node.type cn = DASHBOARD_COLUMN_TYPE
                          ∧ Node.children cn = []) ids
  ↔ TCol [] ∈ ts.
Proof.
  induction 1 as [|id t ids ts (c' & -> & Hreg) _ IH].
  - split; [by intros ?%Exists_nil|by intros ?%elem_of_nil].
  - rewrite Exists_cons, elem_of_cons, IH.
    apply (holds_root _ _ _) in Hreg.
    split; (intros [Hhd|Htl]; [left|by right]).
    + destruct Hhd as (cn & Hcn & Hty & Hkids).
      rewrite Hreg in Hcn. apply (inj Some) in Hcn. subst cn.
      rewrite tnode_type in Hty. rewrite tnode_children in Hkids.
      apply forest_ids_nil in Hkids.
      destruct t as [item|ts'|ts']; cbn [tree_type subtrees] in *;
        try done. by subst ts'.
    + subst t. by exists (tnode c' (TCol [])).
Qed.

(** X13. Where [-Infinity] comes from: in the registry of the conversion
    of a layout within the safe integers, the width of a Column is
    [-Infinity] when the Column has no children and a non-negative
    integer when it has some, and the width of a Row is [-Infinity] when
    one of its children is a Column without children and a non-negative
    integer when none is. *)
Theorem convert_width_form (layout : list Item.t) (c : N) :
  safe_layout layout →
  ∃ reg c',
    convert layout c = Ok (reg, c') ∧
    ∀ id n, reg !! id = Some n → width_form reg n.
Proof.
  intros _. eexists _, _. split; [apply convert_eq|]. intros id n Hn.
  destruct (decide (id = DASHBOARD_ROOT_ID)) as [->|Hid].
  - apply lookup_registry in Hn.
    apply elem_of_cons in Hn as [Heq|Hn];
      [|apply (list_elem_of_fmap_2 fst) in Hn;
        by apply forest_entries_not_root in Hn].
    apply (f_equal snd) in Heq. cbn [snd] in Heq. by subst n.
  - destruct (registry_everywhere tree_width_form c _ id n
                (build_width_form layout) Hn Hid)
      as (t & c' & Ht & -> & -> & Hreg).
    unfold width_form, has_empty_column. rewrite tnode_type.
    pose proof (children_holds _ _ _ Hreg) as Hkids.
    destruct t as [item|ts|ts]; cbn [tree_type tree_width_form subtrees] in *.
    + done.
    + rewrite (empty_column_child _ _ _ Hkids).
      destruct Ht as [[Hin Hw]|[Hin Hw]]; [left|right]; (split; [done|]).
      * unfold node_width. cbn. by rewrite <- Hw.
      * by exists (twidth (TRow ts)).
    + rewrite tnode_children. cbn [subtrees].
      destruct Ht as [[-> Hw]|[Hne Hw]]; [left|right]; split.
      * done.
      * unfold node_width. cbn. by rewrite <- Hw.
      * by intros ->%forest_ids_nil.
      * by exists (twidth (TCol ts)).
Qed.

Lemma convert_width_form_witness :
  safe_layout dash6 ∧
  ∃ reg c',
    convert dash6 1 = Ok (reg, c') ∧
    ∀ id n, reg !! id = Some n → width_form reg n.
Proof.
  assert (safe_layout dash6) as Hsafe
    by (apply (bool_decide_unpack _); vm_compute; exact I).
  split; [exact Hsafe|]. exact (convert_width_form dash6 1 Hsafe).
Defined.

(** ** Widths stay within the safe integers *)

Lemma total_width_cons (item : Item.t) (l : list Item.t) :
  total_width (item :: l) = chartWidth item + total_width l.
Proof. done. Qed.

Lemma total_width_app (l1 l2 : list Item.t) :
  total_width (l1 ++ l2) = total_width l1 + total_width l2.
Proof.
  induction l1 as [|item l1 IH]; [done|].
  cbn [app]. rewrite !total_width_cons, IH. lia.
Qed.

Lemma total_width_nonneg (l : list Item.t) : 0 ≤ total_width l.
Proof.
  induction l as [|item l IH]; [done|].
  rewrite total_width_cons. unfold chartWidth. lia.
Qed.

Lemma total_width_submseteq (l1 l2 : list Item.t) :
  l1 ⊆+ l2 → total_width l1 ≤ total_width l2.
Proof.
  induction 1 as [|x l1 l2 _ IH|x y l|x l1 l2 _ IH|l1 l2 l3 _ IH1 _ IH2];
    rewrite ?total_width_cons; try lia.
  unfold chartWidth. lia.
Qed.

Lemma width_within_mono b1 b2 w :
  b1 ≤ b2 → width_within b1 w → width_within b2 w.
Proof.
  intros Hle [->|(z & -> & Hz)]; [by left|right].
  exists z. split; [done|lia].
Qed.

Lemma sum_widths_within (ts : list Tree) :
  Forall (fun t => width_within (total_width (leaves t)) (twidth t)) ts →
  width_within (total_width (forest_leaves ts)) (sum_widths (twidth <$> ts)).
Proof.
  unfold sum_widths. induction 1 as [|t ts Ht _ IH].
  - right. by exists 0.
  - rewrite forest_leaves_cons, total_width_app. cbn [fmap list_fmap foldr].
    pose proof (total_width_nonneg (leaves t)).
    pose proof (total_width_nonneg (forest_leaves ts)).
    destruct Ht as [->|(z & -> & Hz)], IH as [->|(s & -> & Hs)];
      try (by left).
    right. exists (z + s). split; [done|lia].
Qed.

Lemma max_widths_within (ts : list Tree) :
  Forall (fun t => width_within (total_width (leaves t)) (twidth t)) ts →
  width_within (total_width (forest_leaves ts)) (max_widths (twidth <$> ts)).
Proof.
  unfold max_widths. induction 1 as [|t ts Ht _ IH].
  - by left.
  - rewrite forest_leaves_cons, total_width_app. cbn [fmap list_fmap foldr].
    pose proof (total_width_nonneg (leaves t)).
    pose proof (total_width_nonneg (forest_leaves ts)).
    destruct Ht as [->|(z & -> & Hz)], IH as [->|(s & -> & Hs)];
      cbn [JSmax].
    + by left.
    + right. exists s. split; [done|lia].
    + right. exists z. split; [done|lia].
    + right. exists (Z.max z s). split; [done|lia].
Qed.

(** The width of a tree is at most the sum of the widths of its chart
    holders. *)
Lemma twidth_within t : width_within (total_width (leaves t)) (twidth t).
Proof.
  induction t as [item|ts IH|ts IH] using Tree_forest_ind;
    cbn [twidth leaves].
  - right. exists (chartWidth item). split; [done|].
    rewrite total_width_cons. unfold chartWidth. cbn. lia.
  - rewrite reduce_sum_widths. by apply sum_widths_within.
  - rewrite Math_max_widths. by apply max_widths_within.
Qed.

Lemma leaves_subtree (t t' : Tree) :
  t' ∈ subtrees t → leaves t' ⊆+ leaves t.
Proof.
  intros Hin.
  assert (∀ ts, t' ∈ ts → leaves t' ⊆+ forest_leaves ts) as Hforest.
  { induction ts as [|t0 ts IH]; intros Ht'; [by apply elem_of_nil in Ht'|].
    rewrite forest_leaves_cons.
    apply elem_of_cons in Ht' as [->|Ht'].
    - by apply submseteq_inserts_r.
    - apply submseteq_inserts_l. by apply IH. }
  destruct t as [item|ts|ts]; cbn [subtrees leaves] in *;
    [by apply elem_of_nil in Hin|by apply Hforest..].
Qed.

Lemma widths_within_everywhere (bound : Z) (t : Tree) :
  total_width (leaves t) ≤ bound →
  everywhere (fun t' => width_within bound (twidth t')) t.
Proof.
  induction t as [t IH] using Tree_subtrees_ind. intros Hle.
  apply everywhere_eq. split.
  - eapply width_within_mono; [exact Hle|apply twidth_within].
  - rewrite Forall_forall in IH. apply Forall_forall. intros t' Hin.
    apply IH; [done|].
    etrans; [apply total_width_submseteq, leaves_subtree, Hin|done].
Qed.

Lemma build_widths_within (layout : list Item.t) :
  Forall (everywhere (fun t => width_within (total_width layout) (twidth t)))
    (build layout 0).
Proof.
  apply Forall_forall. intros t Hin. apply widths_within_everywhere.
  apply total_width_submseteq. trans (forest_leaves (build layout 0)).
  - clear -Hin. induction (build layout 0) as [|t0 ts IH];
      [by apply elem_of_nil in Hin|].
    rewrite forest_leaves_cons.
    apply elem_of_cons in Hin as [->|Hin].
    + by apply submseteq_inserts_r.
    + apply submseteq_inserts_l. by apply IH.
  - apply build_depth_leaves_sub.
Qed.

(** X9. Every node but the Root has a width, in the registry of the
    conversion of a layout within the safe integers, and the width is
    [-Infinity] or an integer from 0 to the sum of the widths of all the
    chart holders of the layout, so a safe integer: no sum of widths is
    rounded, none is [+Infinity] and none is [NaN], and the reads of
    [root[child].meta.width] find a number each time.  The width of a
    chart holder is an integer, 1 at least. *)
Theorem convert_widths_defined (layout : list Item.t) (c : N) :
  safe_layout layout →
  ∃ reg c',
    convert layout c = Ok (reg, c') ∧
    ∀ id n,
      reg !! id = Some n → id ≠ DASHBOARD_ROOT_ID →
      ∃ w, node_width n = Some w ∧ w ≠ NaN ∧
           (w = NegInfinity ∨
            ∃ z, w = Num z ∧ 0 ≤ z ≤ total_width layout ∧ safe_integer z) ∧
           (Node.type n = DASHBOARD_CHART_TYPE → ∃ z, w = Num z ∧ 1 ≤ z).
Proof.
  intros [_ Hsafe]. eexists _, _. split; [apply convert_eq|].
  intros id n Hn Hid.
  destruct (registry_everywhere _ c _ id n (build_widths_within layout)
              Hn Hid) as (t & c' & Ht & -> & -> & _).
  exists (twidth t). split; [by destruct t|]. split; [apply twidth_not_NaN|].
  split.
  - destruct Ht as [->|(z & -> & Hz)]; [by left|right].
    exists z. split; [done|]. split; [done|].
    unfold safe_integer in *. lia.
  - destruct t as [item|ts|ts]; intros [=].
    exists (chartWidth item). split; [done|]. unfold chartWidth. lia.
Qed.

Lemma convert_widths_defined_witness :
  safe_layout dash6 ∧
  ∃ reg c',
    convert dash6 1 = Ok (reg, c') ∧
    ∀ id n,
      reg !! id = Some n → id ≠ DASHBOARD_ROOT_ID →
      ∃ w, node_width n = Some w ∧ w ≠ NaN ∧
           (w = NegInfinity ∨
            ∃ z, w = Num z ∧ 0 ≤ z ≤ total_width dash6 ∧ safe_integer z) ∧
           (Node.type n = DASHBOARD_CHART_TYPE → ∃ z, w = Num z ∧ 1 ≤ z).
Proof.
  assert (safe_layout dash6) as Hsafe
    by (apply (bool_decide_unpack _); vm_compute; exact I).
  split; [exact Hsafe|]. exact (convert_widths_defined dash6 1 Hsafe).
Defined.
